(** * Cache-eviction policies LFU, LRU and the adaptive hybrid LCR

    A shallow embedding of [lcr.py] and the properties of its three
    policies.  Python values are carried as follows:

    - [int] is [Z]; [float] is an IEEE-754 binary64 primitive float, which is
      what CPython's [float] is;
    - [str] keys are [string]; [None]/key results are [option CacheKey];
    - a [list] is a [list], index 0 first;
    - the [Counter] (a [dict], which iterates in insertion order) is an
      association list in insertion order;
    - a raised exception is the [Raise] branch of [result];
    - an object mutated in place is a record passed in and returned;
    - [random.choice] takes its outcome as an argument;
    - [math.exp] is a parameter [math_exp]: the properties that depend on its
      value assume only that [exp(0.45)] is a positive finite double, and
      those about the tests of LCR that it is the double nearest to
      e^0.45. *)

From Stdlib Require Import ZArith List String Bool Lia.
From Stdlib Require Import Floats.PrimFloat Floats.FloatOps Floats.SpecFloat Floats.FloatAxioms.
From Stdlib Require Uint63.
Import ListNotations.
Local Open Scope string_scope.
Local Open Scope list_scope.
Local Open Scope Z_scope.

(** ** Exceptions *)

Inductive exn : Set :=
| AssertionError
| ZeroDivisionError
| OverflowError
| ValueError
| IndexError
| KeyError.

Inductive result (A : Type) : Type :=
| Ok (a : A)
| Raise (e : exn).

Arguments Ok {A} a.
Arguments Raise {A} e.

Definition bind {A B : Type} (m : result A) (k : A -> result B) : result B :=
  match m with
  | Ok a => k a
  | Raise e => Raise e
  end.

Declare Scope result_scope.
Delimit Scope result_scope with result.
Notation "x <- m ;; k" := (bind m (fun x => k))
  (at level 61, m at next level, right associativity) : result_scope.
Notation "' p <- m ;; k" := (bind m (fun x => match x with p => k end))
  (at level 61, p pattern, m at next level, right associativity) : result_scope.
Local Open Scope result_scope.

(** ** Keys and the built-in containers *)

(** [CacheKey = NewType("CacheKey", str)] *)
Definition CacheKey : Set := string.

(** Truth value of an [Optional[CacheKey]] in [if maybe_evicted:]: [None] and
    the empty string are false. *)
Definition truthy (o : option CacheKey) : bool :=
  match o with
  | None => false
  | Some k => negb (String.eqb k "")
  end.

(** [x in l] for a list. *)
Fixpoint list_contains (l : list CacheKey) (x : CacheKey) : bool :=
  match l with
  | [] => false
  | y :: l' => if String.eqb y x then true else list_contains l' x
  end.

(** [l.remove(x)]: drops the first occurrence, [ValueError] when there is
    none. *)
Fixpoint list_remove (l : list CacheKey) (x : CacheKey) : result (list CacheKey) :=
  match l with
  | [] => Raise ValueError
  | y :: l' =>
      if String.eqb y x then Ok l'
      else (l'' <- list_remove l' x ;; Ok (y :: l''))
  end.

(** [l.pop()]: drops and returns the last element, [IndexError] on the empty
    list. *)
Fixpoint list_pop (l : list CacheKey) : result (list CacheKey * CacheKey) :=
  match l with
  | [] => Raise IndexError
  | x :: l' =>
      match l' with
      | [] => Ok ([], x)
      | _ :: _ => ('(r, y) <- list_pop l' ;; Ok (x :: r, y))
      end
  end.

(** [l.insert(0, x)] *)
Definition list_insert0 (l : list CacheKey) (x : CacheKey) : list CacheKey :=
  x :: l.

Definition len {A : Type} (l : list A) : Z := Z.of_nat (List.length l).

(** [collections.Counter]: the entries in insertion order. *)
Definition Counter : Set := list (CacheKey * Z).

(** [c[k]]; a missing key reads as 0 and is not inserted. *)
Fixpoint Counter_getitem (c : Counter) (k : CacheKey) : Z :=
  match c with
  | [] => 0
  | (k', v) :: c' => if String.eqb k' k then v else Counter_getitem c' k
  end.

(** [c[k] = v]: an existing entry keeps its place, a new one goes last. *)
Fixpoint Counter_setitem (c : Counter) (k : CacheKey) (v : Z) : Counter :=
  match c with
  | [] => [(k, v)]
  | (k', v') :: c' =>
      if String.eqb k' k then (k', v) :: c'
      else (k', v') :: Counter_setitem c' k v
  end.

(** [del c[k]], [KeyError] when [k] has no entry. *)
Fixpoint Counter_delitem (c : Counter) (k : CacheKey) : result Counter :=
  match c with
  | [] => Raise KeyError
  | (k', v') :: c' =>
      if String.eqb k' k then Ok c'
      else (c'' <- Counter_delitem c' k ;; Ok ((k', v') :: c''))
  end.

(** [c.items()] *)
Definition Counter_items (c : Counter) : list (CacheKey * Z) := c.

(** The loop of [min(..., key=itemgetter(1))]: the running minimum is replaced
    only by a strictly smaller count. *)
Fixpoint min_scan (best : CacheKey * Z) (rest : list (CacheKey * Z)) : CacheKey * Z :=
  match rest with
  | [] => best
  | x :: rest' =>
      if snd x <? snd best then min_scan x rest' else min_scan best rest'
  end.

(** [min(items, key=itemgetter(1))], [ValueError] on an empty sequence. *)
Definition min_by_count (items : list (CacheKey * Z)) : result (CacheKey * Z) :=
  match items with
  | [] => Raise ValueError
  | x :: rest => Ok (min_scan x rest)
  end.

(** ** Numbers *)

(** [float(n)] for an [int]: rounded to nearest-even, [OverflowError] when the
    integer is beyond the range of a double. *)
Definition float_of_int (n : Z) : result float :=
  let f := SF2Prim (binary_normalize prec emax n 0 false) in
  if PrimFloat.is_infinity f then Raise OverflowError else Ok f.

(** ** class CachePolicy *)

Record CachePolicy : Set := mkCachePolicy {
  budget : Z;
  hits : Z;
  accesses : Z
}.

(** [CachePolicy.__init__]: [assert budget > 0], then the three fields. *)
Definition CachePolicy_init (budget : Z) : result CachePolicy :=
  if budget >? 0
  then Ok {| budget := budget; hits := 0; accesses := 0 |}
  else Raise AssertionError.

(** [self.accesses += 1] *)
Definition incr_accesses (self : CachePolicy) : CachePolicy :=
  {| budget := budget self; hits := hits self; accesses := accesses self + 1 |}.

(** [self.hits += 1] *)
Definition incr_hits (self : CachePolicy) : CachePolicy :=
  {| budget := budget self; hits := hits self + 1; accesses := accesses self |}.

(** [CachePolicy.hitrate]: [float(self.hits) * 100 / self.accesses].  The
    divisor is converted to a float and a zero divisor raises. *)
Definition hitrate (self : CachePolicy) : result float :=
  h <- float_of_int (hits self) ;;
  let num := PrimFloat.mul h 100%float in
  a <- float_of_int (accesses self) ;;
  if PrimFloat.eqb a 0%float then Raise ZeroDivisionError
  else Ok (PrimFloat.div num a).

(** ** class LFU *)

Record LFU : Set := mkLFU {
  LFU_base : CachePolicy;
  frequency_counter : Counter
}.

(** [LFU.__init__] *)
Definition LFU_init (budget : Z) : result LFU :=
  base <- CachePolicy_init budget ;;
  Ok {| LFU_base := base; frequency_counter := [] |}.

(** [LFU.__contains__] *)
Definition LFU_contains (self : LFU) (item : CacheKey) : bool :=
  Counter_getitem (frequency_counter self) item >? 0.

(** The table after [self.frequency_counter[key] += 1]. *)
Definition Counter_incr (c : Counter) (key : CacheKey) : Counter :=
  Counter_setitem c key (Counter_getitem c key + 1).

(** [LFU.access] *)
Definition LFU_access (self : LFU) (key : CacheKey) : result (LFU * option CacheKey) :=
  let base := incr_accesses (LFU_base self) in
  let base := if LFU_contains self key then incr_hits base else base in
  let fc := Counter_incr (frequency_counter self) key in
  if len fc >? budget base then
    '(least_frequent_key, _) <- min_by_count (Counter_items fc) ;;
    fc' <- Counter_delitem fc least_frequent_key ;;
    Ok ({| LFU_base := base; frequency_counter := fc' |}, Some least_frequent_key)
  else
    Ok ({| LFU_base := base; frequency_counter := fc |}, None).

Definition LFU_hitrate (self : LFU) : result float := hitrate (LFU_base self).

(** ** class LRU *)

Record LRU : Set := mkLRU {
  LRU_base : CachePolicy;
  recency_list : list CacheKey
}.

(** [LRU.__init__] *)
Definition LRU_init (budget : Z) : result LRU :=
  base <- CachePolicy_init budget ;;
  Ok {| LRU_base := base; recency_list := [] |}.

(** [LRU.__contains__] *)
Definition LRU_contains (self : LRU) (item : CacheKey) : bool :=
  list_contains (recency_list self) item.

(** [try: l.remove(key) except ValueError: pass] *)
Definition remove_if_present (l : list CacheKey) (key : CacheKey) : result (list CacheKey) :=
  match list_remove l key with
  | Ok l' => Ok l'
  | Raise ValueError => Ok l
  | Raise e => Raise e
  end.

(** [LRU.access] *)
Definition LRU_access (self : LRU) (key : CacheKey) : result (LRU * option CacheKey) :=
  let base := incr_accesses (LRU_base self) in
  let base := if LRU_contains self key then incr_hits base else base in
  rl <- remove_if_present (recency_list self) key ;;
  let rl := list_insert0 rl key in
  if len rl >? budget base then
    '(rl', last) <- list_pop rl ;;
    Ok ({| LRU_base := base; recency_list := rl' |}, Some last)
  else
    Ok ({| LRU_base := base; recency_list := rl |}, None).

Definition LRU_hitrate (self : LRU) : result float := hitrate (LRU_base self).

(** ** class LCR *)

(** [class PolicyType(enum.Enum)].  It names the arm that
    [select_policy_and_history] hands out: the pair it returns aliases two
    fields of the LCR object, and the tag says which two. *)
Module PolicyType.
Inductive t : Set := LFU | LRU.
End PolicyType.

Record LCR : Set := mkLCR {
  LCR_base : CachePolicy;
  history_lfu : list CacheKey;
  history_lru : list CacheKey;
  lfu_policy : LFU;
  lru_policy : LRU;
  w_lfu : float;
  w_lru : float
}.

Definition set_base (self : LCR) (b : CachePolicy) : LCR :=
  {| LCR_base := b;
     history_lfu := history_lfu self; history_lru := history_lru self;
     lfu_policy := lfu_policy self; lru_policy := lru_policy self;
     w_lfu := w_lfu self; w_lru := w_lru self |}.

Definition set_weights (self : LCR) (wf wr : float) : LCR :=
  {| LCR_base := LCR_base self;
     history_lfu := history_lfu self; history_lru := history_lru self;
     lfu_policy := lfu_policy self; lru_policy := lru_policy self;
     w_lfu := wf; w_lru := wr |}.

(** The arm [a] and its history log, read through the alias. *)
Definition set_arm_lfu (self : LCR) (p : LFU) (h : list CacheKey) : LCR :=
  {| LCR_base := LCR_base self;
     history_lfu := h; history_lru := history_lru self;
     lfu_policy := p; lru_policy := lru_policy self;
     w_lfu := w_lfu self; w_lru := w_lru self |}.

Definition set_arm_lru (self : LCR) (p : LRU) (h : list CacheKey) : LCR :=
  {| LCR_base := LCR_base self;
     history_lfu := history_lfu self; history_lru := h;
     lfu_policy := lfu_policy self; lru_policy := p;
     w_lfu := w_lfu self; w_lru := w_lru self |}.

(** [LCR.__init__] *)
Definition LCR_init (budget : Z) : result LCR :=
  base <- CachePolicy_init budget ;;
  lfu <- LFU_init budget ;;
  lru <- LRU_init budget ;;
  Ok {| LCR_base := base;
        history_lfu := []; history_lru := [];
        lfu_policy := lfu; lru_policy := lru;
        w_lfu := 0.5%float; w_lru := 0.5%float |}.

(** [LCR.__contains__] *)
Definition LCR_contains (self : LCR) (key : CacheKey) : bool :=
  LFU_contains (lfu_policy self) key || LRU_contains (lru_policy self) key.

(** [a / b] on floats: a zero divisor raises. *)
Definition float_truediv (a b : float) : result float :=
  if PrimFloat.eqb b 0%float then Raise ZeroDivisionError
  else Ok (PrimFloat.div a b).

(** [learning_rate = 0.45], the double nearest to 0.45. *)
Definition learning_rate : float := 0x1.ccccccccccccdp-2%float.

(** [if maybe_evicted: (if len(history) >= budget: history.pop());
    history.insert(0, maybe_evicted)] on the history log [history]. *)
Definition record_eviction (budget : Z) (history : list CacheKey)
    (maybe_evicted : option CacheKey) : result (list CacheKey) :=
  match maybe_evicted with
  | Some evicted =>
      if truthy maybe_evicted then
        history' <- (if len history >=? budget
                     then ('(h, _) <- list_pop history ;; Ok h)
                     else Ok history) ;;
        Ok (list_insert0 history' evicted)
      else Ok history
  | None => Ok history
  end.

Section WithLibm.

(** [math.exp], the C library's exponential on doubles. *)
Variable math_exp : float -> float.

(** [LCR.update_weight] *)
Definition update_weight (self : LCR) (key : CacheKey) : result LCR :=
  let self :=
    if list_contains (history_lru self) key then
      set_weights self (PrimFloat.mul (w_lfu self) (math_exp learning_rate)) (w_lru self)
    else if list_contains (history_lfu self) key then
      set_weights self (w_lfu self) (PrimFloat.mul (w_lru self) (math_exp learning_rate))
    else self in
  wr <- float_truediv (w_lru self) (PrimFloat.add (w_lru self) (w_lfu self)) ;;
  let self := set_weights self (w_lfu self) wr in
  Ok (set_weights self (PrimFloat.sub 1%float (w_lru self)) (w_lru self)).

(** [LCR.select_policy_and_history].  [rnd] is the index [random.choice]
    draws from its two-element list when the weights are equal (or
    incomparable): [false] the first element, [true] the second. *)
Definition select_policy_and_history (self : LCR) (rnd : bool) : PolicyType.t :=
  if PrimFloat.ltb (w_lfu self) (w_lru self) then PolicyType.LRU
  else if PrimFloat.ltb (w_lru self) (w_lfu self) then PolicyType.LFU
  else if rnd then PolicyType.LFU else PolicyType.LRU.

(** The last four lines of the miss branch of [LCR.access], on the arm and
    history that [policy, history] alias.  The branch ends without a
    [return], so the call returns [None]. *)
Definition access_selected (self : LCR) (arm : PolicyType.t) (key : CacheKey)
    : result (LCR * option CacheKey) :=
  match arm with
  | PolicyType.LFU =>
      '(policy, maybe_evicted) <- LFU_access (lfu_policy self) key ;;
      history <- record_eviction (budget (LCR_base self)) (history_lfu self) maybe_evicted ;;
      Ok (set_arm_lfu self policy history, None)
  | PolicyType.LRU =>
      '(policy, maybe_evicted) <- LRU_access (lru_policy self) key ;;
      history <- record_eviction (budget (LCR_base self)) (history_lru self) maybe_evicted ;;
      Ok (set_arm_lru self policy history, None)
  end.

(** [LCR.access] *)
Definition LCR_access (self : LCR) (rnd : bool) (key : CacheKey)
    : result (LCR * option CacheKey) :=
  let self := set_base self (incr_accesses (LCR_base self)) in
  if LCR_contains self key then
    let self := set_base self (incr_hits (LCR_base self)) in
    if LFU_contains (lfu_policy self) key then
      '(policy, r) <- LFU_access (lfu_policy self) key ;;
      Ok (set_arm_lfu self policy (history_lfu self), r)
    else if LRU_contains (lru_policy self) key then
      '(policy, r) <- LRU_access (lru_policy self) key ;;
      Ok (set_arm_lru self policy (history_lru self), r)
    else Ok (self, None)
  else
    self <- update_weight self key ;;
    access_selected self (select_policy_and_history self rnd) key.

Definition LCR_hitrate (self : LCR) : result float := hitrate (LCR_base self).

(** [for key in trace: lcr.access(key)], collecting what each call returns;
    every key comes with the draw its call may consume. *)
Fixpoint LCR_run (self : LCR) (trace : list (CacheKey * bool))
    : result (LCR * list (option CacheKey)) :=
  match trace with
  | [] => Ok (self, [])
  | (key, rnd) :: rest =>
      '(self', r) <- LCR_access self rnd key ;;
      '(self'', rs) <- LCR_run self' rest ;;
      Ok (self'', r :: rs)
  end.

End WithLibm.

(** [for key in trace: policy.access(key)] for the two base policies. *)
Fixpoint LFU_run (self : LFU) (trace : list CacheKey)
    : result (LFU * list (option CacheKey)) :=
  match trace with
  | [] => Ok (self, [])
  | key :: rest =>
      '(self', r) <- LFU_access self key ;;
      '(self'', rs) <- LFU_run self' rest ;;
      Ok (self'', r :: rs)
  end.

Fixpoint LRU_run (self : LRU) (trace : list CacheKey)
    : result (LRU * list (option CacheKey)) :=
  match trace with
  | [] => Ok (self, [])
  | key :: rest =>
      '(self', r) <- LRU_access self key ;;
      '(self'', rs) <- LRU_run self' rest ;;
      Ok (self'', r :: rs)
  end.

(** * Sessions

    A fresh policy fed a trace, as the tests do. *)

Definition LFU_session (b : Z) (trace : list CacheKey) : result (LFU * list (option CacheKey)) :=
  self <- LFU_init b ;; LFU_run self trace.

Definition LRU_session (b : Z) (trace : list CacheKey) : result (LRU * list (option CacheKey)) :=
  self <- LRU_init b ;; LRU_run self trace.

Definition LCR_session (math_exp : float -> float) (b : Z) (trace : list (CacheKey * bool))
    : result (LCR * list (option CacheKey)) :=
  self <- LCR_init b ;; LCR_run math_exp self trace.

(** * Definitions for the properties *)

(** A stand-in for [math.exp] in the concrete runs below: constant at the
    double nearest to e^0.45, which is what [math.exp] returns at
    [learning_rate], the only argument the program passes it. *)
Definition exp_045 (x : float) : float := 0x1.917ce84a993b5p+0%float.

(** The update in the spec's words, on the pair [(w_lfu, w_lru)]: scale
    [w_lfu] by exp(0.45) if the key is in [history_lru], else scale [w_lru] if
    it is in [history_lfu], else scale neither; then
    [w_lru := w_lru / (w_lru + w_lfu)] and [w_lfu := 1 - w_lru]. *)
Definition spec_weight_update (math_exp : float -> float)
    (in_history_lru in_history_lfu : bool) (wf wr : float) : float * float :=
  let scaled :=
    if in_history_lru then (PrimFloat.mul wf (math_exp learning_rate), wr)
    else if in_history_lfu then (wf, PrimFloat.mul wr (math_exp learning_rate))
    else (wf, wr) in
  let wr' := PrimFloat.div (snd scaled) (PrimFloat.add (snd scaled) (fst scaled)) in
  (PrimFloat.sub 1%float wr', wr').

(** The pair [(w_lfu, w_lru)] of an LCR. *)
Definition weights (self : LCR) : float * float := (w_lfu self, w_lru self).

(** ** Invariants of the reachable states *)

(** The keys of the frequency table, in insertion order. *)
Definition keys (c : Counter) : list CacheKey := map fst c.

(** Every entry of the table has been counted at least once. *)
Definition counts_positive (c : Counter) : Prop := Forall (fun e => 0 < snd e) c.

(** What holds of an LFU after construction and after every access. *)
Record LFU_wf (self : LFU) : Prop := {
  LFU_wf_budget : 0 < budget (LFU_base self);
  LFU_wf_nodup : NoDup (keys (frequency_counter self));
  LFU_wf_size : len (frequency_counter self) <= budget (LFU_base self);
  LFU_wf_positive : counts_positive (frequency_counter self);
  LFU_wf_hits : 0 <= hits (LFU_base self) <= accesses (LFU_base self)
}.

(** What holds of an LRU after construction and after every access. *)
Record LRU_wf (self : LRU) : Prop := {
  LRU_wf_budget : 0 < budget (LRU_base self);
  LRU_wf_nodup : NoDup (recency_list self);
  LRU_wf_size : len (recency_list self) <= budget (LRU_base self);
  LRU_wf_hits : 0 <= hits (LRU_base self) <= accesses (LRU_base self)
}.

(** ** Measures on doubles

    A non-negative finite double [m * 2^e] is measured by the integer
    [V m e = m * 2^(e + OFS)]. *)

Module Binary64.

(** The exponent of the last bit of a double of magnitude below [2^e]:
    [fexp] of [SpecFloat] at precision 53 and [emax] 1024. *)
Definition fexp64 (e : Z) : Z := Z.max (e - 53) (-1074).

(** The number of binary digits of a mantissa. *)
Definition dg (m : Z) : Z := Zdigits2 m.

(** A shift record that has lost no bit so far. *)
Definition rec_exact (mrs : shr_record) : Prop := shr_r mrs = false /\ shr_s mrs = false.

(** The last step of [binary_round_aux]: zero, a finite double, or overflow. *)
Definition assemble (sx : bool) (m e : Z) : spec_float :=
  match m with
  | Z0 => S754_zero sx
  | Zpos p => if e <=? 971 then S754_finite sx p e else S754_infinity sx
  | Zneg _ => S754_nan
  end.

(** The value [m * 2^e] as an integer, scaled by [2^OFS].  Every exponent
    that the four operations meet is above [- OFS]. *)
Definition OFS : Z := 2200.
Definition V (m e : Z) : Z := m * 2 ^ (e + OFS).

(** [x] is at least, respectively at most, [mv * 2^ev]. *)
Definition lower_ok (x : spec_float) (mv ev : Z) : Prop :=
  match x with
  | S754_zero false => mv = 0
  | S754_finite false m e => V mv ev <= V (Z.pos m) e
  | S754_infinity false => True
  | _ => False
  end.

Definition upper_ok (x : spec_float) (mv ev : Z) : Prop :=
  match x with
  | S754_zero false => True
  | S754_finite false m e => V (Z.pos m) e <= V mv ev
  | _ => False
  end.

(** Non-negative finite doubles ([+0] or positive) and their values. *)
Definition val (x : spec_float) : Z :=
  match x with
  | S754_finite false m e => V (Z.pos m) e
  | _ => 0
  end.

Definition nnf (x : spec_float) : Prop :=
  match x with
  | S754_zero false => True
  | S754_finite false _ _ => True
  | _ => False
  end.

Definition good (x : spec_float) : Prop := valid_binary x = true /\ nnf x.

(** The same on primitive floats. *)
Definition fgood (x : float) : Prop := nnf (Prim2SF x).
Definition fval (x : float) : Z := val (Prim2SF x).

(** The values of 1, of the least positive double and of [2^-53]. *)
Definition ONE : Z := V 1 0.
Definition ULP : Z := V 1 (-1074).
Definition U53 : Z := V 1 (-53).

(** A positive finite double, in the floats' own order. *)
Definition exp_ok (e : float) : Prop :=
  PrimFloat.ltb 0 e = true /\ PrimFloat.ltb e infinity = true.

(** The doubles of [0, 1]. *)
Definition unit_interval (x : float) : Prop := fgood x /\ fval x <= ONE.

(** The neighbours of 1.0: [1 - 2^-53] and [1 + 2^-52]. *)
Definition below_one : float := 0x1.fffffffffffffp-1%float.
Definition above_one : float := 0x1.0000000000001p+0%float.

End Binary64.

(** The weights: [w_lru] is a double in [0, 1] and [w_lfu] is the double
    [1 - w_lru]. *)
Definition weights_wf (self : LCR) : Prop :=
  Binary64.unit_interval (w_lru self) /\
  w_lfu self = PrimFloat.sub 1%float (w_lru self).

(** What holds of an LCR after construction and after every access. *)
Record LCR_wf (self : LCR) : Prop := {
  LCR_wf_budget : 0 < budget (LCR_base self);
  LCR_wf_weights : weights_wf self;
  LCR_wf_lfu : LFU_wf (lfu_policy self);
  LCR_wf_lru : LRU_wf (lru_policy self);
  LCR_wf_lfu_budget : budget (LFU_base (lfu_policy self)) = budget (LCR_base self);
  LCR_wf_lru_budget : budget (LRU_base (lru_policy self)) = budget (LCR_base self);
  LCR_wf_history_lfu : len (history_lfu self) <= budget (LCR_base self);
  LCR_wf_history_lru : len (history_lru self) <= budget (LCR_base self);
  LCR_wf_hits : 0 <= hits (LCR_base self) <= accesses (LCR_base self);
  LCR_wf_disjoint :
    forall k, In k (keys (frequency_counter (lfu_policy self))) ->
              In k (recency_list (lru_policy self)) -> False
}.

(** ** Definitions for the further properties *)

(** Equality of keys is decidable. *)
Definition CacheKey_eq_dec : forall x y : CacheKey, {x = y} + {x <> y} := string_dec.

(** The number of calls in a run that returned an evicted key. *)
Definition evictions (outs : list (option CacheKey)) : Z :=
  len (filter (fun r => match r with Some _ => true | None => false end) outs).

(** The recency order of a trace: its distinct keys, the most recent first. *)
Definition recency_order (trace : list CacheKey) : list CacheKey :=
  rev (nodup CacheKey_eq_dec trace).

(** An LCR that has logged no eviction: both histories empty and the weights
    still at their initial 0.5. *)
Definition LCR_untrained (self : LCR) : Prop :=
  history_lfu self = [] /\ history_lru self = [] /\
  w_lfu self = 0.5%float /\ w_lru self = 0.5%float.

(** The three ways a completed [LCR.access] went: a hit served by the
    frequency arm, a hit served by the recency arm, or a miss, which updates
    the weights and then accesses the selected arm and logs its eviction. *)
Inductive LCR_access_case (math_exp : float -> float) (self : LCR) (rnd : bool)
    (key : CacheKey) (self' : LCR) (r : option CacheKey) : Prop :=
| LCR_hit_lfu (p : LFU) :
    LFU_contains (lfu_policy self) key = true ->
    LFU_access (lfu_policy self) key = Ok (p, r) ->
    self' = set_arm_lfu (set_base self (incr_hits (incr_accesses (LCR_base self))))
              p (history_lfu self) ->
    LCR_access_case math_exp self rnd key self' r
| LCR_hit_lru (p : LRU) :
    LFU_contains (lfu_policy self) key = false ->
    LRU_contains (lru_policy self) key = true ->
    LRU_access (lru_policy self) key = Ok (p, r) ->
    self' = set_arm_lru (set_base self (incr_hits (incr_accesses (LCR_base self))))
              p (history_lru self) ->
    LCR_access_case math_exp self rnd key self' r
| LCR_miss_lfu (self1 : LCR) (p : LFU) (m : option CacheKey) (h : list CacheKey) :
    LCR_contains self key = false ->
    update_weight math_exp (set_base self (incr_accesses (LCR_base self))) key = Ok self1 ->
    select_policy_and_history self1 rnd = PolicyType.LFU ->
    LFU_access (lfu_policy self) key = Ok (p, m) ->
    record_eviction (budget (LCR_base self)) (history_lfu self) m = Ok h ->
    self' = set_arm_lfu self1 p h ->
    r = None ->
    LCR_access_case math_exp self rnd key self' r
| LCR_miss_lru (self1 : LCR) (p : LRU) (m : option CacheKey) (h : list CacheKey) :
    LCR_contains self key = false ->
    update_weight math_exp (set_base self (incr_accesses (LCR_base self))) key = Ok self1 ->
    select_policy_and_history self1 rnd = PolicyType.LRU ->
    LRU_access (lru_policy self) key = Ok (p, m) ->
    record_eviction (budget (LCR_base self)) (history_lru self) m = Ok h ->
    self' = set_arm_lru self1 p h ->
    r = None ->
    LCR_access_case math_exp self rnd key self' r.

(** The objects the constructors return for a positive budget. *)
Definition fresh_LFU (b : Z) : LFU :=
  {| LFU_base := {| budget := b; hits := 0; accesses := 0 |}; frequency_counter := [] |}.

Definition fresh_LRU (b : Z) : LRU :=
  {| LRU_base := {| budget := b; hits := 0; accesses := 0 |}; recency_list := [] |}.

Definition fresh_LCR (b : Z) : LCR :=
  {| LCR_base := {| budget := b; hits := 0; accesses := 0 |};
     history_lfu := []; history_lru := [];
     lfu_policy := fresh_LFU b; lru_policy := fresh_LRU b;
     w_lfu := 0.5%float; w_lru := 0.5%float |}.

(** What a history holds once the eviction [maybe_evicted] is logged: the
    evicted key goes first and the [budget] most recent entries are kept; [None]
    and the empty string are not logged. *)
Definition logged (budget : Z) (history : list CacheKey) (maybe_evicted : option CacheKey)
    : list CacheKey :=
  match maybe_evicted with
  | Some k => if String.eqb k "" then history
              else firstn (Z.to_nat budget) (k :: history)
  | None => history
  end.

(** ** class LCRTest

    The tests that drive an LCR.  [draw i] is what [random.choice] would
    return to the [i]-th access of the LCR, were that access to ask:
    [false] the first element of its list, [true] the second.  A test returns
    normally or raises [AssertionError]. *)

(** [l * n] for a list. *)
Definition list_mul {A : Type} (l : list A) (n : nat) : list A :=
  List.concat (repeat l n).

(** The keys of a trace, each with the draw of its access. *)
Definition with_draws (draw : nat -> bool) (test_vector : list CacheKey)
    : list (CacheKey * bool) :=
  combine test_vector (map draw (seq 0 (List.length test_vector))).

(** [assertGreater(a, b)] and [assertGreaterEqual(a, b)] on floats. *)
Definition assertGreater (a b : float) : result unit :=
  if PrimFloat.ltb b a then Ok tt else Raise AssertionError.


(** [for val in test_vector: lru.access(val); lcr.access(val)] *)
Fixpoint run_lru_lcr (math_exp : float -> float) (lru : LRU) (lcr : LCR)
    (trace : list (CacheKey * bool)) : result (LRU * LCR) :=
  match trace with
  | [] => Ok (lru, lcr)
  | (val, rnd) :: rest =>
      '(lru', _) <- LRU_access lru val ;;
      '(lcr', _) <- LCR_access math_exp lcr rnd val ;;
      run_lru_lcr math_exp lru' lcr' rest
  end.



(** [LCRTest.test_lcr_on_worst_case_lru] *)
Definition test_lcr_on_worst_case_lru (math_exp : float -> float) (draw : nat -> bool)
    : result unit :=
  lru <- LRU_init 3 ;;
  lcr <- LCR_init 3 ;;
  let test_vector := list_mul ["a"] 10 ++ ["b"; "c"; "d"] ++ list_mul ["a"] 3 ++ ["b"; "c"; "d"] in
  '(lru, lcr) <- run_lru_lcr math_exp lru lcr (with_draws draw test_vector) ;;
  a <- LCR_hitrate lcr ;; b <- LRU_hitrate lru ;;
  assertGreater a b.


(** Whether the access of [key] would ask [random.choice]: it is a miss, and
    the updated weights are not ordered. *)
Definition draw_matters (math_exp : float -> float) (self : LCR) (key : CacheKey) : bool :=
  negb (LCR_contains self key) &&
  match update_weight math_exp (set_base self (incr_accesses (LCR_base self))) key with
  | Ok self1 =>
      negb (PrimFloat.ltb (w_lfu self1) (w_lru self1))
      && negb (PrimFloat.ltb (w_lru self1) (w_lfu self1))
  | Raise _ => false
  end.

(** The states an LCR can end in after a trace of keys, over all draws: the
    run forks where [random.choice] is asked. *)
Fixpoint LCR_outcomes (math_exp : float -> float) (self : LCR) (keys : list CacheKey)
    : list (result LCR) :=
  match keys with
  | [] => [Ok self]
  | key :: rest =>
      let go (rnd : bool) :=
        match LCR_access math_exp self rnd key with
        | Ok (self', _) => LCR_outcomes math_exp self' rest
        | Raise e => [Raise e]
        end in
      if draw_matters math_exp self key then go false ++ go true else go false
  end.

(** * Binary64 arithmetic

    What the weight update needs of IEEE-754 double arithmetic, proved from
    the kernel's specification of the primitive floats ([Prim2SF] and the
    [SpecFloat] operations): rounding to nearest never crosses a
    representable value. *)

Module Binary64_facts.

Import Binary64.

Lemma fexp_fexp64 (e : Z) : fexp prec emax e = fexp64 e.
Proof. unfold fexp, fexp64, SpecFloat.emin, prec, emax. lia. Qed.

(** ** Digits of a mantissa *)


Lemma dg_0 : dg 0 = 0.
Proof. reflexivity. Qed.

Lemma digits2_pos_size (p : positive) : digits2_pos p = Pos.size p.
Proof. induction p; simpl; congruence. Qed.

Lemma dg_pos_bounds (m : Z) :
  0 < m -> 0 < dg m /\ 2 ^ (dg m - 1) <= m < 2 ^ dg m.
Proof.
  destruct m as [|p|p]; try lia. intros _. unfold dg, Zdigits2.
  rewrite digits2_pos_size. split; [lia|].
  pose proof (Pos.size_gt p) as Hgt. pose proof (Pos.size_le p) as Hle.
  assert (H2 : (2 ^ Pos.size p)%positive = Z.to_pos (2 ^ Z.pos (Pos.size p))).
  { rewrite <- Pos2Z.inj_pow. reflexivity. }
  assert (Hp : Z.pos (2 ^ Pos.size p) = 2 ^ Z.pos (Pos.size p)).
  { rewrite Pos2Z.inj_pow. reflexivity. }
  split.
  - assert (2 * 2 ^ (Z.pos (Pos.size p) - 1) = 2 ^ Z.pos (Pos.size p)).
    { rewrite <- Z.pow_succ_r by lia. f_equal. lia. }
    assert (Z.pos (2 ^ Pos.size p) <= Z.pos p~0) by (apply Pos2Z.pos_le_pos; exact Hle).
    lia.
  - rewrite <- Hp. apply Pos2Z.pos_lt_pos. exact Hgt.
Qed.

Lemma dg_nonneg (m : Z) : 0 <= m -> 0 <= dg m.
Proof.
  intros H. destruct (Z.eq_dec m 0) as [->|]; [rewrite dg_0; lia|].
  destruct (dg_pos_bounds m); lia.
Qed.

Lemma dg_unique (m k : Z) : 2 ^ (k - 1) <= m < 2 ^ k -> 0 < m -> dg m = k.
Proof.
  intros [Hlo Hhi] Hm.
  destruct (dg_pos_bounds m Hm) as (Hd & Hlo' & Hhi').
  assert (Hk : 0 < k).
  { destruct (Z_lt_le_dec 0 k); [assumption|].
    destruct (Z.eq_dec k 0) as [->|]; [simpl in Hhi; lia|].
    rewrite Z.pow_neg_r in Hhi by lia. lia. }
  destruct (Z_lt_le_dec (dg m) k) as [H|H].
  - assert (2 ^ dg m <= 2 ^ (k - 1)) by (apply Z.pow_le_mono_r; lia). lia.
  - destruct (Z_lt_le_dec k (dg m)) as [H'|H']; [|lia].
    assert (2 ^ k <= 2 ^ (dg m - 1)) by (apply Z.pow_le_mono_r; lia). lia.
Qed.

Lemma dg_le_mono (a b : Z) : 0 <= a <= b -> dg a <= dg b.
Proof.
  intros [Ha Hab].
  destruct (Z.eq_dec a 0) as [->|Hne]; [rewrite dg_0; apply dg_nonneg; lia|].
  destruct (dg_pos_bounds a) as (Hda & Hloa & Hhia); [lia|].
  destruct (dg_pos_bounds b) as (Hdb & Hlob & Hhib); [lia|].
  destruct (Z_lt_le_dec (dg b) (dg a)) as [H|H]; [|lia].
  assert (2 ^ dg b <= 2 ^ (dg a - 1)) by (apply Z.pow_le_mono_r; lia). lia.
Qed.

Lemma dg_lt_pow (m k : Z) : 0 <= m -> 0 <= k -> m < 2 ^ k -> dg m <= k.
Proof.
  intros Hm Hk Hlt.
  destruct (Z.eq_dec m 0) as [->|Hne]; [rewrite dg_0; lia|].
  destruct (dg_pos_bounds m) as (Hd & Hlo & Hhi); [lia|].
  destruct (Z_lt_le_dec k (dg m)) as [H|H]; [|lia].
  assert (2 ^ k <= 2 ^ (dg m - 1)) by (apply Z.pow_le_mono_r; lia). lia.
Qed.

Lemma dg_ge_pow (m k : Z) : 0 <= k -> 2 ^ k <= m -> k + 1 <= dg m.
Proof.
  intros Hk Hle.
  assert (0 < 2 ^ k) by (apply Z.pow_pos_nonneg; lia).
  destruct (dg_pos_bounds m) as (Hd & Hlo & Hhi); [lia|].
  destruct (Z_lt_le_dec (dg m) (k + 1)) as [H'|H']; [|lia].
  assert (2 ^ dg m <= 2 ^ k) by (apply Z.pow_le_mono_r; lia). lia.
Qed.

(** ** Shifting a mantissa right *)

Lemma iter_pos_comm {A} (f : A -> A) (p : positive) : forall x, iter_pos f p (f x) = f (iter_pos f p x).
Proof.
  induction p; intros x; simpl.
  - rewrite !IHp. reflexivity.
  - rewrite !IHp. reflexivity.
  - reflexivity.
Qed.

Lemma iter_pos_succ {A} (f : A -> A) (p : positive) (x : A) :
  iter_pos f (Pos.succ p) x = f (iter_pos f p x).
Proof.
  revert x. induction p; intros x; simpl.
  - rewrite !IHp. rewrite !iter_pos_comm. reflexivity.
  - rewrite !iter_pos_comm. reflexivity.
  - reflexivity.
Qed.

Lemma shr_1_m (mrs : shr_record) : 0 <= shr_m mrs -> shr_m (shr_1 mrs) = shr_m mrs / 2.
Proof.
  destruct mrs as [m r s]. cbn [shr_m]. intros Hm.
  destruct m as [|[p|p|]|p]; cbn [shr_1 shr_m]; try lia; try reflexivity.
  - rewrite Pos2Z.inj_xI. apply Z.div_unique with (r := 1); lia.
  - rewrite Pos2Z.inj_xO. apply Z.div_unique with (r := 0); lia.
Qed.

Lemma shr_1_exact (mrs : shr_record) :
  0 <= shr_m mrs -> rec_exact mrs -> shr_m mrs mod 2 = 0 -> rec_exact (shr_1 mrs).
Proof.
  destruct mrs as [m r s]. unfold rec_exact. cbn [shr_m shr_r shr_s].
  intros Hm [-> ->] Hev.
  destruct m as [|[p|p|]|p]; cbn [shr_1 shr_m shr_r shr_s orb]; auto; try lia.
  - rewrite Pos2Z.inj_xI in Hev. rewrite Z.add_comm, Z.mul_comm, Z.mod_add in Hev by lia.
    discriminate.
  - discriminate.
Qed.

Lemma iter_shr_1_m (p : positive) (mrs : shr_record) :
  0 <= shr_m mrs ->
  shr_m (iter_pos shr_1 p mrs) = shr_m mrs / 2 ^ Z.pos p.
Proof.
  intros Hm. induction p using Pos.peano_ind.
  - simpl. rewrite shr_1_m by assumption. reflexivity.
  - rewrite iter_pos_succ, shr_1_m.
    + rewrite IHp. rewrite Pos2Z.inj_succ, Z.pow_succ_r by lia.
      rewrite Z.div_div by (try apply Z.pow_pos_nonneg; lia). f_equal. lia.
    + rewrite IHp. apply Z.div_pos; [assumption | apply Z.pow_pos_nonneg; lia].
Qed.

Lemma iter_shr_1_exact (p : positive) (mrs : shr_record) :
  0 <= shr_m mrs -> rec_exact mrs -> shr_m mrs mod 2 ^ Z.pos p = 0 ->
  rec_exact (iter_pos shr_1 p mrs).
Proof.
  intros Hm Hex. induction p using Pos.peano_ind; intros Hdiv.
  - simpl. apply shr_1_exact; auto.
  - rewrite iter_pos_succ.
    rewrite Pos2Z.inj_succ, Z.pow_succ_r in Hdiv by lia.
    assert (Hpow : 0 < 2 ^ Z.pos p) by (apply Z.pow_pos_nonneg; lia).
    apply Z.mod_divide in Hdiv; [|lia]. destruct Hdiv as [k Hk].
    apply shr_1_exact.
    + rewrite iter_shr_1_m by assumption. apply Z.div_pos; lia.
    + apply IHp. rewrite Hk. replace (k * (2 * 2 ^ Z.pos p)) with ((k * 2) * 2 ^ Z.pos p) by ring.
      apply Z.mod_mul. lia.
    + rewrite iter_shr_1_m by assumption. rewrite Hk.
      replace (k * (2 * 2 ^ Z.pos p)) with ((k * 2) * 2 ^ Z.pos p) by ring.
      rewrite Z.div_mul by lia. apply Z.mod_mul. lia.
Qed.

(** ** The steps of [binary_round_aux] *)


Lemma shr_record_of_loc_m (m : Z) (l : location) : shr_m (shr_record_of_loc m l) = m.
Proof. destruct l as [|[]]; reflexivity. Qed.

Lemma shr_fexp_struct (m e : Z) (l : location) :
  0 <= m ->
  exists mrs,
    shr_fexp prec emax m e l = (mrs, Z.max e (fexp64 (dg m + e))) /\
    shr_m mrs = m / 2 ^ (Z.max e (fexp64 (dg m + e)) - e) /\
    (l = loc_Exact -> m mod 2 ^ (Z.max e (fexp64 (dg m + e)) - e) = 0 -> rec_exact mrs).
Proof.
  intros Hm. unfold shr_fexp, shr. rewrite fexp_fexp64. fold (dg m).
  destruct (fexp64 (dg m + e) - e) as [|p|p] eqn:En.
  - exists (shr_record_of_loc m l).
    replace (Z.max e (fexp64 (dg m + e))) with e by lia.
    rewrite Z.sub_diag, Z.pow_0_r, Z.div_1_r, shr_record_of_loc_m.
    split; [reflexivity|]. split; [reflexivity|]. intros -> _. split; reflexivity.
  - exists (iter_pos shr_1 p (shr_record_of_loc m l)).
    replace (Z.max e (fexp64 (dg m + e))) with (e + Z.pos p) by lia.
    replace (e + Z.pos p - e) with (Z.pos p) by lia.
    rewrite iter_shr_1_m by (rewrite shr_record_of_loc_m; exact Hm).
    rewrite shr_record_of_loc_m. split; [reflexivity|]. split; [reflexivity|].
    intros -> Hdiv. apply iter_shr_1_exact; simpl; auto. split; reflexivity.
  - exists (shr_record_of_loc m l).
    replace (Z.max e (fexp64 (dg m + e))) with e by lia.
    rewrite Z.sub_diag, Z.pow_0_r, Z.div_1_r, shr_record_of_loc_m.
    split; [reflexivity|]. split; [reflexivity|]. intros -> _. split; reflexivity.
Qed.

Lemma round_nearest_even_cases (mrs : shr_record) :
  let m := round_nearest_even (shr_m mrs) (loc_of_shr_record mrs) in
  (m = shr_m mrs \/ m = shr_m mrs + 1) /\ (rec_exact mrs -> m = shr_m mrs).
Proof.
  destruct mrs as [m [|] [|]]; unfold rec_exact; simpl; split; auto;
    try (intros [? ?]; discriminate);
    destruct (Z.even m); auto.
Qed.

Lemma bra_struct (sx : bool) (mx ex : Z) (lx : location) :
  0 <= mx ->
  exists m_r,
    (m_r = mx / 2 ^ (Z.max ex (fexp64 (dg mx + ex)) - ex) \/
     m_r = mx / 2 ^ (Z.max ex (fexp64 (dg mx + ex)) - ex) + 1) /\
    (lx = loc_Exact -> mx mod 2 ^ (Z.max ex (fexp64 (dg mx + ex)) - ex) = 0 ->
     m_r = mx / 2 ^ (Z.max ex (fexp64 (dg mx + ex)) - ex)) /\
    binary_round_aux prec emax sx mx ex lx =
      assemble sx
        (m_r / 2 ^ (Z.max (Z.max ex (fexp64 (dg mx + ex)))
                      (fexp64 (dg m_r + Z.max ex (fexp64 (dg mx + ex))))
                    - Z.max ex (fexp64 (dg mx + ex))))
        (Z.max (Z.max ex (fexp64 (dg mx + ex)))
           (fexp64 (dg m_r + Z.max ex (fexp64 (dg mx + ex))))).
Proof.
  intros Hm. unfold binary_round_aux.
  destruct (shr_fexp_struct mx ex lx Hm) as (mrs1 & -> & Hm1 & Hex1).
  set (e1 := Z.max ex (fexp64 (dg mx + ex))) in *.
  pose proof (round_nearest_even_cases mrs1) as [Hr Hre]. cbn zeta in Hr, Hre.
  set (m_r := round_nearest_even (shr_m mrs1) (loc_of_shr_record mrs1)) in *.
  assert (Hmr : 0 <= m_r).
  { assert (0 <= shr_m mrs1).
    { rewrite Hm1. apply Z.div_pos; [lia | apply Z.pow_pos_nonneg; lia]. }
    lia. }
  destruct (shr_fexp_struct m_r e1 loc_Exact Hmr) as (mrs2 & -> & Hm2 & _).
  exists m_r. rewrite <- Hm1. split; [exact Hr|]. split.
  - intros Hl Hd. apply Hre. apply Hex1; assumption.
  - rewrite Hm2. unfold assemble, emax, prec. reflexivity.
Qed.

(** ** Values *)


Lemma pow2_pos (k : Z) : 0 <= k -> 0 < 2 ^ k.
Proof. intros. apply Z.pow_pos_nonneg; lia. Qed.

Lemma pow2_split (a b : Z) : - OFS <= a -> a <= b -> 2 ^ (b + OFS) = 2 ^ (b - a) * 2 ^ (a + OFS).
Proof. intros Ha Hab. rewrite <- Z.pow_add_r by lia. f_equal. lia. Qed.

Lemma V_shift (m a b : Z) : - OFS <= a -> a <= b -> V m b = V (m * 2 ^ (b - a)) a.
Proof. intros Ha Hab. unfold V. rewrite (pow2_split a b) by assumption. ring. Qed.

Lemma V_le (m1 m2 e : Z) : - OFS <= e -> (V m1 e <= V m2 e <-> m1 <= m2).
Proof.
  intros He. unfold V. pose proof (pow2_pos (e + OFS)) as Hp.
  split; intros H; [|apply Z.mul_le_mono_nonneg_r; lia].
  apply Z.mul_le_mono_pos_r in H; lia.
Qed.

Lemma V_lt (m1 m2 e : Z) : - OFS <= e -> (V m1 e < V m2 e <-> m1 < m2).
Proof.
  intros He. unfold V. pose proof (pow2_pos (e + OFS)) as Hp.
  split; intros H; [|apply Z.mul_lt_mono_pos_r; lia].
  apply Z.mul_lt_mono_pos_r in H; lia.
Qed.

Lemma V_mono_e (m a b : Z) : 0 <= m -> - OFS <= a -> a <= b -> V m a <= V m b.
Proof.
  intros Hm Ha Hab. rewrite (V_shift m a b) by assumption. apply V_le; [assumption|].
  pose proof (pow2_pos (b - a)). nia.
Qed.

Section Trunc.
Variables m e : Z.
Hypothesis Hm : 0 <= m.
Hypothesis He : - OFS <= e.
Let e' := Z.max e (fexp64 (dg m + e)).
Let m' := m / 2 ^ (e' - e).

Lemma trunc_le : V m' e' <= V m e.
Proof.
  unfold m'. rewrite (V_shift _ e e') by (unfold e'; lia). apply V_le; [assumption|].
  pose proof (pow2_pos (e' - e)) as Hp.
  rewrite Z.mul_comm. apply Z.mul_div_le. apply Hp. unfold e'; lia.
Qed.

Lemma trunc_lt : V m e < V (m' + 1) e'.
Proof.
  unfold m'. rewrite (V_shift _ e e') by (unfold e'; lia). apply V_lt; [assumption|].
  pose proof (pow2_pos (e' - e)) as Hp.
  assert (0 < 2 ^ (e' - e)) by (apply Hp; unfold e'; lia).
  pose proof (Z.mul_succ_div_gt m (2 ^ (e' - e)) H). lia.
Qed.

Lemma trunc_exact : m mod 2 ^ (e' - e) = 0 -> V m' e' = V m e.
Proof.
  intros Hd. unfold m'. rewrite (V_shift _ e e') by (unfold e'; lia). f_equal.
  assert (0 < 2 ^ (e' - e)) by (apply pow2_pos; unfold e'; lia).
  pose proof (Z.div_mod m (2 ^ (e' - e))). lia.
Qed.

Lemma trunc_inexact : m mod 2 ^ (e' - e) <> 0 -> V m' e' < V m e.
Proof.
  intros Hd. unfold m'. rewrite (V_shift _ e e') by (unfold e'; lia). apply V_lt; [assumption|].
  assert (0 < 2 ^ (e' - e)) by (apply pow2_pos; unfold e'; lia).
  pose proof (Z.div_mod m (2 ^ (e' - e))).
  pose proof (Z.mod_pos_bound m (2 ^ (e' - e)) H). lia.
Qed.

(** When a shift to a normal exponent happened, the mantissa keeps 53 bits. *)
Lemma trunc_normal : e < e' -> -1074 < e' -> 2 ^ 52 <= m'.
Proof.
  intros Hsh Hn. unfold e', fexp64 in *.
  assert (He' : Z.max e (Z.max (dg m + e - 53) (-1074)) = dg m + e - 53) by lia.
  rewrite He' in *.
  assert (Hd : 53 < dg m) by lia.
  assert (Hmpos : 0 < m).
  { destruct (Z.eq_dec m 0) as [->|]; [rewrite dg_0 in Hd; lia | lia]. }
  destruct (dg_pos_bounds m Hmpos) as (_ & Hlo & _).
  unfold m'. fold e'. unfold e', fexp64. rewrite He'.
  replace (dg m + e - 53 - e) with (dg m - 53) by lia.
  apply Z.div_le_lower_bound; [apply pow2_pos; lia|].
  rewrite <- Z.pow_add_r by lia. replace (dg m - 53 + 52) with (dg m - 1) by lia. exact Hlo.
Qed.

Variables mv ev : Z.
Hypothesis Hmv : 0 <= mv <= 2 ^ 53.
Hypothesis Hev : -1074 <= ev.

Lemma small_grid_bound : ev < e' -> V mv ev <= V (2 ^ 52) e'.
Proof.
  intros Hlt. assert (He' : - OFS <= ev) by (unfold OFS; lia).
  apply Z.le_trans with (V (2 ^ 53) ev); [apply V_le; lia|].
  apply Z.le_trans with (V (2 ^ 53) (e' - 1)).
  - apply V_mono_e; try lia.
  - rewrite (V_shift (2 ^ 52) (e' - 1) e') by lia.
    replace (e' - (e' - 1)) with 1 by lia. apply V_le; [lia|]. lia.
Qed.

Lemma grid_lower : V mv ev <= V m e -> V mv ev <= V m' e'.
Proof.
  intros Hle. assert (Hee : e <= e') by (unfold e'; lia).
  destruct (Z_le_gt_dec e' ev) as [Hg|Hg].
  - rewrite (V_shift mv e' ev) by lia. apply V_le; [lia|].
    rewrite (V_shift mv e ev) in Hle by lia. apply V_le in Hle; [|lia].
    unfold m'. apply Z.div_le_lower_bound; [apply pow2_pos; lia|].
    replace (ev - e) with ((ev - e') + (e' - e)) in Hle by lia.
    rewrite Z.pow_add_r in Hle by lia. lia.
  - destruct (Z.eq_dec e e') as [Heq|Hne].
    + unfold m'. rewrite <- Heq, Z.sub_diag, Z.pow_0_r, Z.div_1_r. exact Hle.
    + apply Z.le_trans with (V (2 ^ 52) e'); [apply small_grid_bound; lia|].
      apply V_le; [lia|]. apply trunc_normal; lia.
Qed.

Lemma grid_upper : e <= fexp64 (dg m + e) -> V m' e' < V mv ev -> V (m' + 1) e' <= V mv ev.
Proof.
  intros HN Hlt. assert (Hee : e <= e') by (unfold e'; lia).
  destruct (Z_le_gt_dec e' ev) as [Hg|Hg].
  - rewrite (V_shift mv e' ev) in * by lia. apply V_lt in Hlt; [|lia]. apply V_le; lia.
  - exfalso. pose proof (small_grid_bound ltac:(lia)) as Hb.
    assert (H52 : 2 ^ 52 <= m').
    { destruct (Z.eq_dec e e') as [Heq|Hne]; [|apply trunc_normal; lia].
      (* no shift, but N says e = fexp64 (dg m + e) > -1074, so dg m = 53 *)
      unfold m'. rewrite <- Heq, Z.sub_diag, Z.pow_0_r, Z.div_1_r.
      assert (Hf : fexp64 (dg m + e) = e) by (unfold e' in Heq; lia).
      unfold fexp64 in Hf.
      assert (Hd : dg m = 53) by lia.
      assert (Hmpos : 0 < m).
      { destruct (Z.eq_dec m 0) as [->|]; [rewrite dg_0 in Hd; lia | lia]. }
      destruct (dg_pos_bounds m Hmpos) as (_ & Hlo & _). rewrite Hd in Hlo. exact Hlo. }
    assert (V (2 ^ 52) e' <= V m' e') by (apply V_le; lia). lia.
Qed.

End Trunc.

Lemma V_nonneg (m e : Z) : 0 <= m -> 0 <= V m e.
Proof. intros. unfold V. apply Z.mul_nonneg_nonneg; [lia | apply Z.pow_nonneg; lia]. Qed.

Lemma V_pos_inv (m e : Z) : - OFS <= e -> 0 <= m -> V m e <= 0 -> m = 0.
Proof.
  intros He Hm H. pose proof (pow2_pos (e + OFS)). unfold V in H. nia.
Qed.

(** Rounding to nearest never goes below a representable value that the
    exact result is above. *)
Lemma bra_lower (mx ex : Z) (lx : location) (mv ev : Z) :
  0 <= mx -> - OFS <= ex -> 0 <= mv <= 2 ^ 53 -> -1074 <= ev ->
  V mv ev <= V mx ex ->
  lower_ok (binary_round_aux prec emax false mx ex lx) mv ev.
Proof.
  intros Hmx Hex Hmv Hev Hle.
  destruct (bra_struct false mx ex lx Hmx) as (m_r & Hr & _ & ->).
  set (e1 := Z.max ex (fexp64 (dg mx + ex))) in *.
  set (m1 := mx / 2 ^ (e1 - ex)) in *.
  assert (Hm1 : 0 <= m1) by (apply Z.div_pos; [lia | apply pow2_pos; unfold e1; lia]).
  assert (Hmr : 0 <= m_r) by lia.
  assert (He1 : - OFS <= e1) by (unfold e1; lia).
  pose proof (grid_lower mx ex Hmx Hex mv ev Hmv Hev Hle) as H1. fold e1 m1 in H1.
  assert (H1' : V mv ev <= V m_r e1).
  { apply Z.le_trans with (V m1 e1); [exact H1|]. apply V_le; lia. }
  pose proof (grid_lower m_r e1 Hmr He1 mv ev Hmv Hev H1') as H2.
  set (e2 := Z.max e1 (fexp64 (dg m_r + e1))) in *.
  set (m2 := m_r / 2 ^ (e2 - e1)) in *.
  assert (Hm2 : 0 <= m2) by (apply Z.div_pos; [lia | apply pow2_pos; unfold e2; lia]).
  unfold assemble. destruct m2 as [|p|p] eqn:E; [| |lia].
  - simpl. apply (V_pos_inv mv ev); try lia. unfold OFS; lia.
    fold (V 0 e2) in H2. unfold V in H2 at 2. simpl in H2. exact H2.
  - destruct (e2 <=? 971); simpl; auto.
Qed.

(** Nor above a representable value that the exact result is below; the
    input mantissa must be wide enough for its exponent, as the operations
    arrange. *)
Lemma bra_upper (mx ex : Z) (lx : location) (mv ev : Z) :
  0 <= mx -> - OFS <= ex -> ex <= fexp64 (dg mx + ex) ->
  0 <= mv <= 2 ^ 53 -> -1074 <= ev -> V mv ev < V 1 1024 ->
  (lx = loc_Exact -> V mx ex <= V mv ev) ->
  (lx <> loc_Exact -> V (mx + 1) ex <= V mv ev) ->
  upper_ok (binary_round_aux prec emax false mx ex lx) mv ev.
Proof.
  intros Hmx Hex HN Hmv Hev Hfin Hexact Hinexact.
  destruct (bra_struct false mx ex lx Hmx) as (m_r & Hr & Hre & ->).
  set (e1 := Z.max ex (fexp64 (dg mx + ex))) in *.
  set (m1 := mx / 2 ^ (e1 - ex)) in *.
  assert (Hm1 : 0 <= m1) by (apply Z.div_pos; [lia | apply pow2_pos; unfold e1; lia]).
  assert (Hmr : 0 <= m_r) by lia.
  assert (He1 : - OFS <= e1) by (unfold e1; lia).
  assert (He1' : e1 = fexp64 (dg mx + ex)) by (unfold e1; lia).
  (* the rounded mantissa is below the bound *)
  assert (Hup : V m_r e1 <= V mv ev).
  { destruct (Z.eq_dec (mx mod 2 ^ (e1 - ex)) 0) as [Hd|Hd].
    - destruct lx as [|c] eqn:El.
      + rewrite (Hre eq_refl Hd). fold m1.
        unfold m1, e1. rewrite trunc_exact by assumption. apply Hexact. reflexivity.
      + assert (Hlt : V m1 e1 < V mv ev).
        { apply Z.le_lt_trans with (V mx ex); [apply trunc_le; assumption|].
          apply Z.lt_le_trans with (V (mx + 1) ex); [apply V_lt; lia|].
          apply Hinexact. discriminate. }
        apply Z.le_trans with (V (m1 + 1) e1); [apply V_le; lia|].
        apply grid_upper; assumption.
    - assert (Hlt : V m1 e1 < V mv ev).
      { apply Z.lt_le_trans with (V mx ex); [apply trunc_inexact; assumption|].
        destruct lx as [|c].
        - apply Hexact. reflexivity.
        - apply Z.le_trans with (V (mx + 1) ex); [apply V_le; lia|].
          apply Hinexact. discriminate. }
      apply Z.le_trans with (V (m1 + 1) e1); [apply V_le; lia|].
      apply grid_upper; assumption. }
  pose proof (trunc_le m_r e1 He1) as H2.
  set (e2 := Z.max e1 (fexp64 (dg m_r + e1))) in *.
  set (m2 := m_r / 2 ^ (e2 - e1)) in *.
  assert (Hm2 : 0 <= m2) by (apply Z.div_pos; [lia | apply pow2_pos; unfold e2; lia]).
  assert (Hup2 : V m2 e2 <= V mv ev) by lia.
  unfold assemble. destruct m2 as [|p|p] eqn:E; [exact I| |lia].
  destruct (Z.leb_spec e2 971) as [Hle|Hgt]; [exact Hup2|].
  (* overflow is impossible: the result mantissa has 53 bits *)
  exfalso.
  assert (H52 : 2 ^ 52 <= m2).
  { destruct (Z.eq_dec e1 e2) as [Heq|Hne].
    - unfold m2. rewrite <- Heq, Z.sub_diag, Z.pow_0_r, Z.div_1_r.
      destruct (Z.eq_dec ex e1) as [Heq'|Hne'].
      + assert (Hd : dg mx = 53) by (unfold fexp64 in He1'; lia).
        assert (Hmpos : 0 < mx).
        { destruct (Z.eq_dec mx 0) as [->|]; [rewrite dg_0 in Hd; lia | lia]. }
        destruct (dg_pos_bounds mx Hmpos) as (_ & Hlo & _). rewrite Hd in Hlo.
        assert (m1 = mx).
        { unfold m1. rewrite <- Heq', Z.sub_diag, Z.pow_0_r, Z.div_1_r. reflexivity. }
        lia.
      + assert (2 ^ 52 <= m1) by (apply trunc_normal; fold e1; lia). lia.
    - unfold m2. apply trunc_normal; fold e2; lia. }
  assert (V (2 ^ 52) e2 <= V m2 e2) by (apply V_le; lia).
  assert (V 1 1024 <= V (2 ^ 52) e2).
  { rewrite (V_shift 1 972 1024) by (unfold OFS; lia).
    apply Z.le_trans with (V (2 ^ 52) 972); [apply V_le; [unfold OFS|]; lia|].
    apply V_mono_e; try lia. unfold OFS; lia. }
  rewrite E in *. lia.
Qed.

(** ** Canonical representations *)

Lemma valid_finite (s : bool) (m : positive) (e : Z) :
  valid_binary (S754_finite s m e) = true ->
  e = fexp64 (dg (Z.pos m) + e) /\ e <= 971.
Proof.
  unfold SpecFloat.valid_binary, bounded, canonical_mantissa. rewrite fexp_fexp64.
  intros H. apply andb_true_iff in H. destruct H as [H1 H2].
  apply Z.eqb_eq in H1. apply Z.leb_le in H2. unfold emax, prec in H2.
  unfold dg, Zdigits2. split; [symmetry; exact H1 | lia].
Qed.

Lemma canonical_bounds (m : positive) (e : Z) :
  e = fexp64 (dg (Z.pos m) + e) ->
  -1074 <= e /\ Z.pos m < 2 ^ 53 /\ (-1074 < e -> 2 ^ 52 <= Z.pos m).
Proof.
  intros Hc. destruct (dg_pos_bounds (Z.pos m)) as (Hd & Hlo & Hhi); [lia|].
  unfold fexp64 in Hc.
  assert (Hd53 : dg (Z.pos m) <= 53) by lia.
  split; [lia|]. split.
  - apply Z.lt_le_trans with (2 ^ dg (Z.pos m)); [exact Hhi|].
    apply Z.pow_le_mono_r; lia.
  - intros Hn. assert (dg (Z.pos m) = 53) by lia.
    replace 52 with (dg (Z.pos m) - 1) by lia. exact Hlo.
Qed.

Lemma V_pos_pos (m : positive) (e : Z) : - OFS <= e -> 0 < V (Z.pos m) e.
Proof. intros He. unfold V. pose proof (pow2_pos (e + OFS)). nia. Qed.

(** Comparison of canonical positive doubles is comparison of values. *)
Lemma canonical_exp_lt (m1 m2 : positive) (e1 e2 : Z) :
  e1 = fexp64 (dg (Z.pos m1) + e1) -> e2 = fexp64 (dg (Z.pos m2) + e2) ->
  e1 < e2 -> V (Z.pos m1) e1 < V (Z.pos m2) e2.
Proof.
  intros H1 H2 Hlt.
  destruct (canonical_bounds m1 e1 H1) as (Hb1 & Hm1 & _).
  destruct (canonical_bounds m2 e2 H2) as (Hb2 & _ & Hm2).
  assert (He1 : - OFS <= e1) by (unfold OFS; lia).
  apply Z.lt_le_trans with (V (2 ^ 53) e1); [apply V_lt; lia|].
  apply Z.le_trans with (V (2 ^ 53) (e2 - 1)); [apply V_mono_e; lia|].
  rewrite (V_shift (Z.pos m2) (e2 - 1) e2) by lia.
  replace (e2 - (e2 - 1)) with 1 by lia. apply V_le; [lia|].
  specialize (Hm2 ltac:(lia)). lia.
Qed.

Lemma SFcompare_finite_pos (m1 m2 : positive) (e1 e2 : Z) :
  e1 = fexp64 (dg (Z.pos m1) + e1) -> e2 = fexp64 (dg (Z.pos m2) + e2) ->
  SFcompare (S754_finite false m1 e1) (S754_finite false m2 e2)
  = Some (V (Z.pos m1) e1 ?= V (Z.pos m2) e2).
Proof.
  intros H1 H2. cbn [SFcompare]. f_equal.
  destruct (Z.compare_spec e1 e2) as [Heq|Hlt|Hgt].
  - subst e2. rewrite Pos.compare_cont_spec. cbn [Pos.switch_Eq].
    assert (He : - OFS <= e1) by (destruct (canonical_bounds m1 e1 H1); unfold OFS; lia).
    change (Pos.compare m1 m2) with (Z.compare (Z.pos m1) (Z.pos m2)).
    destruct (Z.compare_spec (Z.pos m1) (Z.pos m2)) as [E|E|E]; symmetry.
    + rewrite E. apply Z.compare_refl.
    + apply Z.compare_lt_iff. apply V_lt; assumption.
    + apply Z.compare_gt_iff. apply V_lt; assumption.
  - symmetry. apply Z.compare_lt_iff. apply canonical_exp_lt; assumption.
  - symmetry. apply Z.compare_gt_iff. apply canonical_exp_lt; assumption.
Qed.

(** ** Alignment and [binary_round] *)

Lemma pos_iter_xO (d m : positive) : Z.pos (Pos.iter xO m d) = Z.pos m * 2 ^ Z.pos d.
Proof.
  induction d using Pos.peano_ind.
  - simpl. lia.
  - rewrite Pos.iter_succ. rewrite Pos2Z.inj_xO, IHd.
    rewrite Pos2Z.inj_succ, Z.pow_succ_r by lia. ring.
Qed.

Lemma shl_align_spec (mx : positive) (ex ex' : Z) :
  let r := shl_align mx ex ex' in
  snd r = Z.min ex ex' /\ Z.pos (fst r) = Z.pos mx * 2 ^ (ex - Z.min ex ex').
Proof.
  unfold shl_align. destruct (ex' - ex) as [|d|d] eqn:E; cbn zeta; cbn [fst snd].
  - replace (Z.min ex ex') with ex by lia. rewrite Z.sub_diag. simpl. lia.
  - replace (Z.min ex ex') with ex by lia. rewrite Z.sub_diag. simpl. lia.
  - replace (Z.min ex ex') with ex' by lia. split; [reflexivity|].
    rewrite pos_iter_xO. f_equal. f_equal. lia.
Qed.

(** [binary_round] of a positive integer mantissa. *)
Lemma binary_round_norm (m : positive) (e : Z) :
  - OFS <= e - 0 -> -1074 - OFS <= 0 ->
  exists mz ez,
    binary_round prec emax false m e = binary_round_aux prec emax false (Z.pos mz) ez loc_Exact /\
    V (Z.pos mz) ez = V (Z.pos m) e /\ - OFS <= ez /\ ez <= fexp64 (dg (Z.pos mz) + ez).
Proof.
  intros He _. unfold binary_round. rewrite fexp_fexp64.
  change (Z.pos (digits2_pos m)) with (dg (Z.pos m)).
  pose proof (shl_align_spec m e (fexp64 (dg (Z.pos m) + e))) as [Hs Hf]. cbn zeta in Hs, Hf.
  destruct (shl_align m e (fexp64 (dg (Z.pos m) + e))) as [mz ez]. cbn [fst snd] in Hs, Hf.
  exists mz, ez. split; [reflexivity|].
  assert (Hez : - OFS <= ez) by (rewrite Hs; unfold fexp64, OFS in *; lia).
  split; [|split; [exact Hez|]].
  - rewrite Hf. symmetry. rewrite Hs. apply V_shift; [rewrite <- Hs; exact Hez | lia].
  - (* digits of the shifted mantissa *)
    assert (Hd : dg (Z.pos mz) = dg (Z.pos m) + (e - ez)).
    { destruct (dg_pos_bounds (Z.pos m)) as (Hd0 & Hlo & Hhi); [lia|].
      apply dg_unique; [|lia]. rewrite Hf, <- Hs.
      assert (Hk : 0 <= e - ez) by lia.
      pose proof (pow2_pos (e - ez) Hk).
      replace (dg (Z.pos m) + (e - ez) - 1) with ((dg (Z.pos m) - 1) + (e - ez)) by lia.
      rewrite !Z.pow_add_r by lia. nia. }
    rewrite Hd. replace (dg (Z.pos m) + (e - ez) + ez) with (dg (Z.pos m) + e) by lia.
    lia.
Qed.

Lemma binary_round_lower (m : positive) (e mv ev : Z) :
  - OFS <= e -> 0 <= mv <= 2 ^ 53 -> -1074 <= ev ->
  V mv ev <= V (Z.pos m) e ->
  lower_ok (binary_round prec emax false m e) mv ev.
Proof.
  intros He Hmv Hev Hle.
  destruct (binary_round_norm m e) as (mz & ez & -> & HV & Hez & HN); [lia | unfold OFS; lia|].
  apply bra_lower; try assumption; try lia.
Qed.

Lemma binary_round_upper (m : positive) (e mv ev : Z) :
  - OFS <= e -> 0 <= mv <= 2 ^ 53 -> -1074 <= ev -> V mv ev < V 1 1024 ->
  V (Z.pos m) e <= V mv ev ->
  upper_ok (binary_round prec emax false m e) mv ev.
Proof.
  intros He Hmv Hev Hfin Hle.
  destruct (binary_round_norm m e) as (mz & ez & -> & HV & Hez & HN); [lia | unfold OFS; lia|].
  apply bra_upper; try assumption; try lia.
  intros Hne. exfalso. apply Hne. reflexivity.
Qed.

(** ** The four operations on non-negative doubles *)


Lemma good_finite (m : positive) (e : Z) :
  good (S754_finite false m e) ->
  e = fexp64 (dg (Z.pos m) + e) /\ -1074 <= e <= 971 /\ Z.pos m < 2 ^ 53 /\
  (-1074 < e -> 2 ^ 52 <= Z.pos m).
Proof.
  intros [Hv _]. destruct (valid_finite _ _ _ Hv) as [Hc Hle].
  destruct (canonical_bounds m e Hc) as (H1 & H2 & H3). repeat split; auto; lia.
Qed.

Lemma val_nonneg (x : spec_float) : good x -> 0 <= val x.
Proof.
  intros Hg. destruct x as [s|s| |[|] m e]; cbn [val]; try lia.
  apply V_nonneg. lia.
Qed.

Lemma lower_ok_val (x : spec_float) (mv ev : Z) :
  good x -> 0 <= mv -> - OFS <= ev -> V mv ev <= val x -> lower_ok x mv ev.
Proof.
  intros [_ Hn] Hmv Hev Hle.
  destruct x as [[|]|[|]| |[|] m e]; cbn [nnf val lower_ok] in *; try contradiction.
  - apply (V_pos_inv mv ev); assumption.
  - exact Hle.
Qed.

Lemma upper_ok_val (x : spec_float) (mv ev : Z) :
  good x -> 0 <= mv -> val x <= V mv ev -> upper_ok x mv ev.
Proof.
  intros [_ Hn] Hmv Hle.
  destruct x as [[|]|[|]| |[|] m e]; cbn [nnf val upper_ok] in *; try contradiction; auto.
Qed.

(** Addition. *)
Lemma SFadd_finite (mx my : positive) (ex ey : Z) :
  exists M,
    SFadd prec emax (S754_finite false mx ex) (S754_finite false my ey)
    = binary_round prec emax false M (Z.min ex ey) /\
    (- OFS <= Z.min ex ey ->
     V (Z.pos M) (Z.min ex ey) = V (Z.pos mx) ex + V (Z.pos my) ey).
Proof.
  cbn [SFadd cond_Zopp].
  pose proof (shl_align_spec mx ex (Z.min ex ey)) as [_ Hx].
  pose proof (shl_align_spec my ey (Z.min ex ey)) as [_ Hy]. cbn zeta in Hx, Hy.
  replace (Z.min ex (Z.min ex ey)) with (Z.min ex ey) in Hx by lia.
  replace (Z.min ey (Z.min ex ey)) with (Z.min ex ey) in Hy by lia.
  set (Mx := fst (shl_align mx ex (Z.min ex ey))) in *.
  set (My := fst (shl_align my ey (Z.min ex ey))) in *.
  exists (Mx + My)%positive. split; [reflexivity|].
  intros He. rewrite Pos2Z.inj_add, Hx, Hy.
  rewrite (V_shift (Z.pos mx) (Z.min ex ey) ex) by lia.
  rewrite (V_shift (Z.pos my) (Z.min ex ey) ey) by lia.
  unfold V. ring.
Qed.

Lemma SFadd_lower (x y : spec_float) (mv ev : Z) :
  good x -> good y -> 0 <= mv <= 2 ^ 53 -> -1074 <= ev ->
  V mv ev <= val x + val y ->
  lower_ok (SFadd prec emax x y) mv ev.
Proof.
  intros Hx Hy Hmv Hev Hle.
  assert (Hev' : - OFS <= ev) by (unfold OFS; lia).
  destruct x as [[|]|[|]| |[|] mx ex]; try (exfalso; exact (proj2 Hx));
    destruct y as [[|]|[|]| |[|] my ey]; try (exfalso; exact (proj2 Hy)).
  - cbn [val SFadd lower_ok] in *. apply (V_pos_inv mv ev); lia.
  - apply lower_ok_val; cbn [val SFadd] in *; try assumption; lia.
  - apply lower_ok_val; cbn [val SFadd] in *; try assumption; lia.
  - destruct (good_finite _ _ Hx) as (_ & Hex & _). destruct (good_finite _ _ Hy) as (_ & Hey & _).
    destruct (SFadd_finite mx my ex ey) as (M & -> & HV).
    apply binary_round_lower; try assumption; [unfold OFS; lia|].
    rewrite HV by (unfold OFS; lia). exact Hle.
Qed.

Lemma SFadd_upper (x y : spec_float) (mv ev : Z) :
  good x -> good y -> 0 <= mv <= 2 ^ 53 -> -1074 <= ev -> V mv ev < V 1 1024 ->
  val x + val y <= V mv ev ->
  upper_ok (SFadd prec emax x y) mv ev.
Proof.
  intros Hx Hy Hmv Hev Hfin Hle.
  destruct x as [[|]|[|]| |[|] mx ex]; try (exfalso; exact (proj2 Hx));
    destruct y as [[|]|[|]| |[|] my ey]; try (exfalso; exact (proj2 Hy)).
  - exact I.
  - apply upper_ok_val; cbn [val SFadd] in *; try assumption; lia.
  - apply upper_ok_val; cbn [val SFadd] in *; try assumption; lia.
  - destruct (good_finite _ _ Hx) as (_ & Hex & _). destruct (good_finite _ _ Hy) as (_ & Hey & _).
    destruct (SFadd_finite mx my ex ey) as (M & -> & HV).
    apply binary_round_upper; try assumption; [unfold OFS; lia|].
    rewrite HV by (unfold OFS; lia). exact Hle.
Qed.

(** Subtraction of a smaller value. *)
Lemma SFsub_finite (mx my : positive) (ex ey : Z) :
  exists D,
    SFsub prec emax (S754_finite false mx ex) (S754_finite false my ey)
    = binary_normalize prec emax D (Z.min ex ey) false /\
    (- OFS <= Z.min ex ey ->
     V D (Z.min ex ey) = V (Z.pos mx) ex - V (Z.pos my) ey).
Proof.
  cbn [SFsub cond_Zopp].
  pose proof (shl_align_spec mx ex (Z.min ex ey)) as [_ Hx].
  pose proof (shl_align_spec my ey (Z.min ex ey)) as [_ Hy]. cbn zeta in Hx, Hy.
  replace (Z.min ex (Z.min ex ey)) with (Z.min ex ey) in Hx by lia.
  replace (Z.min ey (Z.min ex ey)) with (Z.min ex ey) in Hy by lia.
  set (Mx := fst (shl_align mx ex (Z.min ex ey))) in *.
  set (My := fst (shl_align my ey (Z.min ex ey))) in *.
  exists (Z.pos Mx - Z.pos My). split; [reflexivity|].
  intros He. rewrite Hx, Hy.
  rewrite (V_shift (Z.pos mx) (Z.min ex ey) ex) by lia.
  rewrite (V_shift (Z.pos my) (Z.min ex ey) ey) by lia.
  unfold V. ring.
Qed.

Lemma V_sign (m e : Z) : - OFS <= e -> (0 <= V m e <-> 0 <= m).
Proof.
  intros He. pose proof (pow2_pos (e + OFS)). unfold V. split; intros; nia.
Qed.

Lemma SFsub_lower (x y : spec_float) (mv ev : Z) :
  good x -> good y -> val y <= val x -> 0 <= mv <= 2 ^ 53 -> -1074 <= ev ->
  V mv ev <= val x - val y ->
  lower_ok (SFsub prec emax x y) mv ev.
Proof.
  intros Hx Hy Hyx Hmv Hev Hle.
  assert (Hev' : - OFS <= ev) by (unfold OFS; lia).
  destruct x as [[|]|[|]| |[|] mx ex]; try (exfalso; exact (proj2 Hx));
    destruct y as [[|]|[|]| |[|] my ey]; try (exfalso; exact (proj2 Hy)).
  - cbn [val SFsub lower_ok] in *. apply (V_pos_inv mv ev); lia.
  - exfalso. destruct (good_finite _ _ Hy) as (_ & Hey & _).
    cbn [val] in Hyx. pose proof (V_pos_pos my ey). unfold OFS in *. lia.
  - apply lower_ok_val; cbn [val SFsub] in *; try assumption; lia.
  - destruct (good_finite _ _ Hx) as (_ & Hex & _). destruct (good_finite _ _ Hy) as (_ & Hey & _).
    destruct (SFsub_finite mx my ex ey) as (D & -> & HV).
    assert (Hmin : - OFS <= Z.min ex ey) by (unfold OFS; lia).
    specialize (HV Hmin). cbn [val] in *.
    assert (HD : 0 <= D) by (apply (V_sign D (Z.min ex ey)); lia).
    unfold binary_normalize. destruct D as [|M|M]; [| |lia].
    + cbn [lower_ok]. apply (V_pos_inv mv ev); try lia. unfold V in HV at 1. lia.
    + apply binary_round_lower; try assumption. lia.
Qed.

Lemma SFsub_upper (x y : spec_float) (mv ev : Z) :
  good x -> good y -> val y <= val x -> 0 <= mv <= 2 ^ 53 -> -1074 <= ev ->
  V mv ev < V 1 1024 ->
  val x - val y <= V mv ev ->
  upper_ok (SFsub prec emax x y) mv ev.
Proof.
  intros Hx Hy Hyx Hmv Hev Hfin Hle.
  destruct x as [[|]|[|]| |[|] mx ex]; try (exfalso; exact (proj2 Hx));
    destruct y as [[|]|[|]| |[|] my ey]; try (exfalso; exact (proj2 Hy)).
  - exact I.
  - exfalso. destruct (good_finite _ _ Hy) as (_ & Hey & _).
    cbn [val] in Hyx. pose proof (V_pos_pos my ey). unfold OFS in *. lia.
  - apply upper_ok_val; cbn [val SFsub] in *; try assumption; lia.
  - destruct (good_finite _ _ Hx) as (_ & Hex & _). destruct (good_finite _ _ Hy) as (_ & Hey & _).
    destruct (SFsub_finite mx my ex ey) as (D & -> & HV).
    assert (Hmin : - OFS <= Z.min ex ey) by (unfold OFS; lia).
    specialize (HV Hmin). cbn [val] in *.
    assert (HD : 0 <= D) by (apply (V_sign D (Z.min ex ey)); lia).
    unfold binary_normalize. destruct D as [|M|M]; [exact I| |lia].
    apply binary_round_upper; try assumption. lia.
Qed.

(** Multiplication. *)
Lemma dg_mul_ge (a b : positive) : dg (Z.pos a) + dg (Z.pos b) - 1 <= dg (Z.pos (a * b)).
Proof.
  destruct (dg_pos_bounds (Z.pos a)) as (Hda & Hloa & _); [lia|].
  destruct (dg_pos_bounds (Z.pos b)) as (Hdb & Hlob & _); [lia|].
  rewrite Pos2Z.inj_mul.
  assert (H : 2 ^ (dg (Z.pos a) + dg (Z.pos b) - 2) <= Z.pos a * Z.pos b).
  { replace (dg (Z.pos a) + dg (Z.pos b) - 2) with ((dg (Z.pos a) - 1) + (dg (Z.pos b) - 1)) by lia.
    rewrite Z.pow_add_r by lia.
    pose proof (pow2_pos (dg (Z.pos a) - 1)). pose proof (pow2_pos (dg (Z.pos b) - 1)). nia. }
  apply dg_ge_pow in H; lia.
Qed.

Lemma V_mul (a b ea eb : Z) :
  - OFS <= ea -> - OFS <= eb -> - OFS <= ea + eb ->
  V (a * b) (ea + eb) * 2 ^ OFS = V a ea * V b eb.
Proof.
  intros Ha Hb Hab. unfold V.
  replace (a * b * 2 ^ (ea + eb + OFS) * 2 ^ OFS) with (a * b * (2 ^ (ea + eb + OFS) * 2 ^ OFS)) by ring.
  rewrite <- Z.pow_add_r by (unfold OFS in *; lia).
  replace (a * 2 ^ (ea + OFS) * (b * 2 ^ (eb + OFS))) with (a * b * (2 ^ (ea + OFS) * 2 ^ (eb + OFS))) by ring.
  rewrite <- Z.pow_add_r by lia. do 2 f_equal. lia.
Qed.

Lemma SFmul_N (mx my : positive) (ex ey : Z) :
  good (S754_finite false mx ex) -> good (S754_finite false my ey) ->
  ex + ey <= fexp64 (dg (Z.pos (mx * my)) + (ex + ey)).
Proof.
  intros Hx Hy.
  destruct (good_finite _ _ Hx) as (Hcx & Hex & _).
  destruct (good_finite _ _ Hy) as (Hcy & Hey & _).
  pose proof (dg_mul_ge mx my) as Hd.
  destruct (dg_pos_bounds (Z.pos mx)) as (Hdx & _); [lia|].
  destruct (dg_pos_bounds (Z.pos my)) as (Hdy & _); [lia|].
  unfold fexp64 in *. lia.
Qed.

Lemma SFmul_lower (x y : spec_float) (mv ev : Z) :
  good x -> good y -> 0 <= mv <= 2 ^ 53 -> -1074 <= ev ->
  V mv ev * 2 ^ OFS <= val x * val y ->
  lower_ok (SFmul prec emax x y) mv ev.
Proof.
  intros Hx Hy Hmv Hev Hle.
  assert (Hev' : - OFS <= ev) by (unfold OFS; lia).
  assert (Hofs : 0 < 2 ^ OFS) by (apply pow2_pos; unfold OFS; lia).
  assert (Hz : V mv ev * 2 ^ OFS <= 0 -> mv = 0).
  { intros H. apply (V_pos_inv mv ev); try lia; try nia. }
  destruct x as [[|]|[|]| |[|] mx ex]; try (exfalso; exact (proj2 Hx));
    destruct y as [[|]|[|]| |[|] my ey]; try (exfalso; exact (proj2 Hy));
    cbn [val SFmul xorb lower_ok] in *; try (apply Hz; lia).
  destruct (good_finite _ _ Hx) as (_ & Hex & _). destruct (good_finite _ _ Hy) as (_ & Hey & _).
  apply bra_lower; try assumption; try lia; [unfold OFS; lia|].
  rewrite Pos2Z.inj_mul.
  rewrite <- V_mul in Hle by (unfold OFS; lia). nia.
Qed.

Lemma SFmul_upper (x y : spec_float) (mv ev : Z) :
  good x -> good y -> 0 <= mv <= 2 ^ 53 -> -1074 <= ev -> V mv ev < V 1 1024 ->
  val x * val y <= V mv ev * 2 ^ OFS ->
  upper_ok (SFmul prec emax x y) mv ev.
Proof.
  intros Hx Hy Hmv Hev Hfin Hle.
  assert (Hofs : 0 < 2 ^ OFS) by (apply pow2_pos; unfold OFS; lia).
  pose proof (SFmul_N) as HN.
  destruct x as [[|]|[|]| |[|] mx ex]; try (exfalso; exact (proj2 Hx));
    destruct y as [[|]|[|]| |[|] my ey]; try (exfalso; exact (proj2 Hy));
    cbn [val SFmul xorb upper_ok] in *; try exact I.
  specialize (HN mx my ex ey Hx Hy).
  destruct (good_finite _ _ Hx) as (_ & Hex & _). destruct (good_finite _ _ Hy) as (_ & Hey & _).
  apply bra_upper; try assumption; try lia; [unfold OFS; lia| |].
  - intros _. rewrite Pos2Z.inj_mul.
    rewrite <- V_mul in Hle by (unfold OFS; lia). nia.
  - intros Hne. exfalso. apply Hne. reflexivity.
Qed.

(** Division by a larger value stays within [0, 1]. *)
Lemma new_location_exact (nb k : Z) :
  (k = 0 -> new_location nb k = loc_Exact) /\ (k <> 0 -> new_location nb k <> loc_Exact).
Proof.
  unfold new_location, new_location_even, new_location_odd. split.
  - intros ->. destruct (Z.even nb); reflexivity.
  - intros Hne. apply Z.eqb_neq in Hne. destruct (Z.even nb); rewrite Hne; discriminate.
Qed.

Lemma div_core_spec (m1 m2 : positive) (e1 e2 : Z) :
  let e' := Z.min (fexp64 (dg (Z.pos m1) + e1 - (dg (Z.pos m2) + e2))) (e1 - e2) in
  exists q r,
    SFdiv_core_binary prec emax (Z.pos m1) e1 (Z.pos m2) e2 = (q, e', new_location (Z.pos m2) r) /\
    Z.pos m1 * 2 ^ (e1 - e2 - e') = Z.pos m2 * q + r /\ 0 <= r < Z.pos m2 /\ 0 <= q.
Proof.
  intros e'. unfold SFdiv_core_binary. rewrite fexp_fexp64.
  change (Zdigits2 (Z.pos m1)) with (dg (Z.pos m1)).
  change (Zdigits2 (Z.pos m2)) with (dg (Z.pos m2)).
  fold e'.
  set (s := e1 - e2 - e').
  assert (Hs : 0 <= s) by (unfold s, e'; lia).
  set (m' := match s with Z.pos _ => Z.shiftl (Z.pos m1) s | 0 => Z.pos m1 | Z.neg _ => 0 end).
  assert (Hm' : m' = Z.pos m1 * 2 ^ s).
  { unfold m'. destruct s as [|p|p] eqn:E; [simpl; lia | | lia].
    rewrite Z.shiftl_mul_pow2 by lia. reflexivity. }
  pose proof (Z_div_mod m' (Z.pos m2) ltac:(lia)) as Hdm.
  destruct (Z.div_eucl m' (Z.pos m2)) as [q r].
  exists q, r. split; [reflexivity|]. destruct Hdm as [Heq Hr].
  rewrite <- Hm'. split; [exact Heq|]. split; [exact Hr|].
  assert (0 <= m') by (rewrite Hm'; pose proof (pow2_pos s Hs); nia).
  nia.
Qed.

Lemma value_digits_le (m1 m2 : positive) (e1 e2 : Z) :
  - OFS <= e1 -> - OFS <= e2 ->
  V (Z.pos m1) e1 <= V (Z.pos m2) e2 ->
  dg (Z.pos m1) + e1 <= dg (Z.pos m2) + e2.
Proof.
  intros H1 H2 Hle.
  destruct (dg_pos_bounds (Z.pos m1)) as (Hd1 & Hlo1 & _); [lia|].
  destruct (dg_pos_bounds (Z.pos m2)) as (Hd2 & _ & Hhi2); [lia|].
  destruct (Z_le_gt_dec (dg (Z.pos m1) + e1) (dg (Z.pos m2) + e2)) as [H|H]; [exact H|].
  exfalso.
  assert (Ha : 2 ^ (dg (Z.pos m1) - 1 + (e1 + OFS)) <= V (Z.pos m1) e1).
  { rewrite Z.pow_add_r by lia. unfold V. pose proof (pow2_pos (e1 + OFS)). nia. }
  assert (Hb : V (Z.pos m2) e2 < 2 ^ (dg (Z.pos m2) + (e2 + OFS))).
  { rewrite Z.pow_add_r by lia. unfold V. pose proof (pow2_pos (e2 + OFS)). nia. }
  assert (2 ^ (dg (Z.pos m2) + (e2 + OFS)) <= 2 ^ (dg (Z.pos m1) - 1 + (e1 + OFS)))
    by (apply Z.pow_le_mono_r; lia).
  lia.
Qed.

Lemma SFdiv_le_one (x y : spec_float) :
  good x -> good y -> 0 < val y -> val x <= val y ->
  upper_ok (SFdiv prec emax x y) 1 0.
Proof.
  intros Hx Hy Hpos Hle.
  destruct x as [[|]|[|]| |[|] mx ex]; try (exfalso; exact (proj2 Hx));
    destruct y as [[|]|[|]| |[|] my ey]; try (exfalso; exact (proj2 Hy));
    cbn [val] in *; try lia; [exact I|].
  destruct (good_finite _ _ Hx) as (_ & Hex & _). destruct (good_finite _ _ Hy) as (_ & Hey & _).
  assert (Hex' : - OFS <= ex) by (unfold OFS; lia).
  assert (Hey' : - OFS <= ey) by (unfold OFS; lia).
  pose proof (value_digits_le mx my ex ey Hex' Hey' Hle) as Hdig.
  cbn [SFdiv xorb].
  destruct (div_core_spec mx my ex ey) as (q & r & -> & Heq & Hr & Hq). cbn zeta in Heq.
  set (t := dg (Z.pos mx) + ex - (dg (Z.pos my) + ey)) in *.
  set (e' := Z.min (fexp64 t) (ex - ey)) in *.
  assert (Ht : t <= 0) by (unfold t; lia).
  assert (He'neg : e' <= -53) by (unfold e', fexp64; lia).
  assert (He'ofs : - OFS <= e') by (unfold e', fexp64, OFS; lia).
  set (s := ex - ey - e') in *.
  assert (Hs : 0 <= s) by (unfold s, e'; lia).
  (* the quotient is at most 2^(-e') *)
  assert (Hbound : Z.pos mx * 2 ^ s <= Z.pos my * 2 ^ (- e')).
  { unfold V in Hle.
    assert (E1 : 2 ^ (ex + OFS) * 2 ^ (- e') = 2 ^ s * 2 ^ (ey + OFS)).
    { rewrite <- !Z.pow_add_r by lia. f_equal. unfold s. lia. }
    pose proof (pow2_pos (ey + OFS) ltac:(lia)) as P1.
    pose proof (pow2_pos (- e') ltac:(lia)) as P2.
    pose proof (pow2_pos s Hs) as P3.
    pose proof (pow2_pos (ex + OFS) ltac:(lia)) as P4.
    assert (Z.pos mx * 2 ^ s * 2 ^ (ey + OFS) <= Z.pos my * 2 ^ (- e') * 2 ^ (ey + OFS)).
    { replace (Z.pos mx * 2 ^ s * 2 ^ (ey + OFS)) with (Z.pos mx * (2 ^ s * 2 ^ (ey + OFS))) by ring.
      rewrite <- E1. nia. }
    apply Z.mul_le_mono_pos_r in H; lia. }
  assert (HV1 : V 1 0 = V (2 ^ (- e')) e').
  { unfold V. rewrite <- Z.pow_add_r by lia. rewrite Z.mul_1_l. f_equal. lia. }
  pose proof (pow2_pos (- e') ltac:(lia)) as P2.
  destruct (new_location_exact (Z.pos my) r) as [Hloc0 Hloc1].
  apply bra_upper; try assumption; try lia.
  - (* the quotient is wide enough *)
    destruct (Z_le_gt_dec e' (-1074)) as [Hlow|Hhigh]; [unfold fexp64; lia|].
    assert (Hf : fexp64 t = t - 53) by (unfold e', fexp64 in *; lia).
    assert (Hs53 : 53 - dg (Z.pos mx) + dg (Z.pos my) <= s) by (unfold s, e', t in *; lia).
    destruct (dg_pos_bounds (Z.pos mx)) as (Hd1 & Hlo1 & _); [lia|].
    destruct (dg_pos_bounds (Z.pos my)) as (Hd2 & _ & Hhi2); [lia|].
    assert (Hq52 : 2 ^ 52 <= q).
    { assert (Hbig : 2 ^ 52 * 2 ^ dg (Z.pos my) <= Z.pos mx * 2 ^ s).
      { apply Z.le_trans with (2 ^ (dg (Z.pos mx) - 1) * 2 ^ s).
        - rewrite <- !Z.pow_add_r by lia. apply Z.pow_le_mono_r; lia.
        - pose proof (pow2_pos s Hs). nia. }
      destruct (Z_lt_le_dec q (2 ^ 52)) as [Hlt|]; [|assumption].
      exfalso. nia. }
    apply dg_ge_pow in Hq52; [|lia]. unfold fexp64. lia.
  - unfold V. rewrite !Z.mul_1_l. apply Z.pow_lt_mono_r; unfold OFS; lia.
  - intros Hl. rewrite HV1. apply V_le; [assumption|].
    destruct (Z.eq_dec r 0) as [->|Hr0]; [|exfalso; apply (Hloc1 Hr0); exact Hl]. nia.
  - intros Hl. rewrite HV1. apply V_le; [assumption|].
    destruct (Z.eq_dec r 0) as [->|Hr0]; [exfalso; apply Hl; apply Hloc0; reflexivity|]. nia.
Qed.

(** The order on non-negative doubles. *)
Lemma SFcompare_good (x y : spec_float) :
  good x -> good y -> SFcompare x y = Some (val x ?= val y).
Proof.
  intros Hx Hy.
  destruct x as [[|]|[|]| |[|] mx ex]; try (exfalso; exact (proj2 Hx));
    destruct y as [[|]|[|]| |[|] my ey]; try (exfalso; exact (proj2 Hy)).
  - reflexivity.
  - destruct (good_finite _ _ Hy) as (_ & Hey & _).
    cbn [SFcompare val]. f_equal. symmetry. apply Z.compare_lt_iff.
    apply V_pos_pos. unfold OFS; lia.
  - destruct (good_finite _ _ Hx) as (_ & Hex & _).
    cbn [SFcompare val]. f_equal. symmetry. apply Z.compare_gt_iff.
    apply V_pos_pos. unfold OFS; lia.
  - destruct (good_finite _ _ Hx) as (Hcx & _). destruct (good_finite _ _ Hy) as (Hcy & _).
    apply SFcompare_finite_pos; assumption.
Qed.

Lemma SFleb_good (x y : spec_float) :
  good x -> good y -> (SFleb x y = true <-> val x <= val y).
Proof.
  intros Hx Hy. unfold SFleb. rewrite (SFcompare_good x y Hx Hy).
  destruct (Z.compare_spec (val x) (val y)); split; intros; try lia; try reflexivity; discriminate.
Qed.

Lemma SFltb_good (x y : spec_float) :
  good x -> good y -> (SFltb x y = true <-> val x < val y).
Proof.
  intros Hx Hy. unfold SFltb. rewrite (SFcompare_good x y Hx Hy).
  destruct (Z.compare_spec (val x) (val y)); split; intros; try lia; try reflexivity; discriminate.
Qed.

(** ** Primitive floats *)


Lemma fgood_good (x : float) : fgood x -> good (Prim2SF x).
Proof. intros H. split; [apply Prim2SF_valid | exact H]. Qed.

Lemma Prim2SF_one : Prim2SF 1%float = S754_finite false 4503599627370496 (-52).
Proof. vm_compute. reflexivity. Qed.

Lemma Prim2SF_zero : Prim2SF 0%float = S754_zero false.
Proof. vm_compute. reflexivity. Qed.

Lemma Prim2SF_half : Prim2SF 0.5%float = S754_finite false 4503599627370496 (-53).
Proof. vm_compute. reflexivity. Qed.

Lemma fval_one : fval 1%float = ONE.
Proof.
  unfold fval. rewrite Prim2SF_one. cbn [val]. unfold ONE.
  rewrite (V_shift 1 (-52) 0) by (unfold OFS; lia). reflexivity.
Qed.

Lemma fgood_one : fgood 1%float.
Proof. unfold fgood. rewrite Prim2SF_one. exact I. Qed.

Lemma fval_zero : fval 0%float = 0.
Proof. unfold fval. rewrite Prim2SF_zero. reflexivity. Qed.

Lemma fgood_zero : fgood 0%float.
Proof. unfold fgood. rewrite Prim2SF_zero. exact I. Qed.

Lemma ONE_pos : 0 < ONE.
Proof. unfold ONE, V. rewrite Z.mul_1_l. apply pow2_pos. unfold OFS; lia. Qed.

Lemma fval_nonneg (x : float) : fgood x -> 0 <= fval x.
Proof. intros H. apply val_nonneg. apply fgood_good. exact H. Qed.

(** Every value is a multiple of the least positive one. *)
Lemma val_multiple (x : spec_float) : good x -> exists k, val x = k * ULP.
Proof.
  intros Hx. destruct x as [[|]|[|]| |[|] m e]; try (exfalso; exact (proj2 Hx)).
  - exists 0. reflexivity.
  - destruct (good_finite _ _ Hx) as (_ & He & _).
    exists (Z.pos m * 2 ^ (e + 1074)). cbn [val]. unfold ULP.
    rewrite (V_shift (Z.pos m) (-1074) e) by (unfold OFS; lia).
    unfold V. replace (e - -1074) with (e + 1074) by lia. ring.
Qed.

Lemma ONE_multiple : ONE = 2 ^ 1074 * ULP.
Proof.
  unfold ONE, ULP. rewrite (V_shift 1 (-1074) 0) by (unfold OFS; lia).
  unfold V. replace (0 - -1074) with 1074 by lia. ring.
Qed.

Lemma ULP_pos : 0 < ULP.
Proof. unfold ULP, V. rewrite Z.mul_1_l. apply pow2_pos. unfold OFS; lia. Qed.

(** From bounds back to non-negative doubles. *)
Lemma upper_ok_good (x : float) (mv ev : Z) :
  upper_ok (Prim2SF x) mv ev -> 0 <= mv -> fgood x /\ fval x <= V mv ev.
Proof.
  unfold fgood, fval. intros H Hmv.
  destruct (Prim2SF x) as [[|]|[|]| |[|] m e]; cbn [upper_ok nnf val] in *; try contradiction.
  - split; [exact I|]. apply V_nonneg. exact Hmv.
  - split; [exact I | exact H].
Qed.

Lemma lower_ok_fval (x : float) (mv ev : Z) :
  lower_ok (Prim2SF x) mv ev -> fgood x -> V mv ev <= fval x.
Proof.
  unfold fgood, fval.
  destruct (Prim2SF x) as [[|]|[|]| |[|] m e]; cbn [lower_ok nnf val]; try contradiction.
  - intros -> _. unfold V. lia.
  - auto.
Qed.

Lemma ONE_U53 : ONE = 2 ^ 53 * U53.
Proof.
  unfold ONE, U53. rewrite (V_shift 1 (-53) 0) by (unfold OFS; lia).
  unfold V. replace (0 - -53) with 53 by lia. ring.
Qed.

Lemma U53_pos : 0 < U53.
Proof. unfold U53, V. rewrite Z.mul_1_l. apply pow2_pos. unfold OFS; lia. Qed.

Lemma V_U53 (k : Z) : V k (-53) = k * U53.
Proof. unfold U53, V. ring. Qed.

Lemma ONE_lt_inf : ONE < V 1 1024.
Proof. unfold ONE, V. rewrite !Z.mul_1_l. apply Z.pow_lt_mono_r; unfold OFS; lia. Qed.

Lemma multiple_gap (a b u k c : Z) :
  0 < u -> a = k * u -> b = c * u -> a < b -> u <= b - a.
Proof.
  intros Hu -> -> Hlt.
  assert (k < c) by (apply Z.mul_lt_mono_pos_r with u; assumption).
  nia.
Qed.

(** [1 - q] for [q] in [0, 1]: it is in [0, 1], it is 0 only for [q = 1] and 1
    for [q = 0], and [q + (1 - q)] is within [2^-53] of 1. *)
Lemma fsub_one (q : float) :
  fgood q -> fval q <= ONE ->
  fgood (1 - q)%float /\ fval (1 - q)%float <= ONE /\
  (fval q < ONE -> 0 < fval (1 - q)%float) /\
  (fval q = 0 -> fval (1 - q)%float = ONE) /\
  ONE - U53 < fval q + fval (1 - q)%float < ONE + U53.
Proof.
  intros Hg Hle.
  pose proof (fgood_good _ fgood_one) as G1. pose proof (fgood_good _ Hg) as Gq.
  pose proof (fval_nonneg q Hg) as Hq0.
  pose proof fval_one as H1. unfold fval in H1.
  pose proof ONE_pos as HOp. pose proof U53_pos as HUp. pose proof ONE_U53 as HOU.
  pose proof ONE_lt_inf as HOI.
  assert (Hsub : Prim2SF (1 - q)%float = SFsub prec emax (Prim2SF 1%float) (Prim2SF q))
    by apply sub_spec.
  assert (Hyx : val (Prim2SF q) <= val (Prim2SF 1%float)) by (rewrite H1; exact Hle).
  assert (Hup : upper_ok (Prim2SF (1 - q)%float) 1 0).
  { rewrite Hsub. apply SFsub_upper; try assumption; try lia.
    rewrite H1. change (V 1 0) with ONE. change (val (Prim2SF q)) with (fval q). lia. }
  destruct (upper_ok_good _ _ _ Hup ltac:(lia)) as [Hgr Hler]. fold ONE in Hler.
  assert (Hlow : forall mv ev, 0 <= mv <= 2 ^ 53 -> -1074 <= ev ->
                   V mv ev <= ONE - fval q -> V mv ev <= fval (1 - q)%float).
  { intros mv ev Hmv Hev Hb. apply lower_ok_fval; [|exact Hgr].
    rewrite Hsub. apply SFsub_lower; try assumption; rewrite H1; exact Hb. }
  assert (Hupp : forall mv ev, 0 <= mv <= 2 ^ 53 -> -1074 <= ev -> V mv ev < V 1 1024 ->
                   ONE - fval q <= V mv ev -> fval (1 - q)%float <= V mv ev).
  { intros mv ev Hmv Hev Hfin Hb.
    apply (upper_ok_good (1 - q)%float mv ev); [|lia].
    rewrite Hsub. apply SFsub_upper; try assumption; rewrite H1; exact Hb. }
  split; [exact Hgr|]. split; [exact Hler|]. split; [|split].
  - intros Hlt. destruct (val_multiple _ Gq) as [k Hk]. fold (fval q) in Hk.
    pose proof ONE_multiple as HOm. pose proof ULP_pos as HUl.
    assert (H : ULP <= ONE - fval q).
    { apply (multiple_gap (fval q) ONE ULP k (2 ^ 1074)); assumption. }
    specialize (Hlow 1 (-1074) ltac:(lia) ltac:(lia) H). fold ULP in Hlow. lia.
  - intros Hz. specialize (Hlow 1 0 ltac:(lia) ltac:(lia)). fold ONE in Hlow. lia.
  - set (X := ONE - fval q). assert (HX : 0 <= X <= 2 ^ 53 * U53) by (unfold X; lia).
    split.
    + assert (Hfl : 0 <= X / U53 <= 2 ^ 53).
      { split; [apply Z.div_pos; lia|]. apply Z.div_le_upper_bound; lia. }
      specialize (Hlow (X / U53) (-53) Hfl ltac:(lia)). rewrite V_U53 in Hlow.
      pose proof (Z.mul_div_le X U53 HUp). pose proof (Z.mul_succ_div_gt X U53 HUp).
      specialize (Hlow ltac:(unfold X in *; lia)). unfold X in *. lia.
    + assert (Hce : 0 <= (X + U53 - 1) / U53 <= 2 ^ 53).
      { split; [apply Z.div_pos; lia|].
        assert ((X + U53 - 1) / U53 < 2 ^ 53 + 1); [|lia].
        apply Z.div_lt_upper_bound; [lia|]. nia. }
      specialize (Hupp ((X + U53 - 1) / U53) (-53) Hce ltac:(lia)). rewrite V_U53 in Hupp.
      pose proof (Z.mul_div_le (X + U53 - 1) U53 HUp).
      pose proof (Z.mul_succ_div_gt (X + U53 - 1) U53 HUp).
      assert (Hfin : (X + U53 - 1) / U53 * U53 < V 1 1024).
      { apply Z.le_lt_trans with (2 ^ 53 * U53); [nia|]. lia. }
      specialize (Hupp Hfin ltac:(unfold X in *; lia)). unfold X in *. lia.
Qed.

(** ** The weights *)


Lemma Prim2SF_infinity : Prim2SF infinity = S754_infinity false.
Proof. vm_compute. reflexivity. Qed.

Lemma exp_ok_finite (e : float) :
  exp_ok e -> exists m ee, Prim2SF e = S754_finite false m ee.
Proof.
  intros [H0 Hi]. rewrite ltb_spec in H0, Hi.
  rewrite Prim2SF_zero in H0. rewrite Prim2SF_infinity in Hi.
  destruct (Prim2SF e) as [[|]|[|]| |[|] m ee]; try discriminate.
  eauto.
Qed.

Lemma good_repr (x : spec_float) :
  good x -> exists mv ev, 0 <= mv <= 2 ^ 53 /\ -1074 <= ev <= 971 /\ V mv ev = val x /\
                          V mv ev < V 1 1024.
Proof.
  intros Hx. destruct x as [[|]|[|]| |[|] m e]; try (exfalso; exact (proj2 Hx)).
  - exists 0, 0. cbn [val]. unfold V. simpl. repeat split; try lia.
  - destruct (good_finite _ _ Hx) as (_ & He & Hm & _).
    exists (Z.pos m), e. cbn [val]. repeat split; try lia.
    apply Z.lt_le_trans with (V (2 ^ 53) e); [apply V_lt; [unfold OFS|]; lia|].
    apply Z.le_trans with (V (2 ^ 53) 971); [apply V_mono_e; [|unfold OFS|]; lia|].
    rewrite (V_shift 1 971 1024) by (unfold OFS; lia).
    apply V_le; [unfold OFS; lia|]. simpl. lia.
Qed.

Lemma ONE_pow : ONE = 2 ^ OFS.
Proof. unfold ONE, V. rewrite Z.mul_1_l. f_equal. Qed.

Lemma fmul_exp (q e : float) :
  fgood q -> fval q <= ONE -> exp_ok e ->
  fgood (q * e)%float /\ (fval q = ONE -> 0 < fval (q * e)%float).
Proof.
  intros Hg Hle He.
  destruct (exp_ok_finite e He) as (m & ee & Hee).
  assert (Hge : fgood e) by (unfold fgood; rewrite Hee; exact I).
  pose proof (fgood_good _ Hg) as Gq. pose proof (fgood_good _ Hge) as Ge.
  destruct (good_repr _ Ge) as (mv & ev & Hmv & Hev & HV & Hfin).
  assert (Hepos : 0 < val (Prim2SF e)).
  { rewrite Hee in *. cbn [val]. destruct (good_finite _ _ Ge) as (_ & Hb & _).
    apply V_pos_pos. unfold OFS; lia. }
  pose proof (fval_nonneg q Hg) as Hq0. unfold fval in *.
  pose proof ONE_pow as HO. pose proof ONE_pos as HOp.
  assert (Hup : upper_ok (Prim2SF (q * e)%float) mv ev).
  { rewrite mul_spec. apply SFmul_upper; try assumption; try lia;
      rewrite HV, <- HO; nia. }
  destruct (upper_ok_good _ _ _ Hup ltac:(lia)) as [Hgr _].
  split; [exact Hgr|]. intros H1.
  assert (Hlo : lower_ok (Prim2SF (q * e)%float) mv ev).
  { rewrite mul_spec. apply SFmul_lower; try assumption; try lia;
      rewrite HV, <- HO, H1; lia. }
  apply lower_ok_fval in Hlo; [|exact Hgr]. unfold fval in Hlo. lia.
Qed.

Lemma fadd_pos (a b : float) :
  fgood a -> fgood b -> 0 < fval a + fval b ->
  PrimFloat.eqb (a + b)%float 0%float = false /\
  ((fgood (a + b)%float /\ 0 < fval (a + b)%float /\ fval a <= fval (a + b)%float) \/
   Prim2SF (a + b)%float = S754_infinity false).
Proof.
  intros Ha Hb Hpos.
  pose proof (fgood_good _ Ha) as Ga. pose proof (fgood_good _ Hb) as Gb.
  pose proof (fval_nonneg a Ha) as Ha0. pose proof (fval_nonneg b Hb) as Hb0.
  destruct (good_repr _ Ga) as (ma & ea & Hma & Hea & HVa & _).
  destruct (good_repr _ Gb) as (mb & eb & Hmb & Heb & HVb & _).
  unfold fval in *.
  assert (La : lower_ok (Prim2SF (a + b)%float) ma ea).
  { rewrite add_spec. apply SFadd_lower; try assumption; lia. }
  assert (Lb : lower_ok (Prim2SF (a + b)%float) mb eb).
  { rewrite add_spec. apply SFadd_lower; try assumption; lia. }
  rewrite eqb_spec, Prim2SF_zero. unfold fgood, fval.
  destruct (Prim2SF (a + b)%float) as [[|]|[|]| |[|] m e] eqn:E;
    cbn [lower_ok] in La, Lb; try contradiction.
  - exfalso. subst ma mb. unfold V in HVa, HVb. lia.
  - split; [reflexivity|]. right. reflexivity.
  - split; [reflexivity|]. left. cbn [nnf val]. split; [exact I|]. lia.
Qed.

Lemma fdiv_unit (a s : float) :
  fgood a ->
  (fgood s /\ 0 < fval s /\ fval a <= fval s) \/ Prim2SF s = S754_infinity false ->
  fgood (a / s)%float /\ fval (a / s)%float <= ONE.
Proof.
  intros Ha Hs. pose proof (fgood_good _ Ha) as Ga.
  apply (upper_ok_good (a / s)%float 1 0); [|lia].
  rewrite div_spec. destruct Hs as [(Hgs & Hpos & Hle)|Hinf].
  - apply SFdiv_le_one; try assumption. apply fgood_good; exact Hgs.
  - rewrite Hinf. unfold fgood in Ha.
    destruct (Prim2SF a) as [[|]|[|]| |[|] m e]; try contradiction; exact I.
Qed.


Lemma unit_interval_leb (x : float) :
  unit_interval x -> PrimFloat.leb 0 x = true /\ PrimFloat.leb x 1 = true.
Proof.
  intros [Hg Hle]. rewrite !leb_spec. pose proof (fgood_good _ Hg) as G.
  split.
  - apply SFleb_good; [apply fgood_good; exact fgood_zero | exact G |].
    pose proof fval_zero as Hz. unfold fval in Hz. rewrite Hz. apply val_nonneg. exact G.
  - apply SFleb_good; [exact G | apply fgood_good; exact fgood_one |].
    pose proof fval_one as H1. unfold fval in H1, Hle. rewrite H1. exact Hle.
Qed.

Lemma unit_interval_half : unit_interval 0.5%float.
Proof.
  unfold unit_interval, fgood, fval. rewrite Prim2SF_half. split; [exact I|].
  cbn [val]. unfold ONE. rewrite (V_shift 1 (-53) 0) by (unfold OFS; lia).
  apply V_le; [unfold OFS; lia|]. simpl. lia.
Qed.

Lemma unit_interval_complement (q : float) :
  unit_interval q -> unit_interval (1 - q)%float.
Proof. intros [Hg Hle]. destruct (fsub_one q Hg Hle) as (H1 & H2 & _). split; assumption. Qed.

Lemma Prim2SF_below_one : Prim2SF below_one = S754_finite false 9007199254740991 (-53).
Proof. vm_compute. reflexivity. Qed.

Lemma Prim2SF_above_one : Prim2SF above_one = S754_finite false 4503599627370497 (-52).
Proof. vm_compute. reflexivity. Qed.

(** The double [(1 - q) + q] is within one unit in the last place of 1. *)
Lemma complement_sum (q : float) :
  unit_interval q ->
  PrimFloat.leb below_one ((1 - q) + q)%float = true /\
  PrimFloat.leb ((1 - q) + q)%float above_one = true.
Proof.
  intros [Hg Hle].
  destruct (fsub_one q Hg Hle) as (Hgr & Hler & _ & _ & Hlo & Hhi).
  pose proof (fgood_good _ Hg) as Gq. pose proof (fgood_good _ Hgr) as Gr.
  pose proof ONE_U53 as HOU. pose proof U53_pos as HUp. pose proof ONE_lt_inf as HOI.
  unfold fval in *.
  assert (Vlo : V 9007199254740991 (-53) = ONE - U53).
  { rewrite V_U53, HOU. change (2 ^ 53) with 9007199254740992. ring. }
  assert (Vhi : V 4503599627370497 (-52) = ONE + 2 * U53).
  { rewrite (V_shift _ (-53) (-52)) by (unfold OFS; lia). rewrite V_U53, HOU.
    change (-52 - -53) with 1. change (2 ^ 53) with 9007199254740992.
    change (2 ^ 1) with 2. ring. }
  assert (Hup : upper_ok (Prim2SF ((1 - q) + q)%float) 4503599627370497 (-52)).
  { rewrite add_spec. apply SFadd_upper; try assumption; try lia. }
  destruct (upper_ok_good _ _ _ Hup ltac:(lia)) as [Hgs Hles].
  assert (Hlow : lower_ok (Prim2SF ((1 - q) + q)%float) 9007199254740991 (-53)).
  { rewrite add_spec. apply SFadd_lower; try assumption; try lia. }
  apply lower_ok_fval in Hlow; [|exact Hgs].
  pose proof (fgood_good _ Hgs) as Gs.
  rewrite !leb_spec. split.
  - apply SFleb_good; [| exact Gs |].
    + split; [apply Prim2SF_valid | rewrite Prim2SF_below_one; exact I].
    + rewrite Prim2SF_below_one. cbn [val]. exact Hlow.
  - apply SFleb_good; [exact Gs | |].
    + split; [apply Prim2SF_valid | rewrite Prim2SF_above_one; exact I].
    + rewrite Prim2SF_above_one. cbn [val]. exact Hles.
Qed.

(** One renormalisation: the divisor is not zero and the quotient is in
    [0, 1]. *)
Lemma renormalize_ok (a b : float) :
  fgood a -> fgood b -> 0 < fval a + fval b ->
  PrimFloat.eqb (a + b)%float 0%float = false /\ unit_interval (a / (a + b))%float.
Proof.
  intros Ha Hb Hpos. destruct (fadd_pos a b Ha Hb Hpos) as [Hne Hs].
  split; [exact Hne|]. apply fdiv_unit; [exact Ha|].
  destruct Hs as [(H1 & H2 & H3)|H]; [left; auto | right; exact H].
Qed.

(** The three pairs the update can renormalise: each is a pair of
    non-negative doubles that are not both zero. *)
Lemma scaled_pairs (q e : float) :
  unit_interval q -> exp_ok e ->
  (fgood q /\ fgood (1 - q)%float /\ 0 < fval q + fval (1 - q)%float) /\
  (fgood q /\ fgood ((1 - q) * e)%float /\ 0 < fval q + fval ((1 - q) * e)%float) /\
  (fgood (q * e)%float /\ fgood (1 - q)%float /\ 0 < fval (q * e)%float + fval (1 - q)%float).
Proof.
  intros [Hg Hle] He.
  destruct (fsub_one q Hg Hle) as (Hgr & Hler & Hpos & Hone & Hlo & _).
  destruct (fmul_exp q e Hg Hle He) as [Hgq Hq1].
  destruct (fmul_exp (1 - q)%float e Hgr Hler He) as [Hgre Hr1].
  pose proof (fval_nonneg q Hg) as Hq0.
  pose proof (fval_nonneg _ Hgr) as Hr0.
  pose proof (fval_nonneg _ Hgq) as Hqe0.
  pose proof (fval_nonneg _ Hgre) as Hre0.
  pose proof ONE_U53 as HOU. pose proof U53_pos as HUp.
  assert (HU1 : U53 <= ONE) by (rewrite HOU; change (2 ^ 53) with 9007199254740992; lia).
  split; [|split].
  - repeat split; auto. lia.
  - repeat split; auto.
    destruct (Z.eq_dec (fval q) 0) as [Hz|Hnz]; [|lia].
    specialize (Hr1 (Hone Hz)). lia.
  - repeat split; auto.
    destruct (Z.eq_dec (fval q) ONE) as [H1|Hn1].
    + specialize (Hq1 H1). lia.
    + specialize (Hpos ltac:(lia)). lia.
Qed.

End Binary64_facts.

(** * Properties *)

(** ** The built-in containers *)

Lemma list_contains_In (l : list CacheKey) (x : CacheKey) :
  list_contains l x = true <-> In x l.
Proof.
  induction l as [|y l IH]; simpl.
  - split; [discriminate | contradiction].
  - destruct (String.eqb_spec y x) as [->|Hne].
    + split; auto.
    + rewrite IH. split; [auto | intros [H|H]; [contradiction | exact H]].
Qed.

Lemma list_contains_false (l : list CacheKey) (x : CacheKey) :
  list_contains l x = false <-> ~ In x l.
Proof.
  rewrite <- list_contains_In. destruct (list_contains l x); split; congruence.
Qed.

Lemma list_remove_absent (l : list CacheKey) (x : CacheKey) :
  ~ In x l -> list_remove l x = Raise ValueError.
Proof.
  induction l as [|y l IH]; simpl; intros Hn; [reflexivity|].
  destruct (String.eqb_spec y x) as [->|Hne]; [tauto|].
  rewrite IH by tauto. reflexivity.
Qed.

Lemma list_remove_present (l : list CacheKey) (x : CacheKey) :
  In x l ->
  exists l1 l2, l = l1 ++ x :: l2 /\ ~ In x l1 /\ list_remove l x = Ok (l1 ++ l2).
Proof.
  induction l as [|y l IH]; simpl; intros Hin; [contradiction|].
  destruct (String.eqb_spec y x) as [->|Hne].
  - exists [], l. simpl. auto.
  - destruct Hin as [->|Hin]; [congruence|].
    destruct (IH Hin) as (l1 & l2 & -> & Hn & ->).
    exists (y :: l1), l2. simpl. repeat split; auto.
    intros [H|H]; [congruence | contradiction].
Qed.

(** What [try: l.remove(key) except ValueError: pass] leaves: it never raises,
    the key is gone when the list had it once, and nothing else moves. *)
Lemma remove_if_present_spec (l : list CacheKey) (x : CacheKey) :
  exists l', remove_if_present l x = Ok l' /\
    (List.length l' <= List.length l)%nat /\
    (forall y, In y l' -> In y l) /\
    (NoDup l -> NoDup l' /\ ~ In x l') /\
    (In x l -> List.length l = S (List.length l')).
Proof.
  unfold remove_if_present.
  destruct (in_dec string_dec x l) as [Hin|Hn].
  - destruct (list_remove_present l x Hin) as (l1 & l2 & -> & Hn1 & ->).
    exists (l1 ++ l2). split; [reflexivity|].
    rewrite !length_app. simpl. repeat split; try lia.
    + intros y Hy. apply in_app_or in Hy. apply in_or_app. simpl. tauto.
    + eapply NoDup_remove_1; eauto.
    + eapply NoDup_remove_2; eauto.
  - rewrite list_remove_absent by assumption. exists l. repeat split; auto; tauto.
Qed.

Lemma list_pop_spec (l : list CacheKey) :
  l <> [] -> exists r y, list_pop l = Ok (r, y) /\ l = r ++ [y].
Proof.
  induction l as [|x l IH]; intros Hne; [congruence|].
  destruct l as [|z l].
  - exists [], x. auto.
  - destruct IH as (r & y & Hp & Hl); [discriminate|].
    exists (x :: r), y. split.
    + change (list_pop (x :: z :: l))
        with ('(r, y) <- list_pop (z :: l) ;; Ok (x :: r, y)).
      rewrite Hp. reflexivity.
    + simpl. rewrite <- Hl. reflexivity.
Qed.

Lemma len_nonneg {A : Type} (l : list A) : 0 <= len l.
Proof. unfold len. lia. Qed.

Lemma len_cons {A : Type} (x : A) (l : list A) : len (x :: l) = len l + 1.
Proof. unfold len. cbn [List.length]. lia. Qed.

Lemma len_app {A : Type} (l1 l2 : list A) : len (l1 ++ l2) = len l1 + len l2.
Proof. unfold len. rewrite length_app. lia. Qed.

(** ** The frequency table *)

Lemma Counter_getitem_absent (c : Counter) (k : CacheKey) :
  ~ In k (keys c) -> Counter_getitem c k = 0.
Proof.
  induction c as [|[k' v] c IH]; simpl; intros Hn; [reflexivity|].
  destruct (String.eqb_spec k' k) as [->|Hne]; [tauto|]. apply IH. tauto.
Qed.

Lemma Counter_getitem_present (c : Counter) (k : CacheKey) :
  counts_positive c -> In k (keys c) -> 0 < Counter_getitem c k.
Proof.
  induction c as [|[k' v] c IH]; simpl; intros Hp Hin; [contradiction|].
  inversion Hp as [|? ? Hv Hp']; subst. simpl in Hv.
  destruct (String.eqb_spec k' k) as [->|Hne]; [exact Hv|].
  apply IH; [exact Hp' | tauto].
Qed.

(** With positive counts, [LFU.__contains__] is membership of the table. *)
Lemma LFU_contains_In (self : LFU) (k : CacheKey) :
  counts_positive (frequency_counter self) ->
  (LFU_contains self k = true <-> In k (keys (frequency_counter self))).
Proof.
  intros Hp. unfold LFU_contains. split; intros H.
  - destruct (in_dec string_dec k (keys (frequency_counter self))) as [Hin|Hn]; [exact Hin|].
    rewrite Counter_getitem_absent in H by assumption. discriminate.
  - apply Z.gtb_lt. apply Counter_getitem_present; assumption.
Qed.

(** [c[k] = v] on a table that has [k]: same keys in the same order. *)
Lemma Counter_setitem_present (c : Counter) (k : CacheKey) (v : Z) :
  In k (keys c) -> keys (Counter_setitem c k v) = keys c.
Proof.
  induction c as [|[k' v'] c IH]; simpl; intros Hin; [contradiction|].
  destruct (String.eqb_spec k' k) as [->|Hne]; simpl; [reflexivity|].
  f_equal. apply IH. tauto.
Qed.

(** [c[k] = v] on a table without [k]: the new entry goes last. *)
Lemma Counter_setitem_absent (c : Counter) (k : CacheKey) (v : Z) :
  ~ In k (keys c) -> Counter_setitem c k v = c ++ [(k, v)].
Proof.
  induction c as [|[k' v'] c IH]; simpl; intros Hn; [reflexivity|].
  destruct (String.eqb_spec k' k) as [->|Hne]; [tauto|].
  f_equal. apply IH. tauto.
Qed.

Lemma Counter_setitem_positive (c : Counter) (k : CacheKey) (v : Z) :
  counts_positive c -> 0 < v -> counts_positive (Counter_setitem c k v).
Proof.
  unfold counts_positive.
  induction c as [|[k' v'] c IH]; simpl; intros Hp Hv.
  - constructor; [exact Hv | constructor].
  - inversion Hp; subst.
    destruct (String.eqb k' k); constructor; simpl; auto.
Qed.

Lemma Counter_setitem_nonempty (c : Counter) (k : CacheKey) (v : Z) :
  Counter_setitem c k v <> [].
Proof.
  destruct c as [|[k' v'] c]; simpl; [discriminate|].
  destruct (String.eqb k' k); discriminate.
Qed.

Lemma Counter_delitem_present (c : Counter) (k : CacheKey) :
  In k (keys c) ->
  exists c1 v c2, c = c1 ++ (k, v) :: c2 /\ ~ In k (keys c1) /\
                  Counter_delitem c k = Ok (c1 ++ c2).
Proof.
  induction c as [|[k' v'] c IH]; simpl; intros Hin; [contradiction|].
  destruct (String.eqb_spec k' k) as [->|Hne].
  - exists [], v', c. simpl. auto.
  - destruct Hin as [->|Hin]; [congruence|].
    destruct (IH Hin) as (c1 & v & c2 & -> & Hn & ->).
    exists ((k', v') :: c1), v, c2. simpl. repeat split; auto.
    intros [H|H]; [congruence | contradiction].
Qed.

Lemma Counter_delitem_split (c1 c2 : Counter) (k : CacheKey) (v : Z) :
  ~ In k (keys c1) -> Counter_delitem (c1 ++ (k, v) :: c2) k = Ok (c1 ++ c2).
Proof.
  induction c1 as [|[k' v'] c1 IH]; simpl; intros Hn.
  - rewrite String.eqb_refl. reflexivity.
  - destruct (String.eqb_spec k' k) as [->|Hne]; [tauto|].
    rewrite IH by tauto. reflexivity.
Qed.

Lemma Counter_getitem_nonneg (c : Counter) (k : CacheKey) :
  counts_positive c -> 0 <= Counter_getitem c k.
Proof.
  intros Hp. destruct (in_dec string_dec k (keys c)) as [Hin|Hn].
  - apply Z.lt_le_incl. apply Counter_getitem_present; assumption.
  - rewrite Counter_getitem_absent by assumption. lia.
Qed.

Lemma Counter_incr_keys (c : Counter) (k : CacheKey) :
  keys (Counter_incr c k) = if list_contains (keys c) k then keys c else keys c ++ [k].
Proof.
  unfold Counter_incr.
  destruct (list_contains (keys c) k) eqn:E.
  - apply Counter_setitem_present. apply list_contains_In. exact E.
  - rewrite Counter_setitem_absent by (apply list_contains_false; exact E).
    unfold keys. rewrite map_app. reflexivity.
Qed.

Lemma NoDup_snoc {A : Type} (l : list A) (x : A) :
  NoDup l -> ~ In x l -> NoDup (l ++ [x]).
Proof.
  induction l as [|y l IH]; simpl; intros Hnd Hn.
  - constructor; [intros [] | constructor].
  - inversion Hnd as [|? ? Hy Hl]; subst. constructor.
    + intros H. apply in_app_or in H. destruct H as [H|[H|[]]]; [tauto|].
      subst. tauto.
    + apply IH; tauto.
Qed.

Lemma Counter_incr_NoDup (c : Counter) (k : CacheKey) :
  NoDup (keys c) -> NoDup (keys (Counter_incr c k)).
Proof.
  intros Hnd. rewrite Counter_incr_keys.
  destruct (list_contains (keys c) k) eqn:E; [exact Hnd|].
  apply list_contains_false in E.
  apply NoDup_snoc; assumption.
Qed.

Lemma Counter_incr_positive (c : Counter) (k : CacheKey) :
  counts_positive c -> counts_positive (Counter_incr c k).
Proof.
  intros Hp. apply Counter_setitem_positive; [exact Hp|].
  pose proof (Counter_getitem_nonneg c k Hp). lia.
Qed.

Lemma keys_length (c : Counter) : List.length (keys c) = List.length c.
Proof. apply length_map. Qed.

Lemma Counter_incr_len (c : Counter) (k : CacheKey) :
  len (Counter_incr c k) = if list_contains (keys c) k then len c else len c + 1.
Proof.
  unfold len. rewrite <- (keys_length (Counter_incr c k)), Counter_incr_keys.
  destruct (list_contains (keys c) k).
  - rewrite keys_length. reflexivity.
  - rewrite length_app, keys_length. simpl. lia.
Qed.

(** ** The scan of [min] *)

(** [min] returns the first entry of least count: the entries before it have
    strictly larger counts, the entries after it counts at least as large. *)
Lemma min_scan_split (rest : list (CacheKey * Z)) :
  forall (best : CacheKey * Z) (pre mid : list (CacheKey * Z)),
    Forall (fun x => snd best < snd x) pre ->
    Forall (fun x => snd best <= snd x) mid ->
    exists l1 l2,
      pre ++ best :: mid ++ rest = l1 ++ min_scan best rest :: l2 /\
      Forall (fun x => snd (min_scan best rest) < snd x) l1 /\
      Forall (fun x => snd (min_scan best rest) <= snd x) l2.
Proof.
  induction rest as [|x rest IH]; intros best pre mid Hpre Hmid; simpl.
  - exists pre, mid. rewrite app_nil_r. auto.
  - destruct (Z.ltb_spec (snd x) (snd best)) as [Hlt|Hge].
    + destruct (IH x (pre ++ best :: mid) []) as (l1 & l2 & Heq & H1 & H2).
      * apply Forall_app. split.
        -- eapply Forall_impl; [|exact Hpre]. simpl. intros; lia.
        -- constructor; [exact Hlt|].
           eapply Forall_impl; [|exact Hmid]. simpl. intros; lia.
      * constructor.
      * exists l1, l2. split; [|auto].
        rewrite <- Heq. rewrite <- app_assoc. reflexivity.
    + destruct (IH best pre (mid ++ [x])) as (l1 & l2 & Heq & H1 & H2).
      * exact Hpre.
      * apply Forall_app. split; [exact Hmid|]. constructor; [exact Hge | constructor].
      * exists l1, l2. split; [|auto].
        rewrite <- Heq. rewrite <- app_assoc. reflexivity.
Qed.

Lemma min_by_count_split (items : list (CacheKey * Z)) :
  items <> [] ->
  exists l1 k v l2,
    min_by_count items = Ok (k, v) /\ items = l1 ++ (k, v) :: l2 /\
    Forall (fun x => v < snd x) l1 /\ Forall (fun x => v <= snd x) l2.
Proof.
  destruct items as [|x rest]; intros Hne; [congruence|].
  destruct (min_scan_split rest x [] []) as (l1 & l2 & Heq & H1 & H2);
    [constructor | constructor |].
  simpl in Heq. unfold min_by_count.
  destruct (min_scan x rest) as [k v] eqn:E. simpl in H1, H2.
  exists l1, k, v, l2. auto.
Qed.

(** ** LFU: one access *)

(** The table and the result of an access, without the counters: what
    [LFU.access] computes from [self.frequency_counter[key] += 1] on. *)
Lemma LFU_access_evicts (self : LFU) (key : CacheKey) :
  NoDup (keys (frequency_counter self)) ->
  budget (LFU_base self) < len (Counter_incr (frequency_counter self) key) ->
  exists self' l1 k v l2,
    LFU_access self key = Ok (self', Some k) /\
    Counter_incr (frequency_counter self) key = l1 ++ (k, v) :: l2 /\
    Forall (fun x => v < snd x) l1 /\
    Forall (fun x => v <= snd x) l2 /\
    frequency_counter self' = l1 ++ l2 /\
    budget (LFU_base self') = budget (LFU_base self) /\
    accesses (LFU_base self') = accesses (LFU_base self) + 1 /\
    hits (LFU_base self') =
      hits (LFU_base self) + (if LFU_contains self key then 1 else 0).
Proof.
  intros Hnd Hover.
  destruct (min_by_count_split (Counter_incr (frequency_counter self) key))
    as (l1 & k & v & l2 & Hmin & Heq & H1 & H2).
  { apply Counter_setitem_nonempty. }
  pose proof (Counter_incr_NoDup _ key Hnd) as Hnd'.
  rewrite Heq in Hnd'. unfold keys in Hnd'. rewrite map_app in Hnd'. simpl in Hnd'.
  apply NoDup_remove_2 in Hnd'.
  assert (Hn1 : ~ In k (keys l1)) by (intros H; apply Hnd'; apply in_or_app; auto).
  unfold LFU_access.
  assert (Hb : budget (if LFU_contains self key
                       then incr_hits (incr_accesses (LFU_base self))
                       else incr_accesses (LFU_base self)) = budget (LFU_base self))
    by (destruct (LFU_contains self key); reflexivity).
  rewrite Hb.
  destruct (Z.gtb_spec (len (Counter_incr (frequency_counter self) key))
              (budget (LFU_base self))) as [_|Hle]; [|lia].
  unfold Counter_items. rewrite Hmin. simpl.
  assert (Hdel : Counter_delitem (Counter_incr (frequency_counter self) key) k
                 = Ok (l1 ++ l2))
    by (rewrite Heq; apply Counter_delitem_split; exact Hn1).
  rewrite Hdel. simpl.
  eexists _, l1, k, v, l2. split; [reflexivity|].
  simpl. repeat split; auto; destruct (LFU_contains self key); simpl; lia.
Qed.

Lemma LFU_access_keeps (self : LFU) (key : CacheKey) :
  len (Counter_incr (frequency_counter self) key) <= budget (LFU_base self) ->
  exists self',
    LFU_access self key = Ok (self', None) /\
    frequency_counter self' = Counter_incr (frequency_counter self) key /\
    budget (LFU_base self') = budget (LFU_base self) /\
    accesses (LFU_base self') = accesses (LFU_base self) + 1 /\
    hits (LFU_base self') =
      hits (LFU_base self) + (if LFU_contains self key then 1 else 0).
Proof.
  intros Hle. unfold LFU_access.
  assert (Hb : budget (if LFU_contains self key
                       then incr_hits (incr_accesses (LFU_base self))
                       else incr_accesses (LFU_base self)) = budget (LFU_base self))
    by (destruct (LFU_contains self key); reflexivity).
  rewrite Hb.
  destruct (Z.gtb_spec (len (Counter_incr (frequency_counter self) key))
              (budget (LFU_base self))) as [Hgt|_]; [lia|].
  eexists. split; [reflexivity|].
  simpl. repeat split; auto; destruct (LFU_contains self key); simpl; lia.
Qed.

Lemma Counter_incr_keys_incl (c : Counter) (key k : CacheKey) :
  In k (keys (Counter_incr c key)) -> k = key \/ In k (keys c).
Proof.
  rewrite Counter_incr_keys. destruct (list_contains (keys c) key); [auto|].
  intros H. apply in_app_or in H. destruct H as [H|[H|[]]]; auto.
Qed.

(** One access from a well-formed LFU: it returns, the result is well-formed,
    the only key that can enter the table is the accessed one, and a hit
    evicts nothing. *)
Lemma LFU_access_spec (self : LFU) (key : CacheKey) :
  LFU_wf self ->
  exists self' r,
    LFU_access self key = Ok (self', r) /\
    LFU_wf self' /\
    budget (LFU_base self') = budget (LFU_base self) /\
    accesses (LFU_base self') = accesses (LFU_base self) + 1 /\
    (forall k, In k (keys (frequency_counter self')) ->
               k = key \/ In k (keys (frequency_counter self))) /\
    (LFU_contains self key = true ->
       r = None /\ keys (frequency_counter self') = keys (frequency_counter self)).
Proof.
  intros [Hb Hnd Hsz Hpos Hh].
  pose proof (Counter_incr_len (frequency_counter self) key) as Hlen.
  assert (Hhit : LFU_contains self key = true ->
                 list_contains (keys (frequency_counter self)) key = true).
  { intros Hc. apply list_contains_In. apply (LFU_contains_In _ _ Hpos). exact Hc. }
  destruct (Z_le_gt_dec (len (Counter_incr (frequency_counter self) key))
              (budget (LFU_base self))) as [Hle|Hgt].
  - destruct (LFU_access_keeps self key Hle) as (self' & Hacc & Hfc & Hbud & Ha & Hhits).
    exists self', None. split; [exact Hacc|].
    split; [|split; [exact Hbud | split; [exact Ha | split]]].
    + constructor.
      * rewrite Hbud. exact Hb.
      * rewrite Hfc. apply Counter_incr_NoDup. exact Hnd.
      * rewrite Hfc, Hbud. exact Hle.
      * rewrite Hfc. apply Counter_incr_positive. exact Hpos.
      * rewrite Hhits, Ha. destruct (LFU_contains self key); lia.
    + rewrite Hfc. apply Counter_incr_keys_incl.
    + intros Hc. split; [reflexivity|].
      rewrite Hfc, Counter_incr_keys, (Hhit Hc). reflexivity.
  - destruct (LFU_access_evicts self key Hnd) as
      (self' & l1 & k & v & l2 & Hacc & Heq & H1 & H2 & Hfc & Hbud & Ha & Hhits); [lia|].
    pose proof (Counter_incr_NoDup _ key Hnd) as Hnd'.
    pose proof (Counter_incr_positive _ key Hpos) as Hpos'.
    rewrite Heq in Hlen, Hnd', Hpos'.
    unfold keys in Hnd'. rewrite map_app in Hnd'. simpl in Hnd'.
    apply NoDup_remove_1 in Hnd'. rewrite <- map_app in Hnd'.
    rewrite len_app, len_cons in Hlen.
    assert (Hmiss : list_contains (keys (frequency_counter self)) key = false).
    { destruct (list_contains (keys (frequency_counter self)) key) eqn:E; [|reflexivity].
      rewrite Heq, len_app, len_cons in Hgt. lia. }
    rewrite Hmiss in Hlen.
    exists self', (Some k). split; [exact Hacc|].
    split; [|split; [exact Hbud | split; [exact Ha | split]]].
    + constructor.
      * rewrite Hbud. exact Hb.
      * rewrite Hfc. exact Hnd'.
      * rewrite Hfc, Hbud, len_app. lia.
      * rewrite Hfc. unfold counts_positive in *.
        apply Forall_app in Hpos'. destruct Hpos' as [Hp1 Hp2].
        inversion Hp2; subst. apply Forall_app. auto.
      * rewrite Hhits, Ha. destruct (LFU_contains self key); lia.
    + intros k0 Hk0. apply (Counter_incr_keys_incl _ key). rewrite Heq.
      rewrite Hfc in Hk0. unfold keys in *. rewrite map_app in *. simpl.
      apply in_app_or in Hk0. apply in_or_app. simpl. tauto.
    + intros Hc. rewrite (Hhit Hc) in Hmiss. discriminate.
Qed.

(** ** LRU: one access *)

Lemma remove_if_present_hit (l l' : list CacheKey) (key k : CacheKey) :
  remove_if_present l key = Ok l' -> In k l -> k = key \/ In k l'.
Proof.
  unfold remove_if_present. intros Hrm Hk.
  destruct (in_dec string_dec key l) as [Hin|Hn].
  - destruct (list_remove_present _ _ Hin) as (l1 & l2 & Hl & Hn1 & Hr).
    rewrite Hr in Hrm. inversion Hrm; subst l'.
    rewrite Hl in Hk. apply in_app_or in Hk.
    destruct Hk as [Hk|[Hk|Hk]]; [right | left | right]; auto using in_or_app.
  - rewrite list_remove_absent in Hrm by assumption. inversion Hrm; subst. auto.
Qed.

(** One access from a well-formed LRU, as for LFU. *)
Lemma LRU_access_spec (self : LRU) (key : CacheKey) :
  LRU_wf self ->
  exists self' r,
    LRU_access self key = Ok (self', r) /\
    LRU_wf self' /\
    budget (LRU_base self') = budget (LRU_base self) /\
    accesses (LRU_base self') = accesses (LRU_base self) + 1 /\
    (forall k, In k (recency_list self') -> k = key \/ In k (recency_list self)) /\
    (LRU_contains self key = true ->
       r = None /\ forall k, In k (recency_list self') <-> In k (recency_list self)).
Proof.
  intros [Hb Hnd Hsz Hh].
  destruct (remove_if_present_spec (recency_list self) key)
    as (rl0 & Hrm & Hlen0 & Hincl & Hnd0 & Hhit).
  destruct (Hnd0 Hnd) as [Hnd1 Hnk].
  unfold LRU_access. rewrite Hrm. cbn [bind]. unfold list_insert0.
  set (base := if LRU_contains self key
               then incr_hits (incr_accesses (LRU_base self))
               else incr_accesses (LRU_base self)).
  assert (Hbud : budget base = budget (LRU_base self))
    by (unfold base; destruct (LRU_contains self key); reflexivity).
  assert (Hacc : accesses base = accesses (LRU_base self) + 1)
    by (unfold base; destruct (LRU_contains self key); reflexivity).
  assert (Hhits : 0 <= hits base <= accesses base)
    by (unfold base; destruct (LRU_contains self key); simpl; lia).
  assert (Hnd2 : NoDup (key :: rl0)) by (constructor; assumption).
  assert (Hlen1 : len rl0 <= len (recency_list self)) by (unfold len; lia).
  assert (Hhit' : LRU_contains self key = true -> len (key :: rl0) = len (recency_list self)).
  { intros Hc. apply list_contains_In in Hc. apply Hhit in Hc.
    rewrite len_cons. unfold len. lia. }
  rewrite Hbud.
  destruct (Z.gtb_spec (len (key :: rl0)) (budget (LRU_base self))) as [Hgt|Hle].
  - destruct (list_pop_spec (key :: rl0)) as (r & y & Hpop & Heq); [discriminate|].
    rewrite Hpop. cbn [bind].
    assert (Hlen2 : len (key :: rl0) = len r + 1).
    { rewrite Heq, len_app. reflexivity. }
    rewrite len_cons in Hlen2.
    exists {| LRU_base := base; recency_list := r |}, (Some y).
    split; [reflexivity|]. simpl.
    split; [|split; [exact Hbud | split; [exact Hacc | split]]].
    + constructor; simpl.
      * lia.
      * rewrite Heq in Hnd2. apply NoDup_remove_1 in Hnd2.
        rewrite app_nil_r in Hnd2. exact Hnd2.
      * lia.
      * exact Hhits.
    + intros k Hk.
      assert (Hin : In k (key :: rl0)) by (rewrite Heq; apply in_or_app; auto).
      destruct Hin as [->|Hin]; auto.
    + intros Hc. apply Hhit' in Hc. lia.
  - exists {| LRU_base := base; recency_list := key :: rl0 |}, None.
    split; [reflexivity|]. simpl.
    split; [|split; [exact Hbud | split; [exact Hacc | split]]].
    + constructor; simpl; [lia | exact Hnd2 | lia | exact Hhits].
    + intros k [->|Hin]; auto.
    + intros Hc. split; [reflexivity|]. intros k. split.
      * intros [->|Hin]; [apply list_contains_In; exact Hc | auto].
      * intros Hk. destruct (remove_if_present_hit _ _ _ k Hrm Hk) as [->|Hin]; auto.
Qed.

(** ** Construction *)

Lemma CachePolicy_init_ok (b : Z) :
  0 < b -> CachePolicy_init b = Ok {| budget := b; hits := 0; accesses := 0 |}.
Proof.
  intros Hb. unfold CachePolicy_init.
  destruct (Z.gtb_spec b 0); [reflexivity | lia].
Qed.

Lemma CachePolicy_init_fails (b : Z) :
  b <= 0 -> CachePolicy_init b = Raise AssertionError.
Proof.
  intros Hb. unfold CachePolicy_init.
  destruct (Z.gtb_spec b 0); [lia | reflexivity].
Qed.

Lemma LFU_init_wf (b : Z) :
  0 < b ->
  exists self, LFU_init b = Ok self /\ LFU_wf self /\
               LFU_base self = {| budget := b; hits := 0; accesses := 0 |} /\
               frequency_counter self = [].
Proof.
  intros Hb. unfold LFU_init. rewrite CachePolicy_init_ok by exact Hb.
  eexists. split; [reflexivity|]. split; [|split; reflexivity].
  constructor; simpl; [lia | constructor | unfold len; simpl; lia | constructor | lia].
Qed.

Lemma LRU_init_wf (b : Z) :
  0 < b ->
  exists self, LRU_init b = Ok self /\ LRU_wf self /\
               LRU_base self = {| budget := b; hits := 0; accesses := 0 |} /\
               recency_list self = [].
Proof.
  intros Hb. unfold LRU_init. rewrite CachePolicy_init_ok by exact Hb.
  eexists. split; [reflexivity|]. split; [|split; reflexivity].
  constructor; simpl; [lia | constructor | unfold len; simpl; lia | lia].
Qed.

(** ** Runs of LFU and LRU *)

Lemma LFU_run_spec (trace : list CacheKey) :
  forall self : LFU,
    LFU_wf self ->
    exists self' outs,
      LFU_run self trace = Ok (self', outs) /\
      LFU_wf self' /\
      budget (LFU_base self') = budget (LFU_base self) /\
      accesses (LFU_base self') = accesses (LFU_base self) + len trace /\
      List.length outs = List.length trace.
Proof.
  induction trace as [|key rest IH]; intros self Hwf.
  - exists self, []. simpl. unfold len. simpl.
    split; [reflexivity|]. split; [exact Hwf|]. repeat split; lia.
  - destruct (LFU_access_spec self key Hwf) as (s1 & r & Hacc & Hwf1 & Hb1 & Ha1 & _).
    destruct (IH s1 Hwf1) as (s2 & outs & Hrun & Hwf2 & Hb2 & Ha2 & Hlen).
    exists s2, (r :: outs). simpl. rewrite Hacc. cbn [bind]. rewrite Hrun. cbn [bind].
    rewrite len_cons. simpl.
    split; [reflexivity|]. split; [exact Hwf2|]. repeat split; try congruence; lia.
Qed.

Lemma LRU_run_spec (trace : list CacheKey) :
  forall self : LRU,
    LRU_wf self ->
    exists self' outs,
      LRU_run self trace = Ok (self', outs) /\
      LRU_wf self' /\
      budget (LRU_base self') = budget (LRU_base self) /\
      accesses (LRU_base self') = accesses (LRU_base self) + len trace /\
      List.length outs = List.length trace.
Proof.
  induction trace as [|key rest IH]; intros self Hwf.
  - exists self, []. simpl. unfold len. simpl.
    split; [reflexivity|]. split; [exact Hwf|]. repeat split; lia.
  - destruct (LRU_access_spec self key Hwf) as (s1 & r & Hacc & Hwf1 & Hb1 & Ha1 & _).
    destruct (IH s1 Hwf1) as (s2 & outs & Hrun & Hwf2 & Hb2 & Ha2 & Hlen).
    exists s2, (r :: outs). simpl. rewrite Hacc. cbn [bind]. rewrite Hrun. cbn [bind].
    rewrite len_cons. simpl.
    split; [reflexivity|]. split; [exact Hwf2|]. repeat split; try congruence; lia.
Qed.

(** ** LCR *)

Lemma LCR_init_wf (b : Z) :
  0 < b ->
  exists self, LCR_init b = Ok self /\ LCR_wf self /\
               LCR_base self = {| budget := b; hits := 0; accesses := 0 |} /\
               w_lfu self = 0.5%float /\ w_lru self = 0.5%float.
Proof.
  intros Hb. unfold LCR_init, LFU_init, LRU_init.
  rewrite CachePolicy_init_ok by exact Hb. cbn [bind].
  eexists. split; [reflexivity|]. split; [|repeat split].
  constructor; simpl; try lia; try reflexivity.
  - split; [exact Binary64_facts.unit_interval_half | reflexivity].
  - constructor; simpl; [lia | constructor | unfold len; simpl; lia | constructor | lia].
  - constructor; simpl; [lia | constructor | unfold len; simpl; lia | lia].
  - unfold len; simpl; lia.
  - unfold len; simpl; lia.
Qed.

Lemma record_eviction_spec (b : Z) (history : list CacheKey) (m : option CacheKey) :
  0 < b -> len history <= b ->
  exists history', record_eviction b history m = Ok history' /\ len history' <= b.
Proof.
  intros Hb Hlen. unfold record_eviction.
  destruct m as [evicted|]; [|eauto].
  destruct (truthy (Some evicted)); [|eauto].
  destruct (Z.geb_spec (len history) b) as [Hge|Hlt].
  - destruct (list_pop_spec history) as (r & y & Hpop & Heq).
    { intros ->. unfold len in Hge. simpl in Hge. lia. }
    rewrite Hpop. cbn [bind]. eexists. split; [reflexivity|].
    unfold list_insert0. rewrite len_cons.
    rewrite Heq, len_app in Hlen. unfold len in *. simpl in Hlen. lia.
  - cbn [bind]. eexists. split; [reflexivity|].
    unfold list_insert0. rewrite len_cons. lia.
Qed.

Section LCR_properties.

Variable math_exp : float -> float.

(** The one thing assumed of the C library: [exp(0.45)] is a positive finite
    double. *)
Hypothesis math_exp_ok : Binary64.exp_ok (math_exp learning_rate).

(** With weights in [0, 1] that sum to 1 the division never raises, and the
    update returns such weights again. *)
Lemma update_weight_total (self : LCR) (key : CacheKey) :
  weights_wf self ->
  exists self', update_weight math_exp self key = Ok self' /\ weights_wf self'.
Proof.
  intros [Hu Hf].
  destruct (Binary64_facts.scaled_pairs (w_lru self) _ Hu math_exp_ok) as (P1 & P2 & P3).
  unfold update_weight, float_truediv.
  destruct (list_contains (history_lru self) key);
    [|destruct (list_contains (history_lfu self) key)];
    cbn [set_weights w_lru w_lfu]; rewrite Hf.
  - destruct P2 as (Ha & Hb & Hpos).
    destruct (Binary64_facts.renormalize_ok _ _ Ha Hb Hpos) as [Hne Hq].
    rewrite Hne. cbn [bind set_weights w_lru w_lfu].
    eexists. split; [reflexivity|]. split; [exact Hq | reflexivity].
  - destruct P3 as (Ha & Hb & Hpos).
    destruct (Binary64_facts.renormalize_ok _ _ Ha Hb Hpos) as [Hne Hq].
    rewrite Hne. cbn [bind set_weights w_lru w_lfu].
    eexists. split; [reflexivity|]. split; [exact Hq | reflexivity].
  - destruct P1 as (Ha & Hb & Hpos).
    destruct (Binary64_facts.renormalize_ok _ _ Ha Hb Hpos) as [Hne Hq].
    rewrite Hne. cbn [bind set_weights w_lru w_lfu].
    eexists. split; [reflexivity|]. split; [exact Hq | reflexivity].
Qed.

(** [update_weight] touches the two weights only, and the one way it can
    fail is the division. *)
Lemma update_weight_frame (self : LCR) (key : CacheKey) :
  match update_weight math_exp self key with
  | Ok self' =>
      LCR_base self' = LCR_base self /\
      history_lfu self' = history_lfu self /\
      history_lru self' = history_lru self /\
      lfu_policy self' = lfu_policy self /\
      lru_policy self' = lru_policy self
  | Raise e => e = ZeroDivisionError
  end.
Proof.
  unfold update_weight, float_truediv.
  destruct (list_contains (history_lru self) key);
    [|destruct (list_contains (history_lfu self) key)];
    cbn [w_lru w_lfu set_weights];
    match goal with
    | |- context [PrimFloat.eqb ?a ?b] => destruct (PrimFloat.eqb a b)
    end; cbn [bind]; auto.
Qed.

(** What the miss branch does once the weights are updated: it returns
    [None], keeps the weights, and keeps the object well-formed when the
    accessed key is in neither arm. *)
Lemma access_selected_spec (self : LCR) (arm : PolicyType.t) (key : CacheKey) :
  LCR_wf self ->
  LCR_contains self key = false ->
  exists self',
    access_selected self arm key = Ok (self', None) /\
    LCR_wf self' /\
    LCR_base self' = LCR_base self /\
    w_lfu self' = w_lfu self /\ w_lru self' = w_lru self.
Proof.
  intros [Hb Hw Hlfu Hlru Hbf Hbr Hhf Hhr Hh Hdis] Hmiss.
  apply orb_false_iff in Hmiss. destruct Hmiss as [Hmf Hmr].
  assert (Hnf : ~ In key (keys (frequency_counter (lfu_policy self)))).
  { intros Hin. apply (LFU_contains_In _ _ (LFU_wf_positive _ Hlfu)) in Hin. congruence. }
  assert (Hnr : ~ In key (recency_list (lru_policy self))).
  { apply list_contains_false. exact Hmr. }
  unfold access_selected. destruct arm.
  - destruct (LFU_access_spec _ key Hlfu) as (p & r & Hacc & Hwf & Hbud & _ & Hincl & _).
    destruct (record_eviction_spec _ (history_lfu self) r Hb Hhf) as (h & Hrec & Hlen).
    rewrite Hacc. cbn [bind]. rewrite Hrec. cbn [bind].
    eexists. split; [reflexivity|]. split; [|repeat split].
    constructor; cbn [set_arm_lfu LCR_base lfu_policy lru_policy history_lfu history_lru];
      [exact Hb | exact Hw | exact Hwf | exact Hlru | congruence | exact Hbr
      | exact Hlen | exact Hhr | exact Hh | ].
    intros k Hk Hk'. destruct (Hincl k Hk) as [->|Hold]; eauto.
  - destruct (LRU_access_spec _ key Hlru) as (p & r & Hacc & Hwf & Hbud & _ & Hincl & _).
    destruct (record_eviction_spec _ (history_lru self) r Hb Hhr) as (h & Hrec & Hlen).
    rewrite Hacc. cbn [bind]. rewrite Hrec. cbn [bind].
    eexists. split; [reflexivity|]. split; [|repeat split].
    constructor; cbn [set_arm_lru LCR_base lfu_policy lru_policy history_lfu history_lru];
      [exact Hb | exact Hw | exact Hlfu | exact Hwf | exact Hbf | congruence
      | exact Hhf | exact Hlen | exact Hh | ].
    intros k Hk Hk'. destruct (Hincl k Hk') as [->|Hold]; eauto.
Qed.

(** The hit branch of [LCR.access]. *)
Lemma LCR_access_hit (self : LCR) (rnd : bool) (key : CacheKey) :
  LCR_wf self ->
  LCR_contains self key = true ->
  exists self',
    LCR_access math_exp self rnd key = Ok (self', None) /\
    LCR_wf self' /\
    budget (LCR_base self') = budget (LCR_base self) /\
    accesses (LCR_base self') = accesses (LCR_base self) + 1 /\
    hits (LCR_base self') = hits (LCR_base self) + 1 /\
    w_lfu self' = w_lfu self /\ w_lru self' = w_lru self.
Proof.
  intros [Hb Hw Hlfu Hlru Hbf Hbr Hhf Hhr Hh Hdis] Hhit.
  unfold LCR_access.
  change (LCR_contains (set_base self (incr_accesses (LCR_base self))) key)
    with (LCR_contains self key).
  rewrite Hhit. cbn [set_base lfu_policy lru_policy history_lfu history_lru LCR_base].
  destruct (LFU_contains (lfu_policy self) key) eqn:Hf.
  - destruct (LFU_access_spec _ key Hlfu) as (p & r & Hacc & Hwf & Hbud & _ & _ & Hsame).
    destruct (Hsame Hf) as [-> Hkeys].
    rewrite Hacc. cbn [bind].
    eexists. split; [reflexivity|]. split; [|repeat split; simpl; lia].
    constructor; simpl;
      [exact Hb | exact Hw | exact Hwf | exact Hlru | congruence | exact Hbr
      | exact Hhf | exact Hhr | lia | rewrite Hkeys; exact Hdis].
  - unfold LCR_contains in Hhit. rewrite Hf in Hhit. simpl in Hhit. rewrite Hhit.
    destruct (LRU_access_spec _ key Hlru) as (p & r & Hacc & Hwf & Hbud & _ & _ & Hsame).
    destruct (Hsame Hhit) as [-> Hkeys].
    rewrite Hacc. cbn [bind].
    eexists. split; [reflexivity|]. split; [|repeat split; simpl; lia].
    constructor; simpl;
      [exact Hb | exact Hw | exact Hlfu | exact Hwf | exact Hbf | congruence
      | exact Hhf | exact Hhr | lia | ].
    intros k Hk Hk'. apply Hkeys in Hk'. eauto.
Qed.

(** The miss branch of [LCR.access]: the weight update, then the selected
    arm.  It returns [None]. *)
Lemma LCR_access_miss (self : LCR) (rnd : bool) (key : CacheKey) :
  LCR_wf self ->
  LCR_contains self key = false ->
  exists self1 self',
    update_weight math_exp (set_base self (incr_accesses (LCR_base self))) key = Ok self1 /\
    LCR_access math_exp self rnd key = Ok (self', None) /\
    LCR_wf self' /\
    budget (LCR_base self') = budget (LCR_base self) /\
    accesses (LCR_base self') = accesses (LCR_base self) + 1 /\
    hits (LCR_base self') = hits (LCR_base self) /\
    w_lfu self' = w_lfu self1 /\ w_lru self' = w_lru self1.
Proof.
  intros Hwf Hmiss.
  unfold LCR_access.
  change (LCR_contains (set_base self (incr_accesses (LCR_base self))) key)
    with (LCR_contains self key).
  rewrite Hmiss.
  pose proof (update_weight_frame (set_base self (incr_accesses (LCR_base self))) key) as Hfr.
  destruct (update_weight_total (set_base self (incr_accesses (LCR_base self))) key)
    as (self1 & Hup & Hw1); [exact (LCR_wf_weights _ Hwf)|].
  rewrite Hup in Hfr |- *. cbn [bind].
  destruct Hfr as (Hbase & Hhf & Hhr & Hpf & Hpr).
  cbn [set_base LCR_base history_lfu history_lru lfu_policy lru_policy] in *.
  destruct Hwf as [Hb Hw Hlfu Hlru Hbf Hbr Hlf Hlr Hh Hdis].
  assert (Hwf1 : LCR_wf self1).
  { constructor; rewrite ?Hbase, ?Hhf, ?Hhr, ?Hpf, ?Hpr; simpl; auto; lia. }
  assert (Hmiss1 : LCR_contains self1 key = false).
  { unfold LCR_contains in *. rewrite Hpf, Hpr. exact Hmiss. }
  destruct (access_selected_spec self1
              (select_policy_and_history self1 rnd) key Hwf1 Hmiss1)
    as (self' & Hacc & Hwf' & Hbase' & Hw1' & Hw2').
  exists self1, self'. rewrite Hacc, Hbase', Hbase. simpl.
  split; [reflexivity|]. split; [reflexivity|]. split; [exact Hwf'|]. repeat split; auto.
Qed.

End LCR_properties.

Lemma LFU_session_spec (b : Z) (trace : list CacheKey) :
  0 < b ->
  exists self outs,
    LFU_session b trace = Ok (self, outs) /\ LFU_wf self /\
    budget (LFU_base self) = b /\ accesses (LFU_base self) = len trace.
Proof.
  intros Hb. unfold LFU_session.
  destruct (LFU_init_wf b Hb) as (s0 & -> & Hwf0 & Hbase & _). cbn [bind].
  destruct (LFU_run_spec trace s0 Hwf0) as (s & outs & Hrun & Hwf & Hbud & Hacc & _).
  exists s, outs. rewrite Hbud, Hacc, Hbase. simpl. auto.
Qed.

Lemma LRU_session_spec (b : Z) (trace : list CacheKey) :
  0 < b ->
  exists self outs,
    LRU_session b trace = Ok (self, outs) /\ LRU_wf self /\
    budget (LRU_base self) = b /\ accesses (LRU_base self) = len trace.
Proof.
  intros Hb. unfold LRU_session.
  destruct (LRU_init_wf b Hb) as (s0 & -> & Hwf0 & Hbase & _). cbn [bind].
  destruct (LRU_run_spec trace s0 Hwf0) as (s & outs & Hrun & Hwf & Hbud & Hacc & _).
  exists s, outs. rewrite Hbud, Hacc, Hbase. simpl. auto.
Qed.

Section LCR_runs.

Variable math_exp : float -> float.
Hypothesis math_exp_ok : Binary64.exp_ok (math_exp learning_rate).

(** One access of a well-formed LCR completes, returns [None] and leaves a
    well-formed LCR. *)
Lemma LCR_access_spec (self : LCR) (rnd : bool) (key : CacheKey) :
  LCR_wf self ->
  exists self',
    LCR_access math_exp self rnd key = Ok (self', None) /\
    LCR_wf self' /\
    budget (LCR_base self') = budget (LCR_base self) /\
    accesses (LCR_base self') = accesses (LCR_base self) + 1.
Proof.
  intros Hwf. destruct (LCR_contains self key) eqn:Hc.
  - destruct (LCR_access_hit math_exp self rnd key Hwf Hc)
      as (self' & Hacc & Hwf' & Hb & Ha & _). eauto.
  - destruct (LCR_access_miss math_exp math_exp_ok self rnd key Hwf Hc)
      as (self1 & self' & _ & Hacc & Hwf' & Hb & Ha & _). eauto.
Qed.

Lemma LCR_run_spec (trace : list (CacheKey * bool)) :
  forall self : LCR,
    LCR_wf self ->
    exists self' outs,
      LCR_run math_exp self trace = Ok (self', outs) /\
      LCR_wf self' /\
      budget (LCR_base self') = budget (LCR_base self) /\
      accesses (LCR_base self') = accesses (LCR_base self) + len trace /\
      Forall (fun r => r = None) outs.
Proof.
  induction trace as [|[key rnd] rest IH]; intros self Hwf.
  - exists self, []. simpl. unfold len. simpl.
    split; [reflexivity|]. split; [exact Hwf|]. repeat split; auto; lia.
  - destruct (LCR_access_spec self rnd key Hwf) as (s1 & Hacc & Hwf1 & Hb1 & Ha1).
    destruct (IH s1 Hwf1) as (s2 & outs & Hrun & Hwf2 & Hb2 & Ha2 & Hout).
    exists s2, (None :: outs). simpl. rewrite Hacc. cbn [bind]. rewrite Hrun. cbn [bind].
    rewrite len_cons. split; [reflexivity|]. split; [exact Hwf2|].
    split; [congruence|]. split; [lia|]. constructor; auto.
Qed.

Lemma LCR_session_spec (b : Z) (trace : list (CacheKey * bool)) :
  0 < b ->
  exists self outs,
    LCR_session math_exp b trace = Ok (self, outs) /\
    LCR_wf self /\ budget (LCR_base self) = b /\
    accesses (LCR_base self) = len trace /\
    Forall (fun r => r = None) outs.
Proof.
  intros Hb. unfold LCR_session.
  destruct (LCR_init_wf b Hb) as (s0 & -> & Hwf0 & Hbase & _). cbn [bind].
  destruct (LCR_run_spec trace s0 Hwf0) as (s & outs & Hrun & Hwf & Hbud & Hacc & Hout).
  exists s, outs. rewrite Hbud, Hacc, Hbase. simpl. auto.
Qed.

End LCR_runs.

(** * The claims *)

Lemma exp_045_ok : Binary64.exp_ok (exp_045 learning_rate).
Proof. split; reflexivity. Qed.

(** ** Hit rate before any access *)

Lemma float_of_int_0 : float_of_int 0 = Ok 0%float.
Proof. reflexivity. Qed.

(** With no access counted, [hitrate] has nothing to return: its division
    raises (or the conversion of [hits] before it does). *)
Lemma hitrate_no_access (self : CachePolicy) :
  accesses self = 0 -> exists e, hitrate self = Raise e.
Proof.
  intros Ha. unfold hitrate. rewrite Ha.
  destruct (float_of_int (hits self)) as [h|e]; cbn [bind]; [|eauto].
  rewrite float_of_int_0. cbn [bind]. exists ZeroDivisionError. reflexivity.
Qed.

(** C1.  The claim is that [hitrate] returns 0.0 when [accesses == 0].  The
    code divides by [self.accesses] unguarded: on a freshly constructed LFU,
    LRU or LCR (here of budget 3) [hitrate] raises [ZeroDivisionError]. *)
Theorem hitrate_fresh_raises :
  (self <- LFU_init 3 ;; LFU_hitrate self) = Raise ZeroDivisionError /\
  (self <- LRU_init 3 ;; LRU_hitrate self) = Raise ZeroDivisionError /\
  (self <- LCR_init 3 ;; LCR_hitrate self) = Raise ZeroDivisionError.
Proof. repeat split; reflexivity. Qed.

(** ** What [LCR.access] returns *)

(** Every completed [LCR.access] on a well-formed object returns [None]: a hit
    evicts nothing, and the miss branch has no [return]. *)
Lemma access_selected_None (self self' : LCR) (arm : PolicyType.t)
    (key : CacheKey) (r : option CacheKey) :
  access_selected self arm key = Ok (self', r) -> r = None.
Proof.
  unfold access_selected. destruct arm.
  - destruct (LFU_access (lfu_policy self) key) as [[p m]|e]; cbn [bind]; [|discriminate].
    destruct (record_eviction _ _ m) as [h|e]; cbn [bind]; [|discriminate].
    intros H. inversion H; subst. reflexivity.
  - destruct (LRU_access (lru_policy self) key) as [[p m]|e]; cbn [bind]; [|discriminate].
    destruct (record_eviction _ _ m) as [h|e]; cbn [bind]; [|discriminate].
    intros H. inversion H; subst. reflexivity.
Qed.

Lemma LCR_access_returns_None (math_exp : float -> float)
    (self self' : LCR) (rnd : bool) (key : CacheKey) (r : option CacheKey) :
  LCR_wf self -> LCR_access math_exp self rnd key = Ok (self', r) -> r = None.
Proof.
  intros Hwf Hacc. destruct (LCR_contains self key) eqn:Hc.
  - destruct (LCR_access_hit math_exp self rnd key Hwf Hc) as (s1 & Hacc' & _).
    rewrite Hacc' in Hacc. inversion Hacc; subst. reflexivity.
  - unfold LCR_access in Hacc.
    change (LCR_contains (set_base self (incr_accesses (LCR_base self))) key)
      with (LCR_contains self key) in Hacc.
    rewrite Hc in Hacc.
    destruct (update_weight math_exp (set_base self (incr_accesses (LCR_base self))) key)
      as [self1|e]; cbn [bind] in Hacc; [|discriminate].
    apply access_selected_None in Hacc. exact Hacc.
Qed.

(** C2.  The claim is that [LCR.access] returns what the arm it delegated to
    returned.  On a miss it does not: with budget 1 and the frequency arm
    drawn twice, the second access (of "b") makes that arm evict and return
    "a", "a" is pushed on [history_lfu], and [LCR.access] returns [None]. *)
Theorem LCR_access_drops_eviction (math_exp : float -> float) :
  exists self1 self1' self2 lfu',
    (self <- LCR_init 1 ;; LCR_access math_exp self true "a") = Ok (self1, None) /\
    LCR_contains self1 "b" = false /\
    update_weight math_exp (set_base self1 (incr_accesses (LCR_base self1))) "b" = Ok self1' /\
    select_policy_and_history self1' true = PolicyType.LFU /\
    LFU_access (lfu_policy self1') "b" = Ok (lfu', Some "a") /\
    LCR_access math_exp self1 true "b" = Ok (self2, None) /\
    lfu_policy self2 = lfu' /\
    history_lfu self2 = ["a"].
Proof.
  do 4 eexists.
  split; [vm_compute; reflexivity|].
  split; [vm_compute; reflexivity|].
  split; [vm_compute; reflexivity|].
  split; [vm_compute; reflexivity|].
  split; [vm_compute; reflexivity|].
  split; [vm_compute; reflexivity|].
  split; vm_compute; reflexivity.
Qed.

(** ** Construction *)

(** C3.  For each of the three policies, construction with [budget <= 0]
    raises [AssertionError] and yields no instance; construction with a
    positive budget returns the fresh instance. *)
Theorem construction_checks_budget (b : Z) :
  (b <= 0 ->
     LFU_init b = Raise AssertionError /\
     LRU_init b = Raise AssertionError /\
     LCR_init b = Raise AssertionError) /\
  (0 < b ->
     let base := {| budget := b; hits := 0; accesses := 0 |} in
     LFU_init b = Ok {| LFU_base := base; frequency_counter := [] |} /\
     LRU_init b = Ok {| LRU_base := base; recency_list := [] |} /\
     LCR_init b = Ok {| LCR_base := base;
                        history_lfu := []; history_lru := [];
                        lfu_policy := {| LFU_base := base; frequency_counter := [] |};
                        lru_policy := {| LRU_base := base; recency_list := [] |};
                        w_lfu := 0.5%float; w_lru := 0.5%float |}).
Proof.
  split; intros Hb.
  - unfold LCR_init, LFU_init, LRU_init.
    rewrite CachePolicy_init_fails by exact Hb. cbn [bind]. auto.
  - unfold LCR_init, LFU_init, LRU_init.
    rewrite CachePolicy_init_ok by exact Hb. cbn.
    split; [|split]; reflexivity.
Qed.

Lemma construction_checks_budget_witness :
  LFU_init 0 = Raise AssertionError /\
  LCR_init (-1) = Raise AssertionError /\
  LRU_init 2 = Ok {| LRU_base := {| budget := 2; hits := 0; accesses := 0 |};
                     recency_list := [] |}.
Proof.
  split; [|split].
  - apply (proj1 (construction_checks_budget 0)). lia.
  - apply (proj1 (construction_checks_budget (-1))). lia.
  - apply (proj2 (construction_checks_budget 2)). lia.
Defined.

(** ** Bounded residency *)

(** C4.  With a positive budget, after any trace of accesses on a fresh policy
    the resident structures hold at most [budget] keys: the frequency table
    (whose keys are distinct), the recency list, and for LCR both arms and both
    eviction histories, whatever the draws.  Every trace runs to its end, and
    every prefix of a trace is a trace, so this is the state after each access.
    For LCR the C library's [exp(0.45)] is taken to be a positive finite
    double. *)
Theorem resident_structures_bounded (b : Z) :
  0 < b ->
  (forall trace, exists self outs,
      LFU_session b trace = Ok (self, outs) /\
      NoDup (keys (frequency_counter self)) /\
      len (frequency_counter self) <= b) /\
  (forall trace, exists self outs,
      LRU_session b trace = Ok (self, outs) /\
      len (recency_list self) <= b) /\
  (forall math_exp trace,
      Binary64.exp_ok (math_exp learning_rate) ->
      exists self outs,
        LCR_session math_exp b trace = Ok (self, outs) /\
        len (frequency_counter (lfu_policy self)) <= b /\
        len (recency_list (lru_policy self)) <= b /\
        len (history_lfu self) <= b /\
        len (history_lru self) <= b).
Proof.
  intros Hb. split; [|split].
  - intros trace.
    destruct (LFU_session_spec b trace Hb) as (self & outs & Hs & Hwf & Hbud & _).
    exists self, outs. destruct Hwf as [_ Hnd Hsz _ _]. rewrite Hbud in Hsz. auto.
  - intros trace.
    destruct (LRU_session_spec b trace Hb) as (self & outs & Hs & Hwf & Hbud & _).
    exists self, outs. destruct Hwf as [_ _ Hsz _]. rewrite Hbud in Hsz. auto.
  - intros math_exp trace Hexp.
    destruct (LCR_session_spec math_exp Hexp b trace Hb) as (self & outs & Hs & Hwf & Hbud & _).
    exists self, outs.
    destruct Hwf as [_ _ Hlfu Hlru Hbf Hbr Hhf Hhr _ _].
    destruct Hlfu as [_ _ Hsf _ _]. destruct Hlru as [_ _ Hsr _].
    rewrite Hbf, Hbud in Hsf. rewrite Hbr, Hbud in Hsr. rewrite Hbud in Hhf, Hhr.
    auto.
Qed.

Lemma resident_structures_bounded_witness :
  (exists self outs,
      LFU_session 2 ["a"; "b"; "a"; "c"] = Ok (self, outs) /\
      NoDup (keys (frequency_counter self)) /\
      len (frequency_counter self) <= 2) /\
  (exists self outs,
      LRU_session 2 ["a"; "b"; "a"; "c"] = Ok (self, outs) /\
      len (recency_list self) <= 2) /\
  (exists self outs,
      LCR_session exp_045 2 [("a", true); ("b", true); ("c", true); ("a", false)]
        = Ok (self, outs) /\
      len (frequency_counter (lfu_policy self)) <= 2 /\
      len (recency_list (lru_policy self)) <= 2 /\
      len (history_lfu self) <= 2 /\
      len (history_lru self) <= 2).
Proof.
  assert (Hb : 0 < 2) by lia.
  destruct (resident_structures_bounded 2 Hb) as (Hlfu & Hlru & Hlcr).
  split; [apply Hlfu | split; [apply Hlru | apply Hlcr; exact exp_045_ok]].
Defined.

(** ** Accounting *)

(** C5.  From the state after any trace on a fresh policy of positive budget,
    one more access completes, adds exactly 1 to that instance's [accesses],
    and [hits <= accesses] holds before and after it.  For LCR the C
    library's [exp(0.45)] is taken to be a positive finite double. *)
Theorem accesses_count_every_call (b : Z) :
  0 < b ->
  (forall trace key, exists self outs self' r,
      LFU_session b trace = Ok (self, outs) /\
      LFU_access self key = Ok (self', r) /\
      accesses (LFU_base self') = accesses (LFU_base self) + 1 /\
      hits (LFU_base self) <= accesses (LFU_base self) /\
      hits (LFU_base self') <= accesses (LFU_base self')) /\
  (forall trace key, exists self outs self' r,
      LRU_session b trace = Ok (self, outs) /\
      LRU_access self key = Ok (self', r) /\
      accesses (LRU_base self') = accesses (LRU_base self) + 1 /\
      hits (LRU_base self) <= accesses (LRU_base self) /\
      hits (LRU_base self') <= accesses (LRU_base self')) /\
  (forall math_exp trace rnd key,
      Binary64.exp_ok (math_exp learning_rate) ->
      exists self outs self' r,
        LCR_session math_exp b trace = Ok (self, outs) /\
        LCR_access math_exp self rnd key = Ok (self', r) /\
        accesses (LCR_base self') = accesses (LCR_base self) + 1 /\
        hits (LCR_base self) <= accesses (LCR_base self) /\
        hits (LCR_base self') <= accesses (LCR_base self')).
Proof.
  intros Hb. split; [|split].
  - intros trace key.
    destruct (LFU_session_spec b trace Hb) as (self & outs & Hs & Hwf & _).
    destruct (LFU_access_spec self key Hwf) as (self' & r & Hacc & Hwf' & _ & Ha & _).
    exists self, outs, self', r.
    pose proof (LFU_wf_hits _ Hwf). pose proof (LFU_wf_hits _ Hwf').
    repeat split; auto; lia.
  - intros trace key.
    destruct (LRU_session_spec b trace Hb) as (self & outs & Hs & Hwf & _).
    destruct (LRU_access_spec self key Hwf) as (self' & r & Hacc & Hwf' & _ & Ha & _).
    exists self, outs, self', r.
    pose proof (LRU_wf_hits _ Hwf). pose proof (LRU_wf_hits _ Hwf').
    repeat split; auto; lia.
  - intros math_exp trace rnd key Hexp.
    destruct (LCR_session_spec math_exp Hexp b trace Hb) as (self & outs & Hs & Hwf & _).
    destruct (LCR_access_spec math_exp Hexp self rnd key Hwf) as (self' & Hacc & Hwf' & _ & Ha).
    exists self, outs, self', None.
    pose proof (LCR_wf_hits _ Hwf). pose proof (LCR_wf_hits _ Hwf').
    repeat split; auto; lia.
Qed.

Lemma accesses_count_every_call_witness :
  (exists self outs self' r,
     LFU_session 2 ["a"; "b"] = Ok (self, outs) /\
     LFU_access self "a" = Ok (self', r) /\
     accesses (LFU_base self') = accesses (LFU_base self) + 1 /\
     hits (LFU_base self) <= accesses (LFU_base self) /\
     hits (LFU_base self') <= accesses (LFU_base self')) /\
  (exists self outs self' r,
     LCR_session exp_045 2 [("a", true); ("b", false)] = Ok (self, outs) /\
     LCR_access exp_045 self true "a" = Ok (self', r) /\
     accesses (LCR_base self') = accesses (LCR_base self) + 1 /\
     hits (LCR_base self) <= accesses (LCR_base self) /\
     hits (LCR_base self') <= accesses (LCR_base self')).
Proof.
  assert (Hb : 0 < 2) by lia.
  destruct (accesses_count_every_call 2 Hb) as (Hlfu & _ & Hlcr).
  split; [apply Hlfu | apply Hlcr; exact exp_045_ok].
Defined.

(** ** The LFU eviction rule *)

(** C6.  In any state an LFU of positive budget reaches, when
    [self.frequency_counter[key] += 1] leaves more than [budget] entries, the
    access returns a key [k] whose entry [(k, v)] is the first of least count
    in insertion order: every entry inserted before it has a count above [v],
    every entry inserted after it a count of at least [v]; and that entry is
    the one removed. *)
Theorem LFU_evicts_first_least_frequent
    (b : Z) (trace : list CacheKey) (self : LFU) (outs : list (option CacheKey))
    (key : CacheKey) :
  LFU_session b trace = Ok (self, outs) ->
  budget (LFU_base self) < len (Counter_incr (frequency_counter self) key) ->
  exists self' before k v after,
    LFU_access self key = Ok (self', Some k) /\
    Counter_incr (frequency_counter self) key = before ++ (k, v) :: after /\
    Forall (fun e => v < snd e) before /\
    Forall (fun e => v <= snd e) after /\
    frequency_counter self' = before ++ after.
Proof.
  intros Hs Hover.
  assert (Hnd : NoDup (keys (frequency_counter self))).
  { destruct (Z_lt_le_dec 0 b) as [Hb|Hb].
    - destruct (LFU_session_spec b trace Hb) as (s & o & Hs' & Hwf & _).
      rewrite Hs in Hs'. inversion Hs'; subst. apply Hwf.
    - unfold LFU_session, LFU_init in Hs.
      rewrite CachePolicy_init_fails in Hs by exact Hb. discriminate. }
  destruct (LFU_access_evicts self key Hnd Hover)
    as (self' & l1 & k & v & l2 & Hacc & Heq & H1 & H2 & Hfc & _).
  exists self', l1, k, v, l2. auto.
Qed.

Lemma LFU_evicts_first_least_frequent_witness :
  exists self' before k v after,
    LFU_access {| LFU_base := {| budget := 2; hits := 1; accesses := 3 |};
                  frequency_counter := [("a", 2); ("b", 1)] |} "c"
      = Ok (self', Some k) /\
    [("a", 2); ("b", 1); ("c", 1)] = before ++ (k, v) :: after /\
    Forall (fun e => v < snd e) before /\
    Forall (fun e => v <= snd e) after /\
    frequency_counter self' = before ++ after.
Proof.
  apply (LFU_evicts_first_least_frequent 2 ["a"; "b"; "a"]
           {| LFU_base := {| budget := 2; hits := 1; accesses := 3 |};
              frequency_counter := [("a", 2); ("b", 1)] |}
           [None; None; None] "c").
  - reflexivity.
  - vm_compute. reflexivity.
Defined.

(** ** The test vector *)

(** C9.  The trace [a, b, a, c] on a fresh LFU and on a fresh LRU of budget 2
    returns [None, None, None, 'b']. *)
Theorem test_lfu_lru :
  (exists self, LFU_session 2 ["a"; "b"; "a"; "c"] = Ok (self, [None; None; None; Some "b"])) /\
  (exists self, LRU_session 2 ["a"; "b"; "a"; "c"] = Ok (self, [None; None; None; Some "b"])).
Proof. split; eexists; reflexivity. Qed.

(** ** The weight update *)

Lemma update_weight_weights (math_exp : float -> float)
    (self self' : LCR) (key : CacheKey) :
  update_weight math_exp self key = Ok self' ->
  weights self' =
    spec_weight_update math_exp
      (list_contains (history_lru self) key) (list_contains (history_lfu self) key)
      (w_lfu self) (w_lru self) /\
  history_lfu self' = history_lfu self /\ history_lru self' = history_lru self.
Proof.
  unfold update_weight, spec_weight_update, float_truediv, weights.
  destruct (list_contains (history_lru self) key);
    [|destruct (list_contains (history_lfu self) key)];
    cbn [w_lru w_lfu set_weights fst snd history_lfu history_lru];
    match goal with
    | |- context [PrimFloat.eqb ?a ?b] => destruct (PrimFloat.eqb a b)
    end; cbn [bind]; intros H; inversion H; subst; auto.
Qed.

Lemma access_selected_weights (self self' : LCR) (arm : PolicyType.t)
    (key : CacheKey) (r : option CacheKey) :
  access_selected self arm key = Ok (self', r) -> weights self' = weights self.
Proof.
  unfold access_selected, weights. destruct arm.
  - destruct (LFU_access (lfu_policy self) key) as [[p m]|e]; cbn [bind]; [|discriminate].
    destruct (record_eviction _ _ m) as [h|e]; cbn [bind]; [|discriminate].
    intros H. inversion H; subst. reflexivity.
  - destruct (LRU_access (lru_policy self) key) as [[p m]|e]; cbn [bind]; [|discriminate].
    destruct (record_eviction _ _ m) as [h|e]; cbn [bind]; [|discriminate].
    intros H. inversion H; subst. reflexivity.
Qed.

(** C7.  On a miss, [LCR.access] first runs the weight update and then selects
    the arm from the updated weights; when the call returns, the weights are
    those of the spec's update rule applied to the weights and histories the
    call started from.  On a hit the weights are left as they were. *)
Theorem miss_updates_weights_before_selection
    (math_exp : float -> float) (self self' : LCR) (rnd : bool)
    (key : CacheKey) (r : option CacheKey) :
  LCR_access math_exp self rnd key = Ok (self', r) ->
  if LCR_contains self key then weights self' = weights self
  else
    LCR_access math_exp self rnd key =
      (self1 <- update_weight math_exp (set_base self (incr_accesses (LCR_base self))) key ;;
       access_selected self1 (select_policy_and_history self1 rnd) key) /\
    weights self' =
      spec_weight_update math_exp
        (list_contains (history_lru self) key) (list_contains (history_lfu self) key)
        (w_lfu self) (w_lru self).
Proof.
  intros Hacc. unfold LCR_access in *.
  change (LCR_contains (set_base self (incr_accesses (LCR_base self))) key)
    with (LCR_contains self key) in *.
  destruct (LCR_contains self key).
  - cbn [set_base lfu_policy lru_policy history_lfu history_lru LCR_base] in Hacc.
    destruct (LFU_contains (lfu_policy self) key).
    + destruct (LFU_access (lfu_policy self) key) as [[p m]|e]; cbn [bind] in Hacc;
        [|discriminate].
      inversion Hacc; subst. reflexivity.
    + destruct (LRU_contains (lru_policy self) key).
      * destruct (LRU_access (lru_policy self) key) as [[p m]|e]; cbn [bind] in Hacc;
          [|discriminate].
        inversion Hacc; subst. reflexivity.
      * inversion Hacc; subst. reflexivity.
  - split; [reflexivity|].
    destruct (update_weight math_exp (set_base self (incr_accesses (LCR_base self))) key)
      as [self1|e] eqn:Hup; cbn [bind] in Hacc; [|discriminate].
    apply access_selected_weights in Hacc. rewrite Hacc.
    apply update_weight_weights in Hup. apply Hup.
Qed.

(** After "a", "b" on the frequency arm of an LCR of budget 1, "a" sits in
    [history_lfu]; the next access of "a" is a miss that scales [w_lru]. *)
Lemma miss_updates_weights_before_selection_witness :
  let math_exp := exp_045 in
  let base := {| budget := 1; hits := 0; accesses := 2 |} in
  let self := {| LCR_base := base;
                 history_lfu := ["a"]; history_lru := [];
                 lfu_policy := {| LFU_base := base; frequency_counter := [("b", 1)] |};
                 lru_policy := {| LRU_base := {| budget := 1; hits := 0; accesses := 0 |};
                                  recency_list := [] |};
                 w_lfu := 0.5%float; w_lru := 0.5%float |} in
  exists self',
    LCR_access math_exp self true "a" = Ok (self', None) /\
    weights self' = spec_weight_update math_exp false true 0.5%float 0.5%float /\
    select_policy_and_history self' true = PolicyType.LRU.
Proof.
  intros math_exp base self.
  eexists. split; [vm_compute; reflexivity|].
  split; [|vm_compute; reflexivity].
  refine (proj2 (miss_updates_weights_before_selection math_exp self _ true "a" None _)).
  vm_compute. reflexivity.
Defined.

(** ** The two arms never share a key *)

(** C10.  After any trace on a fresh LCR of positive budget, whatever the
    draws, no key is present in both arms: [key in lfu_policy] and
    [key in lru_policy] are never both true, so the hit branch never meets a
    key held by both.  The C library's [exp(0.45)] is taken to be a positive
    finite double. *)
Theorem arms_are_disjoint
    (math_exp : float -> float) (b : Z) (trace : list (CacheKey * bool)) :
  0 < b ->
  Binary64.exp_ok (math_exp learning_rate) ->
  exists self outs,
    LCR_session math_exp b trace = Ok (self, outs) /\
    forall key,
      LFU_contains (lfu_policy self) key && LRU_contains (lru_policy self) key = false.
Proof.
  intros Hb Hexp.
  destruct (LCR_session_spec math_exp Hexp b trace Hb) as (self & outs & Hs & Hwf & _).
  exists self, outs. split; [exact Hs|]. intros key.
  destruct (LFU_contains (lfu_policy self) key) eqn:Hf; [|reflexivity].
  destruct (LRU_contains (lru_policy self) key) eqn:Hr; [|reflexivity].
  exfalso. apply (LCR_wf_disjoint _ Hwf key).
  - apply (LFU_contains_In _ _ (LFU_wf_positive _ (LCR_wf_lfu _ Hwf))). exact Hf.
  - apply list_contains_In. exact Hr.
Qed.

(** Three keys on an LCR of budget 2, the recency arm drawn first and the
    frequency arm after. *)
Lemma arms_are_disjoint_witness :
  exists self outs,
    LCR_session exp_045 2 [("a", false); ("b", true); ("a", true)] = Ok (self, outs) /\
    forall key,
      LFU_contains (lfu_policy self) key && LRU_contains (lru_policy self) key = false.
Proof.
  apply (arms_are_disjoint exp_045 2 [("a", false); ("b", true); ("a", true)]).
  - lia.
  - exact exp_045_ok.
Defined.

(** ** The weights stay normalised *)

(** C8.  After construction and after any trace on a fresh LCR of positive
    budget, whatever the draws, both weights lie in [0, 1] and their sum, as
    the double [w_lfu + w_lru], is within one unit in the last place of 1.0:
    between [1 - 2^-53] and [1 + 2^-52].  This is in IEEE-754 double
    arithmetic, every operation rounded to nearest; the C library's
    [exp(0.45)] is taken to be a positive finite double. *)
Theorem weights_stay_normalised
    (math_exp : float -> float) (b : Z) (trace : list (CacheKey * bool)) :
  0 < b ->
  Binary64.exp_ok (math_exp learning_rate) ->
  exists self outs,
    LCR_session math_exp b trace = Ok (self, outs) /\
    PrimFloat.leb 0 (w_lfu self) = true /\ PrimFloat.leb (w_lfu self) 1 = true /\
    PrimFloat.leb 0 (w_lru self) = true /\ PrimFloat.leb (w_lru self) 1 = true /\
    PrimFloat.leb Binary64.below_one (PrimFloat.add (w_lfu self) (w_lru self)) = true /\
    PrimFloat.leb (PrimFloat.add (w_lfu self) (w_lru self)) Binary64.above_one = true.
Proof.
  intros Hb Hexp.
  destruct (LCR_session_spec math_exp Hexp b trace Hb) as (self & outs & Hs & Hwf & _).
  exists self, outs. split; [exact Hs|].
  destruct (LCR_wf_weights _ Hwf) as [Hu Hf].
  pose proof (Binary64_facts.unit_interval_complement _ Hu) as Hu'.
  destruct (Binary64_facts.unit_interval_leb _ Hu) as [H1 H2].
  destruct (Binary64_facts.unit_interval_leb _ Hu') as [H3 H4].
  destruct (Binary64_facts.complement_sum _ Hu) as [H5 H6].
  rewrite Hf. auto 10.
Qed.

(** A trace that exercises the update: "a" is evicted by the frequency arm and
    asked for again, which scales [w_lru]. *)
Lemma weights_stay_normalised_witness :
  exists self outs,
    LCR_session exp_045 1 [("a", true); ("b", true); ("a", true)] = Ok (self, outs) /\
    PrimFloat.leb 0 (w_lfu self) = true /\ PrimFloat.leb (w_lfu self) 1 = true /\
    PrimFloat.leb 0 (w_lru self) = true /\ PrimFloat.leb (w_lru self) 1 = true /\
    PrimFloat.leb Binary64.below_one (PrimFloat.add (w_lfu self) (w_lru self)) = true /\
    PrimFloat.leb (PrimFloat.add (w_lfu self) (w_lru self)) Binary64.above_one = true.
Proof.
  apply (weights_stay_normalised exp_045 1 [("a", true); ("b", true); ("a", true)]).
  - lia.
  - exact exp_045_ok.
Defined.

(** * Further properties *)

(** ** LRU: the three cases of an access *)

Lemma remove_if_present_split (l1 l2 : list CacheKey) (key : CacheKey) :
  ~ In key l1 -> remove_if_present (l1 ++ key :: l2) key = Ok (l1 ++ l2).
Proof.
  intros Hn. unfold remove_if_present.
  assert (H : list_remove (l1 ++ key :: l2) key = Ok (l1 ++ l2)).
  { induction l1 as [|y l1 IH]; simpl.
    - rewrite String.eqb_refl. reflexivity.
    - destruct (String.eqb_spec y key) as [->|Hne]; [simpl in Hn; tauto|].
      rewrite IH by (simpl in Hn; tauto). reflexivity. }
  rewrite H. reflexivity.
Qed.

Lemma remove_if_present_absent (l : list CacheKey) (key : CacheKey) :
  ~ In key l -> remove_if_present l key = Ok l.
Proof.
  intros Hn. unfold remove_if_present. rewrite list_remove_absent by assumption.
  reflexivity.
Qed.

Lemma list_pop_snoc (r : list CacheKey) (y : CacheKey) :
  list_pop (r ++ [y]) = Ok (r, y).
Proof.
  destruct (list_pop_spec (r ++ [y])) as (r' & y' & Hp & Heq).
  - destruct r; discriminate.
  - apply app_inj_tail in Heq. destruct Heq as [-> ->]. exact Hp.
Qed.

Lemma LRU_access_hit_step (self : LRU) (key : CacheKey) (l1 l2 : list CacheKey) :
  recency_list self = l1 ++ key :: l2 ->
  ~ In key l1 ->
  len (recency_list self) <= budget (LRU_base self) ->
  LRU_access self key =
    Ok ({| LRU_base := incr_hits (incr_accesses (LRU_base self));
           recency_list := key :: l1 ++ l2 |}, None).
Proof.
  intros Hl Hn Hsz. unfold LRU_access, LRU_contains.
  assert (Hc : list_contains (recency_list self) key = true).
  { apply list_contains_In. rewrite Hl. apply in_or_app. simpl. auto. }
  rewrite Hc, Hl, remove_if_present_split by assumption. cbn [bind].
  unfold list_insert0.
  assert (Hlen : len (key :: l1 ++ l2) = len (recency_list self)).
  { rewrite Hl, len_cons, !len_app, len_cons. lia. }
  rewrite Hlen.
  destruct (Z.gtb_spec (len (recency_list self))
              (budget (incr_hits (incr_accesses (LRU_base self))))) as [Hgt|Hle].
  - simpl in Hgt. lia.
  - reflexivity.
Qed.

Lemma LRU_access_miss_room (self : LRU) (key : CacheKey) :
  ~ In key (recency_list self) ->
  len (recency_list self) < budget (LRU_base self) ->
  LRU_access self key =
    Ok ({| LRU_base := incr_accesses (LRU_base self);
           recency_list := key :: recency_list self |}, None).
Proof.
  intros Hn Hsz. unfold LRU_access, LRU_contains.
  assert (Hc : list_contains (recency_list self) key = false)
    by (apply list_contains_false; assumption).
  rewrite Hc, remove_if_present_absent by assumption. cbn [bind].
  unfold list_insert0. rewrite len_cons.
  destruct (Z.gtb_spec (len (recency_list self) + 1)
              (budget (incr_accesses (LRU_base self)))) as [Hgt|Hle].
  - simpl in Hgt. lia.
  - reflexivity.
Qed.

Lemma LRU_access_miss_full (self : LRU) (key y : CacheKey) (r : list CacheKey) :
  recency_list self = r ++ [y] ->
  ~ In key (recency_list self) ->
  budget (LRU_base self) <= len (recency_list self) ->
  LRU_access self key =
    Ok ({| LRU_base := incr_accesses (LRU_base self);
           recency_list := key :: r |}, Some y).
Proof.
  intros Hl Hn Hsz. unfold LRU_access, LRU_contains.
  assert (Hc : list_contains (recency_list self) key = false)
    by (apply list_contains_false; assumption).
  rewrite Hc, remove_if_present_absent by assumption. cbn [bind].
  unfold list_insert0. rewrite len_cons.
  destruct (Z.gtb_spec (len (recency_list self) + 1)
              (budget (incr_accesses (LRU_base self)))) as [Hgt|Hle].
  - rewrite Hl. change (key :: r ++ [y]) with ((key :: r) ++ [y]).
    rewrite list_pop_snoc. reflexivity.
  - simpl in Hle. lia.
Qed.

(** ** LRU: the recency order *)

Lemma nodup_snoc (l : list CacheKey) (x : CacheKey) :
  nodup CacheKey_eq_dec (l ++ [x]) = remove CacheKey_eq_dec x (nodup CacheKey_eq_dec l) ++ [x].
Proof.
  induction l as [|y l IH]; simpl.
  - reflexivity.
  - destruct (CacheKey_eq_dec x y) as [<-|Hne].
    + destruct (in_dec CacheKey_eq_dec x (l ++ [x])) as [_|Hn];
        [|exfalso; apply Hn, in_or_app; simpl; auto].
      rewrite IH. destruct (in_dec CacheKey_eq_dec x l); [reflexivity|].
      simpl. destruct (CacheKey_eq_dec x x); [reflexivity | congruence].
    + destruct (in_dec CacheKey_eq_dec y (l ++ [x])) as [Hin|Hn];
        destruct (in_dec CacheKey_eq_dec y l) as [Hin'|Hn'].
      * exact IH.
      * apply in_app_or in Hin. simpl in Hin.
        destruct Hin as [Hin|[Hin|[]]]; [contradiction | congruence].
      * exfalso. apply Hn, in_or_app. auto.
      * simpl. destruct (CacheKey_eq_dec x y); [congruence|].
        rewrite IH. reflexivity.
Qed.

Lemma remove_rev (l : list CacheKey) (x : CacheKey) :
  remove CacheKey_eq_dec x (rev l) = rev (remove CacheKey_eq_dec x l).
Proof.
  induction l as [|y l IH]; [reflexivity|].
  cbn [rev]. rewrite remove_app, IH.
  destruct (CacheKey_eq_dec x y) as [->|Hne].
  - rewrite !remove_cons. apply app_nil_r.
  - cbn [remove]. destruct (CacheKey_eq_dec x y); [congruence|]. reflexivity.
Qed.

Lemma recency_order_snoc (trace : list CacheKey) (key : CacheKey) :
  recency_order (trace ++ [key]) = key :: remove CacheKey_eq_dec key (recency_order trace).
Proof.
  unfold recency_order. rewrite nodup_snoc, rev_app_distr, remove_rev. reflexivity.
Qed.

Lemma recency_order_NoDup (trace : list CacheKey) : NoDup (recency_order trace).
Proof. unfold recency_order. apply NoDup_rev, NoDup_nodup. Qed.

Lemma recency_order_In (trace : list CacheKey) (k : CacheKey) :
  In k (recency_order trace) <-> In k trace.
Proof. unfold recency_order. rewrite <- in_rev. apply nodup_In. Qed.

Lemma firstn_prefix {A : Type} (m : nat) (a b : list A) :
  (List.length a <= m)%nat -> (List.length a = m \/ b = []) ->
  firstn m (a ++ b) = a.
Proof.
  intros Hle [Heq| ->].
  - subst m. rewrite firstn_app, Nat.sub_diag, firstn_all. simpl.
    apply app_nil_r.
  - rewrite app_nil_r. apply firstn_all2. exact Hle.
Qed.

(** One access on the first [n] keys of a duplicate-free order [L] leaves the
    first [n] keys of [key :: (L without key)]. *)
Lemma LRU_access_firstn (self : LRU) (key : CacheKey) (n : nat) (L : list CacheKey) :
  NoDup L ->
  budget (LRU_base self) = Z.of_nat (S n) ->
  recency_list self = firstn (S n) L ->
  exists self' r,
    LRU_access self key = Ok (self', r) /\
    recency_list self' = firstn (S n) (key :: remove CacheKey_eq_dec key L) /\
    budget (LRU_base self') = budget (LRU_base self) /\
    hits (LRU_base self') =
      hits (LRU_base self) + (if list_contains (firstn (S n) L) key then 1 else 0) /\
    r = (if list_contains (firstn (S n) L) key then None
         else nth_error L n).
Proof.
  intros Hnd Hb Hl.
  pose proof (firstn_skipn (S n) L) as HL.
  pose proof (firstn_le_length (S n) L) as Hfl.
  assert (Hsz : len (recency_list self) <= budget (LRU_base self)).
  { rewrite Hl, Hb. unfold len. lia. }
  destruct (list_contains (firstn (S n) L) key) eqn:Hc.
  - apply list_contains_In in Hc.
    destruct (in_split _ _ Hc) as (l1 & l2 & Hsplit).
    assert (HL' : L = l1 ++ key :: l2 ++ skipn (S n) L).
    { rewrite <- HL at 1. rewrite Hsplit, <- app_assoc. reflexivity. }
    assert (Hnd' := Hnd). rewrite HL' in Hnd'.
    pose proof (NoDup_remove_2 _ _ _ Hnd') as Hnin.
    assert (Hn1 : ~ In key l1) by (intros H; apply Hnin, in_or_app; auto).
    assert (Hn2 : ~ In key (l2 ++ skipn (S n) L))
      by (intros H; apply Hnin, in_or_app; auto).
    rewrite (LRU_access_hit_step self key l1 l2) by (try assumption; congruence).
    eexists _, _. split; [reflexivity|]. simpl.
    split; [|split; [reflexivity | split; [lia | reflexivity]]].
    f_equal.
    assert (Hrm : remove CacheKey_eq_dec key L = (l1 ++ l2) ++ skipn (S n) L).
    { rewrite HL' at 1. rewrite remove_app, remove_cons.
      rewrite !notin_remove by assumption. apply app_assoc. }
    assert (Hlen : List.length (firstn (S n) L) = S (List.length (l1 ++ l2))).
    { rewrite Hsplit, !length_app. cbn [List.length]. lia. }
    rewrite length_firstn in Hlen.
    rewrite Hrm. symmetry. apply firstn_prefix.
    + lia.
    + destruct (Nat.le_gt_cases (List.length L) (S n)) as [Hle|Hgt].
      * right. apply skipn_all2. exact Hle.
      * left. lia.
  - apply list_contains_false in Hc.
    destruct (Nat.le_gt_cases (List.length L) n) as [Hle|Hgt].
    + assert (HfL : firstn (S n) L = L) by (apply firstn_all2; lia).
      rewrite HfL in Hc, Hl.
      rewrite (LRU_access_miss_room self key)
        by (rewrite Hl; first [assumption | rewrite Hb; unfold len; lia]).
      eexists _, _. split; [reflexivity|]. simpl.
      split; [|split; [reflexivity | split; [lia|]]].
      * rewrite Hl, notin_remove by assumption.
        f_equal. symmetry. apply firstn_all2. exact Hle.
      * symmetry. apply nth_error_None. exact Hle.
    + assert (Hlen : List.length (firstn (S n) L) = S n)
        by (rewrite length_firstn; lia).
      destruct (exists_last (l := firstn (S n) L)) as (r & y & Hr).
      { intros H. rewrite H in Hlen. discriminate. }
      assert (Hrl : List.length r = n).
      { rewrite Hr, length_app in Hlen. simpl in Hlen. lia. }
      rewrite (LRU_access_miss_full self key y r).
      2:{ rewrite Hl. exact Hr. }
      2:{ rewrite Hl. exact Hc. }
      2:{ rewrite Hl, Hb. unfold len. lia. }
      eexists _, _. split; [reflexivity|]. simpl.
      split; [|split; [reflexivity | split; [lia|]]].
      * f_equal.
        assert (Hrm : remove CacheKey_eq_dec key L
                      = r ++ ([y] ++ remove CacheKey_eq_dec key (skipn (S n) L))).
        { rewrite <- HL at 1. rewrite remove_app.
          rewrite (notin_remove CacheKey_eq_dec (firstn (S n) L)) by assumption.
          rewrite Hr, <- app_assoc. reflexivity. }
        rewrite Hrm. symmetry. apply firstn_prefix; [lia | left; exact Hrl].
      * rewrite <- HL, Hr, <- app_assoc.
        rewrite nth_error_app2 by lia.
        rewrite Hrl, Nat.sub_diag. reflexivity.
Qed.

Lemma LRU_run_app (t1 t2 : list CacheKey) :
  forall self : LRU,
    LRU_run self (t1 ++ t2) =
      ('(s1, o1) <- LRU_run self t1 ;;
       '(s2, o2) <- LRU_run s1 t2 ;;
       Ok (s2, o1 ++ o2)).
Proof.
  induction t1 as [|k t1 IH]; intros self.
  - simpl. destruct (LRU_run self t2) as [[s2 o2]|e]; reflexivity.
  - cbn [app LRU_run]. destruct (LRU_access self k) as [[s r]|e]; [|reflexivity].
    cbn [bind]. rewrite IH.
    destruct (LRU_run s t1) as [[s1 o1]|e]; [|reflexivity]. cbn [bind].
    destruct (LRU_run s1 t2) as [[s2 o2]|e]; reflexivity.
Qed.

(** The state of a fresh LRU after a trace, and what one more access does. *)
Lemma LRU_session_snoc (n : nat) (trace : list CacheKey) :
  exists self outs,
    LRU_session (Z.of_nat (S n)) trace = Ok (self, outs) /\
    budget (LRU_base self) = Z.of_nat (S n) /\
    recency_list self = firstn (S n) (recency_order trace) /\
    List.length outs = List.length trace /\
    forall key, exists self' r,
      LRU_access self key = Ok (self', r) /\
      LRU_session (Z.of_nat (S n)) (trace ++ [key]) = Ok (self', outs ++ [r]) /\
      hits (LRU_base self') =
        hits (LRU_base self)
        + (if list_contains (firstn (S n) (recency_order trace)) key then 1 else 0) /\
      r = (if list_contains (firstn (S n) (recency_order trace)) key then None
           else nth_error (recency_order trace) n).
Proof.
  induction trace as [|k trace IH] using rev_ind.
  - destruct (LRU_init_wf (Z.of_nat (S n))) as (self & Hi & _ & Hbase & Hrl); [lia|].
    exists self, []. unfold LRU_session. rewrite Hi. cbn [bind LRU_run].
    split; [reflexivity|]. split; [rewrite Hbase; reflexivity|].
    split; [rewrite Hrl; reflexivity|]. split; [reflexivity|].
    intros key.
    destruct (LRU_access_firstn self key n (recency_order []))
      as (self' & r & Ha & _ & _ & Hh & Hr).
    + apply recency_order_NoDup.
    + rewrite Hbase. reflexivity.
    + rewrite Hrl. reflexivity.
    + exists self', r. split; [exact Ha|]. split; [|split; assumption].
      cbn [bind app LRU_run]. rewrite Ha. reflexivity.
  - destruct IH as (self & outs & Hs & Hb & Hl & Hlen & Hstep).
    destruct (Hstep k) as (self1 & r1 & Ha1 & Hs1 & _ & _).
    destruct (LRU_access_firstn self k n (recency_order trace))
      as (self1' & r1' & Ha1' & Hl1 & Hb1 & _ & _);
      [apply recency_order_NoDup | exact Hb | exact Hl |].
    rewrite Ha1 in Ha1'. inversion Ha1'; subst self1' r1'. clear Ha1'.
    rewrite <- recency_order_snoc in Hl1.
    exists self1, (outs ++ [r1]).
    split; [exact Hs1|]. split; [congruence|]. split; [exact Hl1|].
    split; [rewrite !length_app; simpl; lia|].
    intros key.
    destruct (LRU_access_firstn self1 key n (recency_order (trace ++ [k])))
      as (self2 & r2 & Ha2 & _ & _ & Hh2 & Hr2);
      [apply recency_order_NoDup | congruence | exact Hl1 |].
    exists self2, r2. split; [exact Ha2|]. split; [|split; assumption].
    unfold LRU_session in Hs1 |- *.
    destruct (LRU_init (Z.of_nat (S n))) as [s0|e]; [|discriminate].
    cbn [bind] in Hs1 |- *.
    rewrite LRU_run_app, Hs1. cbn [bind LRU_run]. rewrite Ha2. reflexivity.
Qed.

Lemma budget_succ (b : Z) :
  0 < b -> exists n, b = Z.of_nat (S n) /\ Z.to_nat b = S n.
Proof.
  intros Hb. exists (Z.to_nat (b - 1)). split; lia.
Qed.

Lemma firstn_In_le {A : Type} (n m : nat) (l : list A) (x : A) :
  (n <= m)%nat -> In x (firstn n l) -> In x (firstn m l).
Proof.
  revert m l. induction n as [|n IH]; intros m l Hle Hin.
  - destruct l; contradiction.
  - destruct m as [|m]; [lia|]. destruct l as [|y l]; [contradiction|].
    simpl in Hin |- *. destruct Hin as [->|Hin]; [auto|].
    right. apply IH; [lia | exact Hin].
Qed.

(** X1.  After any trace a fresh LRU of positive budget [b] holds exactly the
    [b] most recently used distinct keys of the trace, the most recent first:
    its list is the first [b] entries of the trace's recency order. *)
Theorem LRU_holds_most_recent_keys (b : Z) (trace : list CacheKey) :
  0 < b ->
  exists self outs,
    LRU_session b trace = Ok (self, outs) /\
    recency_list self = firstn (Z.to_nat b) (recency_order trace).
Proof.
  intros Hb. destruct (budget_succ b Hb) as (n & -> & ->).
  destruct (LRU_session_snoc n trace) as (self & outs & Hs & _ & Hl & _).
  exists self, outs. split; assumption.
Qed.

Lemma LRU_holds_most_recent_keys_witness :
  exists self outs,
    LRU_session 2 ["a"; "b"; "a"; "c"] = Ok (self, outs) /\
    recency_list self = firstn (Z.to_nat 2) (recency_order ["a"; "b"; "a"; "c"]).
Proof.
  apply (LRU_holds_most_recent_keys 2 ["a"; "b"; "a"; "c"]). lia.
Defined.

(** X2.  In the state a fresh LRU of positive budget [b] reaches after a
    trace, an access is a hit exactly when the key is among the [b] most
    recently used distinct keys; a hit returns [None] and counts one hit.  A
    miss counts no hit and returns the [b]-th most recently used distinct key
    of the trace, or [None] when fewer than [b] distinct keys were seen. *)
Theorem LRU_hit_iff_recently_used (b : Z) (trace : list CacheKey) (key : CacheKey) :
  0 < b ->
  exists self outs self' r,
    LRU_session b trace = Ok (self, outs) /\
    LRU_access self key = Ok (self', r) /\
    (In key (firstn (Z.to_nat b) (recency_order trace)) ->
       LRU_contains self key = true /\ r = None /\
       hits (LRU_base self') = hits (LRU_base self) + 1) /\
    (~ In key (firstn (Z.to_nat b) (recency_order trace)) ->
       LRU_contains self key = false /\
       r = nth_error (recency_order trace) (Z.to_nat b - 1) /\
       hits (LRU_base self') = hits (LRU_base self)).
Proof.
  intros Hb. destruct (budget_succ b Hb) as (n & -> & ->).
  destruct (LRU_session_snoc n trace) as (self & outs & Hs & _ & Hl & _ & Hstep).
  destruct (Hstep key) as (self' & r & Ha & _ & Hh & Hr).
  exists self, outs, self', r. split; [exact Hs|]. split; [exact Ha|].
  unfold LRU_contains. rewrite Hl.
  replace (S n - 1)%nat with n by lia.
  split; intros Hin.
  - apply list_contains_In in Hin. rewrite Hin in Hh, Hr.
    split; [exact Hin|]. split; assumption.
  - apply list_contains_false in Hin. rewrite Hin in Hh, Hr.
    split; [exact Hin|]. split; [exact Hr | lia].
Qed.

Lemma LRU_hit_iff_recently_used_witness :
  exists self outs self' r,
    LRU_session 2 ["a"; "b"; "a"] = Ok (self, outs) /\
    LRU_access self "c" = Ok (self', r) /\
    (In "c" (firstn (Z.to_nat 2) (recency_order ["a"; "b"; "a"])) ->
       LRU_contains self "c" = true /\ r = None /\
       hits (LRU_base self') = hits (LRU_base self) + 1) /\
    (~ In "c" (firstn (Z.to_nat 2) (recency_order ["a"; "b"; "a"])) ->
       LRU_contains self "c" = false /\
       r = nth_error (recency_order ["a"; "b"; "a"]) (Z.to_nat 2 - 1) /\
       hits (LRU_base self') = hits (LRU_base self)).
Proof.
  apply (LRU_hit_iff_recently_used 2 ["a"; "b"; "a"] "c"). lia.
Defined.

(** X3.  LRU has no Belady anomaly: on the same trace, a fresh LRU of the
    larger budget holds every key the smaller one holds and has counted at
    least as many hits. *)
Theorem LRU_larger_budget_never_worse (b b' : Z) (trace : list CacheKey) :
  0 < b -> b <= b' ->
  exists self outs self' outs',
    LRU_session b trace = Ok (self, outs) /\
    LRU_session b' trace = Ok (self', outs') /\
    (forall k, LRU_contains self k = true -> LRU_contains self' k = true) /\
    hits (LRU_base self) <= hits (LRU_base self').
Proof.
  intros Hb Hle.
  destruct (budget_succ b Hb) as (n & -> & _).
  destruct (budget_succ b') as (n' & -> & _); [lia|].
  assert (Hn : (n <= n')%nat) by lia. clear Hb Hle.
  assert (Hmono : forall L k,
             list_contains (firstn (S n) L) k = true ->
             list_contains (firstn (S n') L) k = true).
  { intros L k H. apply list_contains_In in H. apply list_contains_In.
    eapply firstn_In_le; [|exact H]. lia. }
  induction trace as [|key trace IH] using rev_ind.
  - destruct (LRU_session_snoc n []) as (s & o & Hs & _ & Hl & _).
    destruct (LRU_session_snoc n' []) as (s' & o' & Hs' & _ & Hl' & _).
    exists s, o, s', o'. split; [exact Hs|]. split; [exact Hs'|].
    unfold LRU_contains. rewrite Hl, Hl'. split; [apply Hmono|].
    destruct (LRU_init_wf (Z.of_nat (S n))) as (i & Hi & _ & Hbase & _); [lia|].
    destruct (LRU_init_wf (Z.of_nat (S n'))) as (i' & Hi' & _ & Hbase' & _); [lia|].
    unfold LRU_session in Hs, Hs'. rewrite Hi in Hs. rewrite Hi' in Hs'.
    cbn [bind LRU_run] in Hs, Hs'. inversion Hs; inversion Hs'; subst.
    rewrite Hbase, Hbase'. simpl. lia.
  - destruct IH as (s & o & s' & o' & Hs & Hs' & _ & Hhits).
    destruct (LRU_session_snoc n trace) as (s0 & o0 & Hs0 & _ & _ & _ & Hstep).
    destruct (LRU_session_snoc n' trace) as (s0' & o0' & Hs0' & _ & _ & _ & Hstep').
    rewrite Hs in Hs0. inversion Hs0; subst s0 o0. clear Hs0.
    rewrite Hs' in Hs0'. inversion Hs0'; subst s0' o0'. clear Hs0'.
    destruct (Hstep key) as (s1 & r1 & _ & Hs1 & Hh1 & _).
    destruct (Hstep' key) as (s1' & r1' & _ & Hs1' & Hh1' & _).
    exists s1, (o ++ [r1]), s1', (o' ++ [r1']).
    split; [exact Hs1|]. split; [exact Hs1'|].
    split.
    + destruct (LRU_session_snoc n (trace ++ [key])) as (t & ot & Ht & _ & Hl & _).
      destruct (LRU_session_snoc n' (trace ++ [key])) as (t' & ot' & Ht' & _ & Hl' & _).
      rewrite Hs1 in Ht. inversion Ht; subst t ot.
      rewrite Hs1' in Ht'. inversion Ht'; subst t' ot'.
      unfold LRU_contains. rewrite Hl, Hl'. apply Hmono.
    + rewrite Hh1, Hh1'.
      pose proof (Hmono (recency_order trace) key) as Hm.
      destruct (list_contains (firstn (S n) (recency_order trace)) key).
      * rewrite Hm by reflexivity. lia.
      * destruct (list_contains (firstn (S n') (recency_order trace)) key); lia.
Qed.

Lemma LRU_larger_budget_never_worse_witness :
  exists self outs self' outs',
    LRU_session 1 ["a"; "b"; "a"; "b"] = Ok (self, outs) /\
    LRU_session 2 ["a"; "b"; "a"; "b"] = Ok (self', outs') /\
    (forall k, LRU_contains self k = true -> LRU_contains self' k = true) /\
    hits (LRU_base self) <= hits (LRU_base self').
Proof.
  apply (LRU_larger_budget_never_worse 1 2 ["a"; "b"; "a"; "b"]); lia.
Defined.

(** ** LFU: hits and the admission of a new key *)

Lemma Counter_getitem_setitem (c : Counter) (k k' : CacheKey) (v : Z) :
  Counter_getitem (Counter_setitem c k v) k' =
    if String.eqb k k' then v else Counter_getitem c k'.
Proof.
  induction c as [|[k0 v0] c IH]; simpl.
  - reflexivity.
  - destruct (String.eqb_spec k0 k) as [->|Hne]; simpl.
    + destruct (String.eqb k k'); reflexivity.
    + rewrite IH. destruct (String.eqb_spec k0 k') as [->|Hne'].
      * destruct (String.eqb_spec k k'); [congruence | reflexivity].
      * reflexivity.
Qed.

Lemma Counter_getitem_incr (c : Counter) (key k : CacheKey) :
  Counter_getitem (Counter_incr c key) k =
    Counter_getitem c k + (if String.eqb key k then 1 else 0).
Proof.
  unfold Counter_incr. rewrite Counter_getitem_setitem.
  destruct (String.eqb_spec key k) as [->|Hne]; lia.
Qed.

Lemma Counter_getitem_split (c1 c2 : Counter) (k : CacheKey) (v : Z) :
  ~ In k (keys c1) -> Counter_getitem (c1 ++ (k, v) :: c2) k = v.
Proof.
  induction c1 as [|[k0 v0] c1 IH]; simpl; intros Hn.
  - rewrite String.eqb_refl. reflexivity.
  - destruct (String.eqb_spec k0 k) as [->|Hne]; [tauto|]. apply IH. tauto.
Qed.

Lemma Counter_incr_absent (c : Counter) (key : CacheKey) :
  ~ In key (keys c) -> Counter_incr c key = c ++ [(key, 1)].
Proof.
  intros Hn. unfold Counter_incr.
  rewrite Counter_getitem_absent, Counter_setitem_absent by assumption.
  reflexivity.
Qed.

Lemma LFU_access_hit_step (self : LFU) (key : CacheKey) :
  LFU_wf self ->
  LFU_contains self key = true ->
  LFU_access self key =
    Ok ({| LFU_base := incr_hits (incr_accesses (LFU_base self));
           frequency_counter := Counter_incr (frequency_counter self) key |}, None).
Proof.
  intros Hwf Hc.
  assert (Hin : In key (keys (frequency_counter self))).
  { apply LFU_contains_In; [apply (LFU_wf_positive _ Hwf) | exact Hc]. }
  assert (Hlen : len (Counter_incr (frequency_counter self) key)
                 = len (frequency_counter self)).
  { rewrite Counter_incr_len.
    apply list_contains_In in Hin. rewrite Hin. reflexivity. }
  pose proof (LFU_wf_size _ Hwf) as Hsz.
  unfold LFU_access. rewrite Hc, Hlen.
  destruct (Z.gtb_spec (len (frequency_counter self))
              (budget (incr_hits (incr_accesses (LFU_base self))))) as [Hgt|Hle].
  - simpl in Hgt. lia.
  - reflexivity.
Qed.

(** X4.  A hit on an LFU in a reachable state evicts nothing: it returns
    [None], counts one hit, adds 1 to the frequency of the accessed key and
    leaves every other frequency and the order of the table as they were. *)
Theorem LFU_hit_counts_the_key (self : LFU) (key : CacheKey) :
  LFU_wf self ->
  LFU_contains self key = true ->
  exists self',
    LFU_access self key = Ok (self', None) /\
    hits (LFU_base self') = hits (LFU_base self) + 1 /\
    keys (frequency_counter self') = keys (frequency_counter self) /\
    Counter_getitem (frequency_counter self') key
      = Counter_getitem (frequency_counter self) key + 1 /\
    forall k, k <> key ->
      Counter_getitem (frequency_counter self') k
        = Counter_getitem (frequency_counter self) k.
Proof.
  intros Hwf Hc. rewrite (LFU_access_hit_step self key Hwf Hc).
  eexists. split; [reflexivity|]. simpl. split; [reflexivity|].
  assert (Hin : In key (keys (frequency_counter self))).
  { apply LFU_contains_In; [apply (LFU_wf_positive _ Hwf) | exact Hc]. }
  split.
  - rewrite Counter_incr_keys. apply list_contains_In in Hin. rewrite Hin.
    reflexivity.
  - split.
    + rewrite Counter_getitem_incr, String.eqb_refl. reflexivity.
    + intros k Hne. rewrite Counter_getitem_incr.
      destruct (String.eqb_spec key k); [congruence | lia].
Qed.

Lemma LFU_hit_counts_the_key_witness :
  exists self',
    LFU_access {| LFU_base := {| budget := 2; hits := 0; accesses := 2 |};
                  frequency_counter := [("a", 1); ("b", 1)] |} "b" = Ok (self', None) /\
    hits (LFU_base self') = 0 + 1 /\
    keys (frequency_counter self') = ["a"; "b"] /\
    Counter_getitem (frequency_counter self') "b" = 1 + 1 /\
    forall k, k <> "b" ->
      Counter_getitem (frequency_counter self') k
        = Counter_getitem [("a", 1); ("b", 1)] k.
Proof.
  apply (LFU_hit_counts_the_key
           {| LFU_base := {| budget := 2; hits := 0; accesses := 2 |};
              frequency_counter := [("a", 1); ("b", 1)] |} "b").
  - constructor; simpl.
    + lia.
    + repeat constructor; simpl; intuition discriminate.
    + unfold len. simpl. lia.
    + repeat constructor; simpl; lia.
    + lia.
  - reflexivity.
Defined.

Lemma list_last_cases {A : Type} (l : list A) :
  l = [] \/ exists l' a, l = l' ++ [a].
Proof.
  destruct l as [|x l]; [left; reflexivity | right].
  destruct (exists_last (l := x :: l)) as (l' & a & H); [discriminate|].
  exists l', a. exact H.
Qed.

(** The miss of a new key on a full table: the table grows by the entry
    [(key, 1)] at its end, and the scan of [min] picks the victim from it. *)
Lemma LFU_access_full_miss (self : LFU) (key : CacheKey) :
  LFU_wf self ->
  LFU_contains self key = false ->
  len (frequency_counter self) = budget (LFU_base self) ->
  ~ In key (keys (frequency_counter self)) /\
  exists self' l1 k v l2,
    LFU_access self key = Ok (self', Some k) /\
    frequency_counter self ++ [(key, 1)] = l1 ++ (k, v) :: l2 /\
    Forall (fun x => v < snd x) l1 /\
    Forall (fun x => v <= snd x) l2 /\
    frequency_counter self' = l1 ++ l2 /\
    LFU_base self' = incr_accesses (LFU_base self).
Proof.
  intros Hwf Hc Hfull.
  assert (Hn : ~ In key (keys (frequency_counter self))).
  { intros Hin. apply (LFU_contains_In self key (LFU_wf_positive _ Hwf)) in Hin.
    congruence. }
  split; [exact Hn|].
  destruct (LFU_access_evicts self key (LFU_wf_nodup _ Hwf))
    as (self' & l1 & k & v & l2 & Ha & Hsplit & Hl1 & Hl2 & Hfc & Hb & Hacc & Hh).
  { rewrite Counter_incr_absent, len_app by assumption. unfold len at 2. simpl. lia. }
  rewrite Counter_incr_absent in Hsplit by assumption.
  exists self', l1, k, v, l2. repeat (split; [assumption|]).
  rewrite Hc in Hh. destruct self' as [[b' h' a'] fc'].
  simpl in *. unfold incr_accesses. f_equal; lia.
Qed.

(** X5.  A full LFU whose resident keys have all been used at least twice
    does not admit a new key: the access of a key it does not hold evicts
    that very key, counts no hit and leaves the table as it was. *)
Theorem LFU_rejects_new_key_when_all_reused (self : LFU) (key : CacheKey) :
  LFU_wf self ->
  LFU_contains self key = false ->
  len (frequency_counter self) = budget (LFU_base self) ->
  Forall (fun e => 1 < snd e) (frequency_counter self) ->
  LFU_access self key =
    Ok ({| LFU_base := incr_accesses (LFU_base self);
           frequency_counter := frequency_counter self |}, Some key).
Proof.
  intros Hwf Hc Hfull Hall.
  destruct (LFU_access_full_miss self key Hwf Hc Hfull)
    as (Hn & self' & l1 & k & v & l2 & Ha & Hsplit & Hl1 & Hl2 & Hfc & Hbase).
  destruct (list_last_cases l2) as [Hnil|(l2' & last & Hlast)].
  - subst l2. apply app_inj_tail in Hsplit. destruct Hsplit as [Hl Hkv].
    inversion Hkv; subst k v. rewrite app_nil_r in Hfc.
    rewrite Ha. destruct self' as [base' fc']. simpl in *. congruence.
  - exfalso. subst l2.
    change (l1 ++ (k, v) :: l2' ++ [last])
      with (l1 ++ ((k, v) :: l2') ++ [last]) in Hsplit.
    rewrite app_assoc in Hsplit. apply app_inj_tail in Hsplit.
    destruct Hsplit as [Hl Hlast]. subst last.
    rewrite Forall_app in Hl2. destruct Hl2 as [_ Hl2].
    inversion Hl2 as [|? ? Hv _]; subst. simpl in Hv.
    rewrite Hl in Hall. rewrite Forall_app in Hall. destruct Hall as [_ Hall].
    inversion Hall as [|? ? Hv' _]; subst. simpl in Hv'. lia.
Qed.

Lemma LFU_rejects_new_key_when_all_reused_witness :
  LFU_access {| LFU_base := {| budget := 2; hits := 2; accesses := 4 |};
                frequency_counter := [("a", 2); ("b", 2)] |} "c" =
    Ok ({| LFU_base := {| budget := 2; hits := 2; accesses := 5 |};
           frequency_counter := [("a", 2); ("b", 2)] |}, Some "c").
Proof.
  apply (LFU_rejects_new_key_when_all_reused
           {| LFU_base := {| budget := 2; hits := 2; accesses := 4 |};
              frequency_counter := [("a", 2); ("b", 2)] |} "c").
  - constructor; simpl.
    + lia.
    + repeat constructor; simpl; intuition discriminate.
    + unfold len. simpl. lia.
    + repeat constructor; simpl; lia.
    + lia.
  - reflexivity.
  - reflexivity.
  - repeat constructor; simpl; lia.
Defined.

(** X6.  A full LFU that holds a key used exactly once admits a new key: the
    access evicts a resident key of frequency 1 (the first in insertion
    order), after which the new key is resident with frequency 1 and the
    evicted key is not. *)
Theorem LFU_admits_new_key_over_single_use (self : LFU) (key : CacheKey) :
  LFU_wf self ->
  LFU_contains self key = false ->
  len (frequency_counter self) = budget (LFU_base self) ->
  Exists (fun e => snd e = 1) (frequency_counter self) ->
  exists self' k before after,
    LFU_access self key = Ok (self', Some k) /\
    k <> key /\
    frequency_counter self = before ++ (k, 1) :: after /\
    Forall (fun e => 1 < snd e) before /\
    frequency_counter self' = before ++ after ++ [(key, 1)] /\
    LFU_contains self' key = true /\
    LFU_contains self' k = false.
Proof.
  intros Hwf Hc Hfull Hex.
  destruct (LFU_access_full_miss self key Hwf Hc Hfull)
    as (Hn & self' & l1 & k & v & l2 & Ha & Hsplit & Hl1 & Hl2 & Hfc & Hbase).
  pose proof (LFU_wf_positive _ Hwf) as Hpos.
  pose proof (LFU_wf_nodup _ Hwf) as Hnd.
  destruct (list_last_cases l2) as [Hnil|(l2' & last & Hlast)].
  - exfalso. subst l2. apply app_inj_tail in Hsplit. destruct Hsplit as [Hl Hkv].
    inversion Hkv; subst k v. subst l1.
    apply Exists_exists in Hex. destruct Hex as (e & Hin & He).
    rewrite Forall_forall in Hl1. specialize (Hl1 e Hin). lia.
  - subst l2.
    change (l1 ++ (k, v) :: l2' ++ [last])
      with (l1 ++ ((k, v) :: l2') ++ [last]) in Hsplit.
    rewrite app_assoc in Hsplit. apply app_inj_tail in Hsplit.
    destruct Hsplit as [Hl Hlast]. subst last.
    assert (Hv : v = 1).
    { rewrite Forall_app in Hl2. destruct Hl2 as [_ Hl2].
      inversion Hl2 as [|? ? Hv _]; subst. simpl in Hv.
      unfold counts_positive in Hpos. rewrite Hl, Forall_app in Hpos.
      destruct Hpos as [_ Hpos]. inversion Hpos as [|? ? Hv' _]; subst.
      simpl in Hv'. lia. }
    subst v.
    assert (Hk : In k (keys (frequency_counter self))).
    { rewrite Hl. unfold keys. rewrite map_app. apply in_or_app. simpl. auto. }
    assert (Hnd' := Hnd). rewrite Hl in Hnd'. unfold keys in Hnd'.
    rewrite map_app in Hnd'. simpl in Hnd'.
    pose proof (NoDup_remove_2 _ _ _ Hnd') as Hkn.
    exists self', k, l1, l2'. split; [exact Ha|].
    split; [intros ->; contradiction|].
    split; [exact Hl|]. split; [exact Hl1|]. split; [exact Hfc|].
    unfold LFU_contains. rewrite Hfc. split.
    + rewrite app_assoc, Counter_getitem_split; [reflexivity|].
      intros Hin. apply Hn. rewrite Hl. unfold keys in *.
      rewrite map_app in Hin |- *. apply in_app_or in Hin. apply in_or_app.
      simpl. tauto.
    + rewrite Counter_getitem_absent; [reflexivity|].
      intros Hin. unfold keys in Hin. rewrite !map_app in Hin. simpl in Hin.
      apply in_app_or in Hin. destruct Hin as [Hin|Hin].
      * apply Hkn, in_or_app. auto.
      * apply in_app_or in Hin. destruct Hin as [Hin|[Hin|[]]].
        -- apply Hkn, in_or_app. auto.
        -- subst k. contradiction.
Qed.

Lemma LFU_admits_new_key_over_single_use_witness :
  exists self' k before after,
    LFU_access {| LFU_base := {| budget := 2; hits := 1; accesses := 3 |};
                  frequency_counter := [("a", 2); ("b", 1)] |} "c"
      = Ok (self', Some k) /\
    k <> "c" /\
    [("a", 2); ("b", 1)] = before ++ (k, 1) :: after /\
    Forall (fun e => 1 < snd e) before /\
    frequency_counter self' = before ++ after ++ [("c", 1)] /\
    LFU_contains self' "c" = true /\
    LFU_contains self' k = false.
Proof.
  apply (LFU_admits_new_key_over_single_use
           {| LFU_base := {| budget := 2; hits := 1; accesses := 3 |};
              frequency_counter := [("a", 2); ("b", 1)] |} "c").
  - constructor; simpl.
    + lia.
    + repeat constructor; simpl; intuition discriminate.
    + unfold len. simpl. lia.
    + repeat constructor; simpl; lia.
    + lia.
  - reflexivity.
  - reflexivity.
  - apply Exists_cons_tl, Exists_cons_hd. reflexivity.
Defined.

(** ** Every miss fills a slot or evicts one key *)

Lemma evictions_cons (r : option CacheKey) (outs : list (option CacheKey)) :
  evictions (r :: outs) = (match r with Some _ => 1 | None => 0 end) + evictions outs.
Proof.
  unfold evictions. simpl. destruct r; [rewrite len_cons|]; lia.
Qed.

Lemma LFU_access_conserves (self : LFU) (key : CacheKey) :
  LFU_wf self ->
  exists self' r,
    LFU_access self key = Ok (self', r) /\
    LFU_wf self' /\
    hits (LFU_base self') + len (frequency_counter self')
      + (match r with Some _ => 1 | None => 0 end)
    = hits (LFU_base self) + len (frequency_counter self) + 1.
Proof.
  intros Hwf.
  destruct (LFU_access_spec self key Hwf) as (self' & r & Ha & Hwf' & _).
  exists self', r. split; [exact Ha|]. split; [exact Hwf'|].
  pose proof (LFU_wf_size _ Hwf) as Hsz.
  destruct (LFU_contains self key) eqn:Hc.
  - pose proof (LFU_access_hit_step self key Hwf Hc) as Hstep.
    rewrite Hstep in Ha. inversion Ha; subst self' r. simpl.
    rewrite Counter_incr_len.
    apply (LFU_contains_In self key (LFU_wf_positive _ Hwf)) in Hc.
    apply list_contains_In in Hc. rewrite Hc. lia.
  - destruct (Z.eq_dec (len (frequency_counter self)) (budget (LFU_base self)))
      as [Hfull|Hroom].
    + destruct (LFU_access_full_miss self key Hwf Hc Hfull)
        as (Hn & s & l1 & k & v & l2 & Hs & Hsplit & _ & _ & Hfc & Hbase).
      rewrite Hs in Ha. inversion Ha; subst s r.
      apply (f_equal (@len _)) in Hsplit.
      rewrite !len_app, !len_cons in Hsplit. unfold len at 2 in Hsplit.
      simpl in Hsplit. rewrite Hfc, Hbase, len_app. simpl. lia.
    + assert (Hn : ~ In key (keys (frequency_counter self))).
      { intros Hin.
        apply (LFU_contains_In self key (LFU_wf_positive _ Hwf)) in Hin.
        congruence. }
      destruct (LFU_access_keeps self key) as (s & Hs & Hfc & _ & _ & Hh).
      { rewrite Counter_incr_absent, len_app by assumption.
        unfold len at 2. simpl. lia. }
      rewrite Hs in Ha. inversion Ha; subst s r.
      rewrite Hc in Hh. rewrite Hfc, Hh, Counter_incr_absent, len_app by assumption.
      unfold len at 2. simpl. lia.
Qed.

Lemma LFU_run_conserves (trace : list CacheKey) :
  forall self : LFU,
    LFU_wf self ->
    exists self' outs,
      LFU_run self trace = Ok (self', outs) /\
      LFU_wf self' /\
      hits (LFU_base self') + len (frequency_counter self') + evictions outs
      = hits (LFU_base self) + len (frequency_counter self) + len trace.
Proof.
  induction trace as [|key trace IH]; intros self Hwf.
  - exists self, []. split; [reflexivity|]. split; [exact Hwf|].
    unfold evictions, len. simpl. lia.
  - destruct (LFU_access_conserves self key Hwf) as (s1 & r & Ha & Hwf1 & Hc1).
    destruct (IH s1 Hwf1) as (s2 & outs & Hr & Hwf2 & Hc2).
    exists s2, (r :: outs). cbn [LFU_run]. rewrite Ha. cbn [bind].
    rewrite Hr. cbn [bind]. split; [reflexivity|]. split; [exact Hwf2|].
    rewrite evictions_cons, len_cons. lia.
Qed.

(** X7.  On a fresh LFU of positive budget every access is a hit, or fills a
    free slot, or evicts exactly one key: after any trace the number of
    accesses equals the hits, plus the keys resident, plus the calls that
    returned an evicted key. *)
Theorem LFU_accesses_are_hits_fills_or_evictions (b : Z) (trace : list CacheKey) :
  0 < b ->
  exists self outs,
    LFU_session b trace = Ok (self, outs) /\
    accesses (LFU_base self)
    = hits (LFU_base self) + len (frequency_counter self) + evictions outs.
Proof.
  intros Hb.
  destruct (LFU_init_wf b Hb) as (s0 & Hi & Hwf0 & Hbase & Hfc).
  destruct (LFU_run_conserves trace s0 Hwf0) as (self & outs & Hr & _ & Hc).
  destruct (LFU_run_spec trace s0 Hwf0) as (self2 & outs2 & Hr2 & _ & _ & Hacc & _).
  rewrite Hr in Hr2. inversion Hr2; subst self2 outs2.
  exists self, outs. unfold LFU_session. rewrite Hi. cbn [bind].
  split; [exact Hr|].
  rewrite Hacc, Hc, Hbase, Hfc. unfold len at 2. simpl. lia.
Qed.

Lemma LFU_accesses_are_hits_fills_or_evictions_witness :
  exists self outs,
    LFU_session 2 ["a"; "b"; "a"; "c"; "c"] = Ok (self, outs) /\
    accesses (LFU_base self)
    = hits (LFU_base self) + len (frequency_counter self) + evictions outs.
Proof.
  apply (LFU_accesses_are_hits_fills_or_evictions 2 ["a"; "b"; "a"; "c"; "c"]). lia.
Defined.

Lemma LRU_access_conserves (self : LRU) (key : CacheKey) :
  LRU_wf self ->
  exists self' r,
    LRU_access self key = Ok (self', r) /\
    LRU_wf self' /\
    hits (LRU_base self') + len (recency_list self')
      + (match r with Some _ => 1 | None => 0 end)
    = hits (LRU_base self) + len (recency_list self) + 1.
Proof.
  intros Hwf.
  destruct (LRU_access_spec self key Hwf) as (self' & r & Ha & Hwf' & _).
  exists self', r. split; [exact Ha|]. split; [exact Hwf'|].
  pose proof (LRU_wf_size _ Hwf) as Hsz.
  pose proof (LRU_wf_nodup _ Hwf) as Hnd.
  pose proof (LRU_wf_budget _ Hwf) as Hb.
  destruct (in_dec CacheKey_eq_dec key (recency_list self)) as [Hin|Hn].
  - destruct (in_split _ _ Hin) as (l1 & l2 & Hl).
    assert (Hn1 : ~ In key l1).
    { rewrite Hl in Hnd. apply NoDup_remove_2 in Hnd.
      intros H. apply Hnd, in_or_app. auto. }
    rewrite (LRU_access_hit_step self key l1 l2 Hl Hn1 Hsz) in Ha.
    inversion Ha; subst self' r. simpl.
    rewrite Hl, len_cons, !len_app, len_cons. lia.
  - destruct (Z.eq_dec (len (recency_list self)) (budget (LRU_base self)))
      as [Hfull|Hroom].
    + destruct (list_last_cases (recency_list self)) as [Hnil|(rl & y & Hl)].
      * rewrite Hnil in Hfull. unfold len in Hfull. simpl in Hfull. lia.
      * rewrite (LRU_access_miss_full self key y rl Hl Hn) in Ha by lia.
        inversion Ha; subst self' r. simpl.
        rewrite Hl, len_cons, len_app. unfold len at 3. simpl. lia.
    + rewrite (LRU_access_miss_room self key Hn) in Ha by lia.
      inversion Ha; subst self' r. simpl. rewrite len_cons. lia.
Qed.

Lemma LRU_run_conserves (trace : list CacheKey) :
  forall self : LRU,
    LRU_wf self ->
    exists self' outs,
      LRU_run self trace = Ok (self', outs) /\
      LRU_wf self' /\
      hits (LRU_base self') + len (recency_list self') + evictions outs
      = hits (LRU_base self) + len (recency_list self) + len trace.
Proof.
  induction trace as [|key trace IH]; intros self Hwf.
  - exists self, []. split; [reflexivity|]. split; [exact Hwf|].
    unfold evictions, len. simpl. lia.
  - destruct (LRU_access_conserves self key Hwf) as (s1 & r & Ha & Hwf1 & Hc1).
    destruct (IH s1 Hwf1) as (s2 & outs & Hr & Hwf2 & Hc2).
    exists s2, (r :: outs). cbn [LRU_run]. rewrite Ha. cbn [bind].
    rewrite Hr. cbn [bind]. split; [reflexivity|]. split; [exact Hwf2|].
    rewrite evictions_cons, len_cons. lia.
Qed.

(** X8.  The same for LRU: after any trace on a fresh LRU of positive budget
    the number of accesses equals the hits, plus the keys in the recency
    list, plus the calls that returned an evicted key. *)
Theorem LRU_accesses_are_hits_fills_or_evictions (b : Z) (trace : list CacheKey) :
  0 < b ->
  exists self outs,
    LRU_session b trace = Ok (self, outs) /\
    accesses (LRU_base self)
    = hits (LRU_base self) + len (recency_list self) + evictions outs.
Proof.
  intros Hb.
  destruct (LRU_init_wf b Hb) as (s0 & Hi & Hwf0 & Hbase & Hrl).
  destruct (LRU_run_conserves trace s0 Hwf0) as (self & outs & Hr & _ & Hc).
  destruct (LRU_run_spec trace s0 Hwf0) as (self2 & outs2 & Hr2 & _ & _ & Hacc & _).
  rewrite Hr in Hr2. inversion Hr2; subst self2 outs2.
  exists self, outs. unfold LRU_session. rewrite Hi. cbn [bind].
  split; [exact Hr|].
  rewrite Hacc, Hc, Hbase, Hrl. unfold len at 2. simpl. lia.
Qed.

Lemma LRU_accesses_are_hits_fills_or_evictions_witness :
  exists self outs,
    LRU_session 2 ["a"; "b"; "a"; "c"; "c"] = Ok (self, outs) /\
    accesses (LRU_base self)
    = hits (LRU_base self) + len (recency_list self) + evictions outs.
Proof.
  apply (LRU_accesses_are_hits_fills_or_evictions 2 ["a"; "b"; "a"; "c"; "c"]). lia.
Defined.

(** ** A working set that fits *)

Lemma len_NoDup_incl (l U : list CacheKey) :
  NoDup l -> incl l U -> len l <= len U.
Proof.
  intros Hnd Hincl. unfold len.
  pose proof (NoDup_incl_length Hnd Hincl). lia.
Qed.

Lemma len_nodup_incl (l U : list CacheKey) :
  NoDup l -> NoDup U -> incl l U -> incl U l -> len l = len U.
Proof.
  intros Hl HU H1 H2.
  pose proof (len_NoDup_incl l U Hl H1). pose proof (len_NoDup_incl U l HU H2). lia.
Qed.

Lemma len_keys (c : Counter) : len (keys c) = len c.
Proof. unfold len. rewrite keys_length. reflexivity. Qed.

Lemma count_occ_cons (key k : CacheKey) (trace : list CacheKey) :
  Z.of_nat (count_occ CacheKey_eq_dec (key :: trace) k)
  = (if String.eqb key k then 1 else 0) + Z.of_nat (count_occ CacheKey_eq_dec trace k).
Proof.
  simpl. destruct (CacheKey_eq_dec key k) as [->|Hne].
  - rewrite String.eqb_refl. lia.
  - destruct (String.eqb_spec key k); [congruence | lia].
Qed.

(** An LFU whose keys and whose trace stay within [budget] distinct keys [U]
    never evicts. *)
Lemma LFU_run_fits (U : list CacheKey) (trace : list CacheKey) :
  NoDup U ->
  incl trace U ->
  forall self : LFU,
    LFU_wf self ->
    len U <= budget (LFU_base self) ->
    incl (keys (frequency_counter self)) U ->
    exists self',
      LFU_run self trace = Ok (self', repeat None (List.length trace)) /\
      LFU_wf self' /\
      budget (LFU_base self') = budget (LFU_base self) /\
      incl (keys (frequency_counter self')) U /\
      (forall k, Counter_getitem (frequency_counter self') k
                 = Counter_getitem (frequency_counter self) k
                   + Z.of_nat (count_occ CacheKey_eq_dec trace k)) /\
      hits (LFU_base self') + len (frequency_counter self')
      = hits (LFU_base self) + len (frequency_counter self) + len trace.
Proof.
  intros HU. induction trace as [|key trace IH]; intros Htr self Hwf Hsz Hincl.
  - exists self. split; [reflexivity|]. split; [exact Hwf|].
    split; [reflexivity|]. split; [exact Hincl|].
    split; [intros k; simpl; lia | unfold len; simpl; lia].
  - assert (HinclI : incl (keys (Counter_incr (frequency_counter self) key)) U).
    { intros k Hk. apply Counter_incr_keys_incl in Hk.
      destruct Hk as [->|Hk]; [apply Htr; simpl; auto | apply Hincl, Hk]. }
    destruct (LFU_access_keeps self key) as (s1 & Ha & Hfc & Hb & _ & _).
    { rewrite <- len_keys.
      pose proof (len_NoDup_incl _ U
                    (Counter_incr_NoDup _ key (LFU_wf_nodup _ Hwf)) HinclI).
      lia. }
    destruct (LFU_access_conserves self key Hwf) as (s1' & r & Ha' & Hwf1 & Hc1).
    rewrite Ha in Ha'. inversion Ha'; subst s1' r. clear Ha'.
    destruct (IH (fun k Hk => Htr k (or_intror Hk)) s1 Hwf1)
      as (s2 & Hr & Hwf2 & Hb2 & Hincl2 & Hcnt & Hc2).
    { lia. }
    { rewrite Hfc. exact HinclI. }
    exists s2. cbn [LFU_run]. rewrite Ha. cbn [bind]. rewrite Hr. cbn [bind].
    split; [reflexivity|]. split; [exact Hwf2|]. split; [lia|].
    split; [exact Hincl2|]. split.
    + intros k. rewrite Hcnt, Hfc, Counter_getitem_incr, count_occ_cons. lia.
    + rewrite len_cons. lia.
Qed.

(** X9.  When the distinct keys of a trace are no more than the budget, a
    fresh LFU never evicts: every call returns [None], the table counts for
    each key its number of occurrences in the trace, and only the first access
    of each key is a miss. *)
Theorem LFU_working_set_fits (b : Z) (trace : list CacheKey) :
  0 < b ->
  len (nodup CacheKey_eq_dec trace) <= b ->
  exists self,
    LFU_session b trace = Ok (self, repeat None (List.length trace)) /\
    (forall k, Counter_getitem (frequency_counter self) k
               = Z.of_nat (count_occ CacheKey_eq_dec trace k)) /\
    hits (LFU_base self) = len trace - len (nodup CacheKey_eq_dec trace).
Proof.
  intros Hb Hfit.
  destruct (LFU_init_wf b Hb) as (s0 & Hi & Hwf0 & Hbase & Hfc).
  destruct (LFU_run_fits (nodup CacheKey_eq_dec trace) trace) with (self := s0)
    as (self & Hr & Hwf & _ & Hincl & Hcnt & Hc).
  - apply NoDup_nodup.
  - intros k Hk. apply nodup_In. exact Hk.
  - exact Hwf0.
  - rewrite Hbase. exact Hfit.
  - rewrite Hfc. intros k [].
  - exists self. unfold LFU_session. rewrite Hi. cbn [bind].
    split; [exact Hr|].
    assert (Hcnt' : forall k, Counter_getitem (frequency_counter self) k
                              = Z.of_nat (count_occ CacheKey_eq_dec trace k)).
    { intros k. rewrite Hcnt, Hfc. reflexivity. }
    split; [exact Hcnt'|].
    assert (Hlen : len (frequency_counter self) = len (nodup CacheKey_eq_dec trace)).
    { rewrite <- len_keys. apply len_nodup_incl.
      - apply (LFU_wf_nodup _ Hwf).
      - apply NoDup_nodup.
      - exact Hincl.
      - intros k Hk. apply nodup_In in Hk.
        destruct (in_dec CacheKey_eq_dec k (keys (frequency_counter self)))
          as [Hin|Hn]; [exact Hin|].
        apply Counter_getitem_absent in Hn. rewrite Hcnt' in Hn.
        apply (count_occ_In CacheKey_eq_dec) in Hk. lia. }
    rewrite Hbase, Hfc in Hc. unfold len at 2 in Hc. simpl in Hc. lia.
Qed.

Lemma LFU_working_set_fits_witness :
  exists self,
    LFU_session 2 ["a"; "b"; "a"; "a"; "b"]
      = Ok (self, repeat None (List.length ["a"; "b"; "a"; "a"; "b"])) /\
    (forall k, Counter_getitem (frequency_counter self) k
               = Z.of_nat (count_occ CacheKey_eq_dec ["a"; "b"; "a"; "a"; "b"] k)) /\
    hits (LFU_base self)
    = len ["a"; "b"; "a"; "a"; "b"] - len (nodup CacheKey_eq_dec ["a"; "b"; "a"; "a"; "b"]).
Proof.
  apply (LFU_working_set_fits 2 ["a"; "b"; "a"; "a"; "b"]).
  - lia.
  - vm_compute. discriminate.
Defined.

(** The same for LRU. *)
Lemma LRU_run_fits (U : list CacheKey) (trace : list CacheKey) :
  NoDup U ->
  incl trace U ->
  forall self : LRU,
    LRU_wf self ->
    len U <= budget (LRU_base self) ->
    incl (recency_list self) U ->
    exists self',
      LRU_run self trace = Ok (self', repeat None (List.length trace)) /\
      LRU_wf self' /\
      budget (LRU_base self') = budget (LRU_base self) /\
      incl (recency_list self') U /\
      hits (LRU_base self') + len (recency_list self')
      = hits (LRU_base self) + len (recency_list self) + len trace.
Proof.
  intros HU. induction trace as [|key trace IH]; intros Htr self Hwf Hsz Hincl.
  - exists self. split; [reflexivity|]. split; [exact Hwf|].
    split; [reflexivity|]. split; [exact Hincl|]. unfold len; simpl; lia.
  - destruct (LRU_access_spec self key Hwf)
      as (s1 & r & Ha & Hwf1 & Hb1 & _ & Hin1 & _).
    destruct (LRU_access_conserves self key Hwf) as (s1' & r' & Ha' & _ & Hc1).
    rewrite Ha in Ha'. inversion Ha'; subst s1' r'. clear Ha'.
    assert (Hincl1 : incl (recency_list s1) U).
    { intros k Hk. destruct (Hin1 k Hk) as [->|Hk'];
        [apply Htr; simpl; auto | apply Hincl, Hk']. }
    assert (Hr0 : r = None).
    { destruct (in_dec CacheKey_eq_dec key (recency_list self)) as [Hin|Hn].
      - destruct (LRU_access_spec self key Hwf) as (s & r0 & Has & _ & _ & _ & _ & Hhit).
        rewrite Ha in Has. inversion Has; subst s r0.
        apply list_contains_In in Hin. destruct (Hhit Hin) as [Hd _]. exact Hd.
      - assert (Hnd : NoDup (key :: recency_list self))
          by (constructor; [exact Hn | apply (LRU_wf_nodup _ Hwf)]).
        assert (Hi : incl (key :: recency_list self) U).
        { intros k [<-|Hk]; [apply Htr; simpl; auto | apply Hincl, Hk]. }
        pose proof (len_NoDup_incl _ _ Hnd Hi) as Hle. rewrite len_cons in Hle.
        rewrite (LRU_access_miss_room self key Hn) in Ha by lia.
        inversion Ha. reflexivity. }
    subst r.
    destruct (IH (fun k Hk => Htr k (or_intror Hk)) s1 Hwf1)
      as (s2 & Hr & Hwf2 & Hb2 & Hincl2 & Hc2).
    { lia. }
    { exact Hincl1. }
    exists s2. cbn [LRU_run]. rewrite Ha. cbn [bind]. rewrite Hr. cbn [bind].
    split; [reflexivity|]. split; [exact Hwf2|]. split; [lia|].
    split; [exact Hincl2|]. rewrite len_cons. lia.
Qed.

(** X10.  When the distinct keys of a trace are no more than the budget, a
    fresh LRU never evicts: every call returns [None], the list ends up as
    all the distinct keys of the trace, the most recent first, and only the
    first access of each key is a miss. *)
Theorem LRU_working_set_fits (b : Z) (trace : list CacheKey) :
  0 < b ->
  len (nodup CacheKey_eq_dec trace) <= b ->
  exists self,
    LRU_session b trace = Ok (self, repeat None (List.length trace)) /\
    recency_list self = recency_order trace /\
    hits (LRU_base self) = len trace - len (nodup CacheKey_eq_dec trace).
Proof.
  intros Hb Hfit.
  destruct (LRU_init_wf b Hb) as (s0 & Hi & Hwf0 & Hbase & Hrl).
  destruct (LRU_run_fits (nodup CacheKey_eq_dec trace) trace) with (self := s0)
    as (self & Hr & Hwf & _ & Hincl & Hc).
  - apply NoDup_nodup.
  - intros k Hk. apply nodup_In. exact Hk.
  - exact Hwf0.
  - rewrite Hbase. exact Hfit.
  - rewrite Hrl. intros k [].
  - assert (Hs : LRU_session b trace = Ok (self, repeat None (List.length trace))).
    { unfold LRU_session. rewrite Hi. cbn [bind]. exact Hr. }
    exists self. split; [exact Hs|].
    destruct (budget_succ b Hb) as (n & Hbn & _).
    destruct (LRU_session_snoc n trace) as (self2 & outs2 & Hs2 & _ & Hl & _).
    rewrite <- Hbn, Hs in Hs2. inversion Hs2; subst self2 outs2.
    assert (Hall : firstn (S n) (recency_order trace) = recency_order trace).
    { apply firstn_all2. unfold recency_order. rewrite length_rev.
      unfold len in Hfit. lia. }
    rewrite Hall in Hl. split; [exact Hl|].
    rewrite Hbase, Hrl, Hl in Hc. unfold recency_order, len in Hc |- *.
    rewrite length_rev in Hc. simpl in Hc. lia.
Qed.

Lemma LRU_working_set_fits_witness :
  exists self,
    LRU_session 2 ["a"; "b"; "a"; "a"; "b"]
      = Ok (self, repeat None (List.length ["a"; "b"; "a"; "a"; "b"])) /\
    recency_list self = recency_order ["a"; "b"; "a"; "a"; "b"] /\
    hits (LRU_base self)
    = len ["a"; "b"; "a"; "a"; "b"] - len (nodup CacheKey_eq_dec ["a"; "b"; "a"; "a"; "b"]).
Proof.
  apply (LRU_working_set_fits 2 ["a"; "b"; "a"; "a"; "b"]).
  - lia.
  - vm_compute. discriminate.
Defined.

(** ** LCR: what one access changes *)

Lemma LFU_access_base (self self' : LFU) (key : CacheKey) (r : option CacheKey) :
  LFU_access self key = Ok (self', r) ->
  LFU_base self' =
    if LFU_contains self key then incr_hits (incr_accesses (LFU_base self))
    else incr_accesses (LFU_base self).
Proof.
  unfold LFU_access. intros H.
  destruct (len (Counter_incr (frequency_counter self) key) >? _).
  - destruct (min_by_count _) as [[k v]|e]; [|discriminate]. cbn [bind] in H.
    destruct (Counter_delitem _ k) as [fc|e]; [|discriminate]. cbn [bind] in H.
    inversion H. reflexivity.
  - inversion H. reflexivity.
Qed.

Lemma LRU_access_base (self self' : LRU) (key : CacheKey) (r : option CacheKey) :
  LRU_access self key = Ok (self', r) ->
  LRU_base self' =
    if LRU_contains self key then incr_hits (incr_accesses (LRU_base self))
    else incr_accesses (LRU_base self).
Proof.
  unfold LRU_access. intros H.
  destruct (remove_if_present _ key) as [rl|e]; [|discriminate]. cbn [bind] in H.
  destruct (len (list_insert0 rl key) >? _).
  - destruct (list_pop _) as [[rl' y]|e]; [|discriminate]. cbn [bind] in H.
    inversion H. reflexivity.
  - inversion H. reflexivity.
Qed.

Lemma update_weight_fields (math_exp : float -> float) (self self1 : LCR) (key : CacheKey) :
  update_weight math_exp self key = Ok self1 ->
  LCR_base self1 = LCR_base self /\
  history_lfu self1 = history_lfu self /\
  history_lru self1 = history_lru self /\
  lfu_policy self1 = lfu_policy self /\
  lru_policy self1 = lru_policy self.
Proof.
  intros H. pose proof (update_weight_frame math_exp self key) as Hfr.
  rewrite H in Hfr. exact Hfr.
Qed.

Lemma LCR_access_cases (math_exp : float -> float) (self self' : LCR) (rnd : bool)
    (key : CacheKey) (r : option CacheKey) :
  LCR_access math_exp self rnd key = Ok (self', r) ->
  LCR_access_case math_exp self rnd key self' r.
Proof.
  unfold LCR_access.
  change (LCR_contains (set_base self (incr_accesses (LCR_base self))) key)
    with (LCR_contains self key).
  destruct (LCR_contains self key) eqn:Hc.
  - cbn [set_base lfu_policy lru_policy history_lfu history_lru LCR_base].
    destruct (LFU_contains (lfu_policy self) key) eqn:Hf.
    + destruct (LFU_access (lfu_policy self) key) as [[p r']|e] eqn:Ha; [|discriminate].
      cbn [bind]. intros H. inversion H; subst.
      eapply LCR_hit_lfu; eauto.
    + unfold LCR_contains in Hc. rewrite Hf in Hc. simpl in Hc. rewrite Hc.
      destruct (LRU_access (lru_policy self) key) as [[p r']|e] eqn:Ha; [|discriminate].
      cbn [bind]. intros H. inversion H; subst.
      eapply LCR_hit_lru; eauto.
  - destruct (update_weight math_exp _ key) as [self1|e] eqn:Hup; [|discriminate].
    cbn [bind]. destruct (update_weight_fields _ _ _ _ Hup) as (Hb & Hhf & Hhr & Hpf & Hpr).
    cbn [set_base LCR_base history_lfu history_lru lfu_policy lru_policy] in *.
    unfold access_selected.
    destruct (select_policy_and_history self1 rnd) eqn:Hsel.
    + rewrite Hpf, Hhf, Hb. cbn [budget incr_accesses].
      destruct (LFU_access (lfu_policy self) key) as [[p m]|e] eqn:Ha; [|discriminate].
      cbn [bind].
      destruct (record_eviction _ (history_lfu self) m) as [h|e] eqn:Hrec; [|discriminate].
      cbn [bind]. intros H. inversion H; subst.
      eapply LCR_miss_lfu; eauto.
    + rewrite Hpr, Hhr, Hb. cbn [budget incr_accesses].
      destruct (LRU_access (lru_policy self) key) as [[p m]|e] eqn:Ha; [|discriminate].
      cbn [bind].
      destruct (record_eviction _ (history_lru self) m) as [h|e] eqn:Hrec; [|discriminate].
      cbn [bind]. intros H. inversion H; subst.
      eapply LCR_miss_lru; eauto.
Qed.

(** A property kept by every access is kept by every run. *)
Lemma LCR_run_invariant (math_exp : float -> float)
    (Hexp : Binary64.exp_ok (math_exp learning_rate)) (P : LCR -> Prop) :
  (forall self rnd key self' r,
      LCR_wf self -> P self ->
      LCR_access math_exp self rnd key = Ok (self', r) -> P self') ->
  forall trace self,
    LCR_wf self -> P self ->
    exists self' outs,
      LCR_run math_exp self trace = Ok (self', outs) /\ LCR_wf self' /\ P self'.
Proof.
  intros Hstep. induction trace as [|[key rnd] rest IH]; intros self Hwf HP.
  - exists self, []. split; [reflexivity|]. split; assumption.
  - destruct (LCR_access_spec math_exp Hexp self rnd key Hwf) as (s1 & Hacc & Hwf1 & _).
    destruct (IH s1 Hwf1 (Hstep _ _ _ _ _ Hwf HP Hacc)) as (s2 & outs & Hrun & Hwf2 & HP2).
    exists s2, (None :: outs). cbn [LCR_run]. rewrite Hacc. cbn [bind].
    rewrite Hrun. cbn [bind]. split; [reflexivity|]. split; assumption.
Qed.

(** The fresh LCR, field by field. *)
Lemma LCR_init_fields (b : Z) :
  0 < b ->
  exists self,
    LCR_init b = Ok self /\ LCR_wf self /\
    LCR_base self = {| budget := b; hits := 0; accesses := 0 |} /\
    history_lfu self = [] /\ history_lru self = [] /\
    lfu_policy self = {| LFU_base := {| budget := b; hits := 0; accesses := 0 |};
                         frequency_counter := [] |} /\
    lru_policy self = {| LRU_base := {| budget := b; hits := 0; accesses := 0 |};
                         recency_list := [] |} /\
    w_lfu self = 0.5%float /\ w_lru self = 0.5%float.
Proof.
  intros Hb. destruct (LCR_init_wf b Hb) as (s0 & Hi & Hwf0 & _).
  exists s0. split; [exact Hi|]. split; [exact Hwf0|].
  unfold LCR_init, LFU_init, LRU_init in Hi.
  rewrite CachePolicy_init_ok in Hi by exact Hb. cbn [bind] in Hi.
  inversion Hi. simpl. repeat split; reflexivity.
Qed.

(** X11.  Every access of an LCR is served by exactly one arm, with the same
    outcome: after any trace on a fresh LCR of positive budget, whatever the
    draws, its [accesses] is the sum of the two arms' [accesses] and its
    [hits] the sum of the two arms' [hits].  The C library's [exp(0.45)] is
    taken to be a positive finite double. *)
Theorem LCR_counters_are_sums_of_arms
    (math_exp : float -> float) (b : Z) (trace : list (CacheKey * bool)) :
  0 < b ->
  Binary64.exp_ok (math_exp learning_rate) ->
  exists self outs,
    LCR_session math_exp b trace = Ok (self, outs) /\
    accesses (LCR_base self)
    = accesses (LFU_base (lfu_policy self)) + accesses (LRU_base (lru_policy self)) /\
    hits (LCR_base self)
    = hits (LFU_base (lfu_policy self)) + hits (LRU_base (lru_policy self)).
Proof.
  intros Hb Hexp.
  set (P := fun self : LCR =>
              accesses (LCR_base self)
              = accesses (LFU_base (lfu_policy self))
                + accesses (LRU_base (lru_policy self)) /\
              hits (LCR_base self)
              = hits (LFU_base (lfu_policy self)) + hits (LRU_base (lru_policy self))).
  assert (Hstep : forall self rnd key self' r,
             LCR_wf self -> P self ->
             LCR_access math_exp self rnd key = Ok (self', r) -> P self').
  { intros self rnd key self' r _ [Ha Hh] Hacc. unfold P.
    destruct (LCR_access_cases _ _ _ _ _ _ Hacc)
      as [p Hf Hp ->|p Hf Hr Hp ->|self1 p m h Hc Hup Hsel Hp Hrec -> _
         |self1 p m h Hc Hup Hsel Hp Hrec -> _].
    - apply LFU_access_base in Hp. rewrite Hf in Hp. simpl. rewrite Hp. simpl. lia.
    - apply LRU_access_base in Hp. rewrite Hr in Hp. simpl. rewrite Hp. simpl. lia.
    - destruct (update_weight_fields _ _ _ _ Hup) as (Hb1 & _ & _ & _ & Hpr).
      apply orb_false_iff in Hc. destruct Hc as [Hf Hr].
      apply LFU_access_base in Hp. rewrite Hf in Hp.
      simpl. rewrite Hb1, Hpr, Hp. simpl. lia.
    - destruct (update_weight_fields _ _ _ _ Hup) as (Hb1 & _ & _ & Hpf & _).
      apply orb_false_iff in Hc. destruct Hc as [Hf Hr].
      apply LRU_access_base in Hp. rewrite Hr in Hp.
      simpl. rewrite Hb1, Hpf, Hp. simpl. lia. }
  destruct (LCR_init_fields b Hb)
    as (s0 & Hi & Hwf0 & Hbase & _ & _ & Hpf & Hpr & _).
  unfold LCR_session. rewrite Hi. cbn [bind].
  destruct (LCR_run_invariant math_exp Hexp P Hstep trace s0 Hwf0)
    as (self & outs & Hrun & _ & HP).
  { unfold P. rewrite Hbase, Hpf, Hpr. split; reflexivity. }
  exists self, outs. split; [exact Hrun | exact HP].
Qed.

Lemma LCR_counters_are_sums_of_arms_witness :
  exists self outs,
    LCR_session exp_045 2 [("a", true); ("b", false); ("a", false); ("c", true)]
      = Ok (self, outs) /\
    accesses (LCR_base self)
    = accesses (LFU_base (lfu_policy self)) + accesses (LRU_base (lru_policy self)) /\
    hits (LCR_base self)
    = hits (LFU_base (lfu_policy self)) + hits (LRU_base (lru_policy self)).
Proof.
  apply (LCR_counters_are_sums_of_arms exp_045 2
           [("a", true); ("b", false); ("a", false); ("c", true)]).
  - lia.
  - exact exp_045_ok.
Defined.

Lemma list_pop_inv (l r : list CacheKey) (y : CacheKey) :
  list_pop l = Ok (r, y) -> l = r ++ [y].
Proof.
  intros H. destruct l as [|x l]; [discriminate|].
  destruct (list_pop_spec (x :: l)) as (r' & y' & Hp & Heq); [discriminate|].
  rewrite H in Hp. inversion Hp; subst. exact Heq.
Qed.

(** What a history holds after the miss branch logged an eviction: what it
    held, and the evicted key if that key is not the empty string. *)
Lemma record_eviction_In (b : Z) (h h' : list CacheKey) (m : option CacheKey) :
  record_eviction b h m = Ok h' ->
  forall k, In k h' -> In k h \/ (m = Some k /\ k <> "").
Proof.
  unfold record_eviction. intros H k Hk.
  destruct m as [e|]; [|inversion H; subst; auto].
  unfold truthy in H. destruct (String.eqb_spec e "") as [He|He]; simpl in H;
    [inversion H; subst; auto|].
  destruct (len h >=? b).
  - destruct (list_pop h) as [[r y]|x] eqn:Hpop; [|discriminate].
    cbn [bind] in H. inversion H; subst h'. apply list_pop_inv in Hpop.
    destruct Hk as [<-|Hk]; [right; auto|].
    left. rewrite Hpop. apply in_or_app. auto.
  - cbn [bind] in H. inversion H; subst h'.
    destruct Hk as [<-|Hk]; [right; auto | left; exact Hk].
Qed.

(** X12.  The miss branch tests the evicted key with [if maybe_evicted:], and
    the empty string is false: an evicted key [''] is not logged.  After any
    trace on a fresh LCR of positive budget, whatever the draws, neither
    history holds the empty string.  The C library's [exp(0.45)] is taken to
    be a positive finite double. *)
Theorem LCR_histories_never_log_empty_key
    (math_exp : float -> float) (b : Z) (trace : list (CacheKey * bool)) :
  0 < b ->
  Binary64.exp_ok (math_exp learning_rate) ->
  exists self outs,
    LCR_session math_exp b trace = Ok (self, outs) /\
    ~ In "" (history_lfu self) /\ ~ In "" (history_lru self).
Proof.
  intros Hb Hexp.
  set (P := fun self : LCR => ~ In "" (history_lfu self) /\ ~ In "" (history_lru self)).
  assert (Hstep : forall self rnd key self' r,
             LCR_wf self -> P self ->
             LCR_access math_exp self rnd key = Ok (self', r) -> P self').
  { intros self rnd key self' r _ [Hf Hr] Hacc. unfold P.
    destruct (LCR_access_cases _ _ _ _ _ _ Hacc)
      as [p _ Hp ->|p _ _ Hp ->|self1 p m h Hc Hup Hsel Hp Hrec -> _
         |self1 p m h Hc Hup Hsel Hp Hrec -> _].
    - simpl. auto.
    - simpl. auto.
    - destruct (update_weight_fields _ _ _ _ Hup) as (_ & _ & Hhr & _ & _).
      simpl. rewrite Hhr. simpl. split; [|exact Hr].
      intros Hin. destruct (record_eviction_In _ _ _ _ Hrec _ Hin) as [H|[_ H]];
        [exact (Hf H) | exact (H eq_refl)].
    - destruct (update_weight_fields _ _ _ _ Hup) as (_ & Hhf & _ & _ & _).
      simpl. rewrite Hhf. simpl. split; [exact Hf|].
      intros Hin. destruct (record_eviction_In _ _ _ _ Hrec _ Hin) as [H|[_ H]];
        [exact (Hr H) | exact (H eq_refl)]. }
  destruct (LCR_init_fields b Hb)
    as (s0 & Hi & Hwf0 & _ & Hhf & Hhr & _).
  unfold LCR_session. rewrite Hi. cbn [bind].
  destruct (LCR_run_invariant math_exp Hexp P Hstep trace s0 Hwf0)
    as (self & outs & Hrun & _ & HP).
  { unfold P. rewrite Hhf, Hhr. split; simpl; auto. }
  exists self, outs. split; [exact Hrun | exact HP].
Qed.

(** The frequency arm of an LCR of budget 1 is drawn for [''] and then for
    "a": [''] is evicted, and [history_lfu] stays empty. *)
Lemma LCR_histories_never_log_empty_key_witness :
  exists self outs,
    LCR_session exp_045 1 [("", true); ("a", true)] = Ok (self, outs) /\
    ~ In "" (history_lfu self) /\ ~ In "" (history_lru self).
Proof.
  apply (LCR_histories_never_log_empty_key exp_045 1 [("", true); ("a", true)]).
  - lia.
  - exact exp_045_ok.
Defined.

(** ** LCR before any eviction *)

Lemma update_weight_untrained (math_exp : float -> float) (self self1 : LCR)
    (key : CacheKey) :
  LCR_untrained self ->
  update_weight math_exp self key = Ok self1 ->
  w_lfu self1 = 0.5%float /\ w_lru self1 = 0.5%float.
Proof.
  intros (Hhf & Hhr & Hwf & Hwr). unfold update_weight, float_truediv.
  rewrite Hhf, Hhr. cbn [list_contains]. rewrite Hwf, Hwr.
  change (PrimFloat.eqb (PrimFloat.add 0.5 0.5) 0) with false.
  cbn [bind set_weights w_lru w_lfu]. intros H. inversion H. simpl.
  split; reflexivity.
Qed.

Lemma select_untrained (self : LCR) (rnd : bool) :
  w_lfu self = 0.5%float -> w_lru self = 0.5%float ->
  select_policy_and_history self rnd = if rnd then PolicyType.LFU else PolicyType.LRU.
Proof.
  intros Hf Hr. unfold select_policy_and_history. rewrite Hf, Hr.
  change (PrimFloat.ltb 0.5 0.5) with false. reflexivity.
Qed.

(** One access of an untrained LCR whose arms stay within [budget] distinct
    keys each ([U_f] for the frequency arm, [U_r] for the recency arm): no
    arm evicts, so the LCR stays untrained. *)
Lemma LCR_access_untrained (math_exp : float -> float)
    (Hexp : Binary64.exp_ok (math_exp learning_rate))
    (U_f U_r : list CacheKey) (self : LCR) (rnd : bool) (key : CacheKey) :
  NoDup U_f -> NoDup U_r ->
  LCR_wf self -> LCR_untrained self ->
  len U_f <= budget (LCR_base self) -> len U_r <= budget (LCR_base self) ->
  incl (keys (frequency_counter (lfu_policy self))) U_f ->
  incl (recency_list (lru_policy self)) U_r ->
  (if rnd then In key U_f else In key U_r) ->
  exists self',
    LCR_access math_exp self rnd key = Ok (self', None) /\
    LCR_wf self' /\ LCR_untrained self' /\
    budget (LCR_base self') = budget (LCR_base self) /\
    incl (keys (frequency_counter (lfu_policy self'))) U_f /\
    incl (recency_list (lru_policy self')) U_r /\
    hits (LCR_base self') + len (frequency_counter (lfu_policy self'))
      + len (recency_list (lru_policy self'))
    = hits (LCR_base self) + len (frequency_counter (lfu_policy self))
      + len (recency_list (lru_policy self)) + 1 /\
    (forall k,
        In k (keys (frequency_counter (lfu_policy self')))
        \/ In k (recency_list (lru_policy self'))
        <-> k = key \/ In k (keys (frequency_counter (lfu_policy self)))
            \/ In k (recency_list (lru_policy self))).
Proof.
  intros HUf HUr Hwf Hun HlUf HlUr Hif Hir Hdraw.
  destruct (LCR_access_spec math_exp Hexp self rnd key Hwf) as (self' & Hacc & Hwf' & Hb' & _).
  exists self'. split; [exact Hacc|]. split; [exact Hwf'|].
  pose proof (LCR_wf_lfu _ Hwf) as Hlfu. pose proof (LCR_wf_lru _ Hwf) as Hlru.
  pose proof (LCR_wf_lfu_budget _ Hwf) as Hbf.
  pose proof (LCR_wf_lru_budget _ Hwf) as Hbr.
  assert (Hun0 : LCR_untrained (set_base self (incr_accesses (LCR_base self))))
    by exact Hun.
  destruct Hun as (Hhf & Hhr & Hw1 & Hw2).
  destruct (LCR_access_cases _ _ _ _ _ _ Hacc)
    as [p Hf Hp ->|p Hf Hr Hp ->|self1 p m h Hc Hup Hsel Hp Hrec -> _
       |self1 p m h Hc Hup Hsel Hp Hrec -> _].
  - (* hit, frequency arm *)
    rewrite (LFU_access_hit_step _ key Hlfu Hf) in Hp. inversion Hp; subst p.
    assert (Hin : In key (keys (frequency_counter (lfu_policy self)))).
    { apply LFU_contains_In; [apply (LFU_wf_positive _ Hlfu) | exact Hf]. }
    pose proof Hin as Hlc. apply list_contains_In in Hlc.
    unfold LCR_untrained.
    cbn [set_arm_lfu set_base LCR_base lfu_policy lru_policy history_lfu history_lru
         w_lfu w_lru frequency_counter LFU_base].
    split; [repeat split; assumption|]. split; [reflexivity|].
    rewrite Counter_incr_keys, Counter_incr_len, Hlc.
    split; [exact Hif|]. split; [exact Hir|]. split; [simpl; lia|].
    intros k. split; [tauto|]. intros [->|H]; tauto.
  - (* hit, recency arm *)
    destruct (LRU_access_spec _ key Hlru) as (p' & r' & Hp' & _ & _ & _ & _ & Hhit).
    rewrite Hp in Hp'. inversion Hp'; subst p' r'. clear Hp'.
    destruct (Hhit Hr) as [_ Hsame].
    destruct (LRU_access_conserves _ key Hlru) as (p' & r' & Hp' & _ & Hcons).
    rewrite Hp in Hp'. inversion Hp'; subst p' r'. clear Hp'.
    pose proof (LRU_access_base _ _ _ _ Hp) as Hbase. rewrite Hr in Hbase.
    rewrite Hbase in Hcons. simpl in Hcons.
    unfold LCR_untrained.
    cbn [set_arm_lru set_base LCR_base lfu_policy lru_policy history_lfu history_lru
         w_lfu w_lru].
    split; [repeat split; assumption|]. split; [reflexivity|].
    split; [exact Hif|]. split; [intros k Hk; apply Hir, Hsame, Hk|].
    split; [simpl; lia|].
    intros k. rewrite Hsame. split; [tauto|].
    intros [->|H]; [|tauto]. right. apply list_contains_In. exact Hr.
  - (* miss, frequency arm *)
    destruct (update_weight_fields _ _ _ _ Hup) as (Hb1 & Hhf1 & Hhr1 & Hpf1 & Hpr1).
    destruct (update_weight_untrained _ _ _ _ Hun0 Hup) as [Hwf1 Hwr1].
    rewrite (select_untrained self1 rnd Hwf1 Hwr1) in Hsel.
    destruct rnd; [|discriminate].
    apply orb_false_iff in Hc. destruct Hc as [Hcf Hcr].
    assert (Hn : ~ In key (keys (frequency_counter (lfu_policy self)))).
    { intros Hin. apply (LFU_contains_In _ key (LFU_wf_positive _ Hlfu)) in Hin.
      congruence. }
    assert (HinclI : incl (keys (Counter_incr (frequency_counter (lfu_policy self)) key)) U_f).
    { intros k Hk. apply Counter_incr_keys_incl in Hk.
      destruct Hk as [->|Hk]; [exact Hdraw | apply Hif, Hk]. }
    destruct (LFU_access_keeps (lfu_policy self) key) as (p' & Hp' & Hfc & _ & _ & Hh).
    { rewrite <- len_keys.
      pose proof (len_NoDup_incl _ U_f
                    (Counter_incr_NoDup _ key (LFU_wf_nodup _ Hlfu)) HinclI).
      lia. }
    rewrite Hp in Hp'. inversion Hp'; subst p' m. clear Hp'.
    cbn [record_eviction] in Hrec. inversion Hrec; subst h.
    unfold LCR_untrained.
    cbn [set_arm_lfu set_base LCR_base lfu_policy lru_policy history_lfu history_lru
         w_lfu w_lru].
    rewrite Hb1, Hhr1, Hpr1, Hfc.
    cbn [set_base LCR_base lfu_policy lru_policy history_lfu history_lru].
    split; [repeat split; assumption|]. split; [reflexivity|].
    split; [exact HinclI|]. split; [exact Hir|].
    rewrite Counter_incr_absent by exact Hn. split.
    + rewrite len_app. change (len [(key, 1)]) with 1.
      cbn [hits incr_accesses]. lia.
    + intros k. unfold keys. rewrite map_app, in_app_iff. simpl.
      split; intros H; intuition (subst; auto).
  - (* miss, recency arm *)
    destruct (update_weight_fields _ _ _ _ Hup) as (Hb1 & Hhf1 & Hhr1 & Hpf1 & Hpr1).
    destruct (update_weight_untrained _ _ _ _ Hun0 Hup) as [Hwf1 Hwr1].
    rewrite (select_untrained self1 rnd Hwf1 Hwr1) in Hsel.
    destruct rnd; [discriminate|].
    apply orb_false_iff in Hc. destruct Hc as [Hcf Hcr].
    assert (Hn : ~ In key (recency_list (lru_policy self)))
      by (apply list_contains_false; exact Hcr).
    assert (Hnd : NoDup (key :: recency_list (lru_policy self)))
      by (constructor; [exact Hn | apply (LRU_wf_nodup _ Hlru)]).
    assert (Hi : incl (key :: recency_list (lru_policy self)) U_r).
    { intros k [<-|Hk]; [exact Hdraw | apply Hir, Hk]. }
    pose proof (len_NoDup_incl _ _ Hnd Hi) as Hle. rewrite len_cons in Hle.
    rewrite (LRU_access_miss_room _ key Hn) in Hp by lia.
    inversion Hp; subst p m. clear Hp.
    cbn [record_eviction] in Hrec. inversion Hrec; subst h.
    unfold LCR_untrained.
    cbn [set_arm_lru set_base LCR_base lfu_policy lru_policy history_lfu history_lru
         w_lfu w_lru recency_list].
    rewrite Hb1, Hhf1, Hpf1.
    cbn [set_base LCR_base lfu_policy lru_policy history_lfu history_lru].
    split; [repeat split; assumption|]. split; [reflexivity|].
    split; [exact Hif|]. split; [exact Hi|].
    split; [rewrite len_cons; simpl; lia|].
    intros k. simpl. split; [intros [H|[H|H]]; auto | intros [H|[H|H]]; auto].
Qed.

Lemma LCR_run_untrained (math_exp : float -> float)
    (Hexp : Binary64.exp_ok (math_exp learning_rate))
    (U_f U_r : list CacheKey) (trace : list (CacheKey * bool)) :
  NoDup U_f -> NoDup U_r ->
  Forall (fun kr : CacheKey * bool =>
            if snd kr then In (fst kr) U_f else In (fst kr) U_r) trace ->
  forall self : LCR,
    LCR_wf self -> LCR_untrained self ->
    len U_f <= budget (LCR_base self) -> len U_r <= budget (LCR_base self) ->
    incl (keys (frequency_counter (lfu_policy self))) U_f ->
    incl (recency_list (lru_policy self)) U_r ->
    exists self',
      LCR_run math_exp self trace = Ok (self', repeat None (List.length trace)) /\
      LCR_wf self' /\ LCR_untrained self' /\
      hits (LCR_base self') + len (frequency_counter (lfu_policy self'))
        + len (recency_list (lru_policy self'))
      = hits (LCR_base self) + len (frequency_counter (lfu_policy self))
        + len (recency_list (lru_policy self)) + len trace /\
      (forall k,
          In k (keys (frequency_counter (lfu_policy self')))
          \/ In k (recency_list (lru_policy self'))
          <-> In k (map fst trace)
              \/ In k (keys (frequency_counter (lfu_policy self)))
              \/ In k (recency_list (lru_policy self))).
Proof.
  intros HUf HUr. induction trace as [|[key rnd] rest IH];
    intros Htr self Hwf Hun HlUf HlUr Hif Hir.
  - exists self. split; [reflexivity|]. split; [exact Hwf|]. split; [exact Hun|].
    split; [unfold len; simpl; lia|]. intros k. simpl. tauto.
  - inversion Htr as [|? ? Hdraw Hrest]; subst. simpl in Hdraw.
    destruct (LCR_access_untrained math_exp Hexp U_f U_r self rnd key)
      as (s1 & Hacc & Hwf1 & Hun1 & Hb1 & Hif1 & Hir1 & Hc1 & Hm1); try assumption.
    destruct (IH Hrest s1 Hwf1 Hun1) as (s2 & Hrun & Hwf2 & Hun2 & Hc2 & Hm2);
      try assumption; try lia.
    exists s2. cbn [LCR_run]. rewrite Hacc. cbn [bind]. rewrite Hrun. cbn [bind].
    split; [reflexivity|]. split; [exact Hwf2|]. split; [exact Hun2|].
    split; [rewrite len_cons; lia|].
    intros k. rewrite Hm2, Hm1. simpl. split; intros H; intuition (subst; auto).
Qed.

Lemma LCR_arms_len (self : LCR) (U : list CacheKey) :
  LCR_wf self -> NoDup U ->
  (forall k, In k (keys (frequency_counter (lfu_policy self)))
             \/ In k (recency_list (lru_policy self)) <-> In k U) ->
  len (frequency_counter (lfu_policy self)) + len (recency_list (lru_policy self))
  = len U.
Proof.
  intros Hwf HU Hm.
  rewrite <- len_keys, <- len_app. apply len_nodup_incl.
  - apply NoDup_app.
    + apply (LFU_wf_nodup _ (LCR_wf_lfu _ Hwf)).
    + apply (LRU_wf_nodup _ (LCR_wf_lru _ Hwf)).
    + intros k Hf Hr. exact (LCR_wf_disjoint _ Hwf k Hf Hr).
  - exact HU.
  - intros k Hk. apply Hm. apply in_app_or in Hk. exact Hk.
  - intros k Hk. apply in_or_app. apply Hm. exact Hk.
Qed.

(** X13.  When the distinct keys of a trace are no more than the budget, a
    fresh LCR, whatever the draws, evicts nothing and learns nothing: both
    histories stay empty, both weights stay 0.5, and only the first access of
    each key is a miss.  The C library's [exp(0.45)] is taken to be a
    positive finite double. *)
Theorem LCR_working_set_fits
    (math_exp : float -> float) (b : Z) (trace : list (CacheKey * bool)) :
  0 < b ->
  Binary64.exp_ok (math_exp learning_rate) ->
  len (nodup CacheKey_eq_dec (map fst trace)) <= b ->
  exists self outs,
    LCR_session math_exp b trace = Ok (self, outs) /\
    history_lfu self = [] /\ history_lru self = [] /\
    w_lfu self = 0.5%float /\ w_lru self = 0.5%float /\
    hits (LCR_base self) = len trace - len (nodup CacheKey_eq_dec (map fst trace)).
Proof.
  intros Hb Hexp Hfit.
  destruct (LCR_init_fields b Hb)
    as (s0 & Hi & Hwf0 & Hbase & Hhf & Hhr & Hpf & Hpr & Hw1 & Hw2).
  set (U := nodup CacheKey_eq_dec (map fst trace)) in *.
  assert (HU : NoDup U) by apply NoDup_nodup.
  destruct (LCR_run_untrained math_exp Hexp U U trace HU HU) with (self := s0)
    as (self & Hrun & Hwf & Hun & Hc & Hm).
  - apply Forall_forall. intros [k d] Hin. simpl.
    assert (In k U) by (apply nodup_In, in_map_iff; exists (k, d); auto).
    destruct d; assumption.
  - exact Hwf0.
  - repeat split; assumption.
  - rewrite Hbase. exact Hfit.
  - rewrite Hbase. exact Hfit.
  - rewrite Hpf. intros k [].
  - rewrite Hpr. intros k [].
  - exists self, (repeat None (List.length trace)).
    unfold LCR_session. rewrite Hi. cbn [bind]. split; [exact Hrun|].
    destruct Hun as (H1 & H2 & H3 & H4). repeat (split; [assumption|]).
    assert (Hlen : len (frequency_counter (lfu_policy self))
                   + len (recency_list (lru_policy self)) = len U).
    { apply LCR_arms_len; [exact Hwf | exact HU|].
      intros k. rewrite Hm, Hpf, Hpr. simpl. unfold U. rewrite nodup_In. tauto. }
    rewrite Hbase, Hpf, Hpr in Hc. cbn [hits frequency_counter recency_list] in Hc.
    change (len (@nil (CacheKey * Z))) with 0 in Hc.
    change (len (@nil CacheKey)) with 0 in Hc. lia.
Qed.

Lemma LCR_working_set_fits_witness :
  exists self outs,
    LCR_session exp_045 2 [("a", true); ("b", false); ("a", false); ("b", true)]
      = Ok (self, outs) /\
    history_lfu self = [] /\ history_lru self = [] /\
    w_lfu self = 0.5%float /\ w_lru self = 0.5%float /\
    hits (LCR_base self)
    = len [("a", true); ("b", false); ("a", false); ("b", true)]
      - len (nodup CacheKey_eq_dec
               (map fst [("a", true); ("b", false); ("a", false); ("b", true)])).
Proof.
  apply (LCR_working_set_fits exp_045 2
           [("a", true); ("b", false); ("a", false); ("b", true)]).
  - lia.
  - exact exp_045_ok.
  - vm_compute. discriminate.
Defined.

(** X14.  The budget of an LCR bounds each arm, not the LCR: given [2 *
    budget] distinct keys, the first half accessed with the recency arm drawn
    and the second half with the frequency arm drawn, a fresh LCR ends up
    holding all of them at once.  The C library's [exp(0.45)] is taken to be
    a positive finite double. *)
Theorem LCR_can_hold_twice_its_budget
    (math_exp : float -> float) (b : Z) (ks_r ks_f : list CacheKey) :
  0 < b ->
  Binary64.exp_ok (math_exp learning_rate) ->
  NoDup (ks_r ++ ks_f) ->
  len ks_r = b -> len ks_f = b ->
  exists self outs,
    LCR_session math_exp b
      (map (fun k => (k, false)) ks_r ++ map (fun k => (k, true)) ks_f)
      = Ok (self, outs) /\
    (forall k, In k (ks_r ++ ks_f) -> LCR_contains self k = true) /\
    len (frequency_counter (lfu_policy self)) + len (recency_list (lru_policy self))
    = 2 * b.
Proof.
  intros Hb Hexp Hnd Hlr Hlf.
  destruct (LCR_init_fields b Hb)
    as (s0 & Hi & Hwf0 & Hbase & Hhf & Hhr & Hpf & Hpr & Hw1 & Hw2).
  set (trace := map (fun k : CacheKey => (k, false)) ks_r
                ++ map (fun k : CacheKey => (k, true)) ks_f).
  assert (Hkeys : map fst trace = ks_r ++ ks_f).
  { unfold trace. rewrite map_app, !map_map. simpl. rewrite !map_id. reflexivity. }
  destruct (LCR_run_untrained math_exp Hexp ks_f ks_r trace) with (self := s0)
    as (self & Hrun & Hwf & Hun & Hc & Hm).
  - apply NoDup_app_remove_l in Hnd. exact Hnd.
  - apply NoDup_app_remove_r in Hnd. exact Hnd.
  - unfold trace. apply Forall_app. split; apply Forall_forall; intros [k d] Hin;
      apply in_map_iff in Hin; destruct Hin as (k' & Heq & Hin);
      inversion Heq; subst; simpl; exact Hin.
  - exact Hwf0.
  - repeat split; assumption.
  - rewrite Hbase. simpl. lia.
  - rewrite Hbase. simpl. lia.
  - rewrite Hpf. intros k [].
  - rewrite Hpr. intros k [].
  - exists self, (repeat None (List.length trace)).
    unfold LCR_session. rewrite Hi. cbn [bind]. split; [exact Hrun|].
    assert (Hm' : forall k,
               In k (keys (frequency_counter (lfu_policy self)))
               \/ In k (recency_list (lru_policy self)) <-> In k (ks_r ++ ks_f)).
    { intros k. rewrite Hm, Hkeys, Hpf, Hpr. simpl. tauto. }
    split.
    + intros k Hk. apply Hm' in Hk. unfold LCR_contains. apply orb_true_iff.
      destruct Hk as [Hk|Hk]; [left | right].
      * apply LFU_contains_In;
          [apply (LFU_wf_positive _ (LCR_wf_lfu _ Hwf)) | exact Hk].
      * apply list_contains_In. exact Hk.
    + rewrite (LCR_arms_len self (ks_r ++ ks_f) Hwf Hnd Hm'), len_app. lia.
Qed.

Lemma LCR_can_hold_twice_its_budget_witness :
  exists self outs,
    LCR_session exp_045 2
      (map (fun k => (k, false)) ["a"; "b"] ++ map (fun k => (k, true)) ["c"; "d"])
      = Ok (self, outs) /\
    (forall k, In k (["a"; "b"] ++ ["c"; "d"]) -> LCR_contains self k = true) /\
    len (frequency_counter (lfu_policy self)) + len (recency_list (lru_policy self))
    = 2 * 2.
Proof.
  apply (LCR_can_hold_twice_its_budget exp_045 2 ["a"; "b"] ["c"; "d"]).
  - lia.
  - exact exp_045_ok.
  - repeat constructor; simpl; intuition discriminate.
  - reflexivity.
  - reflexivity.
Defined.

(** ** The hit rate as a percentage *)

Module Binary64_division.
Import Binary64.
Import Binary64_facts.

Lemma dg_mul_le (a b : positive) : dg (Z.pos (a * b)) <= dg (Z.pos a) + dg (Z.pos b).
Proof.
  destruct (dg_pos_bounds (Z.pos a)) as (Ha & _ & Ha2); [lia|].
  destruct (dg_pos_bounds (Z.pos b)) as (Hb & _ & Hb2); [lia|].
  apply dg_lt_pow; [lia | lia |].
  rewrite Z.pow_add_r by lia. rewrite Pos2Z.inj_mul. nia.
Qed.

(** A quotient that is at most the double [mv * 2^ev] rounds to at most that
    double. *)
Lemma SFdiv_upper (x y : spec_float) (mv ev : Z) :
  good x -> good y -> 0 < val y ->
  0 < mv < 2 ^ 53 -> -1074 <= ev -> V mv ev < V 1 1024 ->
  val x * 2 ^ OFS <= V mv ev * val y ->
  upper_ok (SFdiv prec emax x y) mv ev.
Proof.
  intros Hx Hy Hpos Hmv Hev Hfin Hle.
  destruct x as [[|]|[|]| |[|] mx ex]; try (exfalso; exact (proj2 Hx));
    destruct y as [[|]|[|]| |[|] my ey]; try (exfalso; exact (proj2 Hy));
    cbn [val] in *; try lia; [exact I|].
  destruct (good_finite _ _ Hx) as (_ & Hex & _). destruct (good_finite _ _ Hy) as (_ & Hey & _).
  assert (Hex' : - OFS <= ex) by (unfold OFS; lia).
  assert (Hey' : - OFS <= ey) by (unfold OFS; lia).
  assert (Hev' : - OFS <= ev) by (unfold OFS; lia).
  assert (Hevy : - OFS <= ev + ey) by (unfold OFS; lia).
  destruct mv as [|pv|]; try lia.
  (* the bound as a product *)
  assert (Hprod : V (Z.pos mx) ex <= V (Z.pos (pv * my)) (ev + ey)).
  { pose proof (V_mul (Z.pos pv) (Z.pos my) ev ey Hev' Hey' Hevy) as HM.
    rewrite Pos2Z.inj_mul.
    pose proof (pow2_pos OFS ltac:(unfold OFS; lia)) as P.
    apply Z.mul_le_mono_pos_r with (p := 2 ^ OFS); [exact P|]. lia. }
  pose proof (value_digits_le mx (pv * my) ex (ev + ey) Hex' Hevy Hprod) as Hdig.
  pose proof (dg_mul_le pv my) as Hdm.
  assert (Hdv : dg (Z.pos pv) <= 53) by (apply dg_lt_pow; lia).
  cbn [SFdiv xorb].
  destruct (div_core_spec mx my ex ey) as (q & r & -> & Heq & Hr & Hq). cbn zeta in Heq.
  set (t := dg (Z.pos mx) + ex - (dg (Z.pos my) + ey)) in *.
  set (e' := Z.min (fexp64 t) (ex - ey)) in *.
  assert (Ht : t <= 53 + ev) by (unfold t; lia).
  assert (He'ev : e' <= ev) by (unfold e', fexp64; lia).
  assert (He'ofs : - OFS <= e') by (unfold e', fexp64, OFS; lia).
  set (s := ex - ey - e') in *.
  assert (Hs : 0 <= s) by (unfold s, e'; lia).
  set (N := Z.pos pv * 2 ^ (ev - e')).
  assert (Hbound : Z.pos mx * 2 ^ s <= Z.pos my * N).
  { unfold V in Hle. unfold N.
    set (c := ey + e' + 2 * OFS).
    assert (Hc : 0 <= c) by (unfold c, OFS in *; lia).
    pose proof (pow2_pos c Hc) as Pc.
    assert (E1 : 2 ^ (ex + OFS) * 2 ^ OFS = 2 ^ s * 2 ^ c).
    { rewrite <- !Z.pow_add_r by (unfold OFS in *; lia). f_equal. unfold s, c. lia. }
    assert (E2 : 2 ^ (ev + OFS) * 2 ^ (ey + OFS) = 2 ^ (ev - e') * 2 ^ c).
    { rewrite <- !Z.pow_add_r by (unfold OFS in *; lia). f_equal. unfold c. lia. }
    apply Z.mul_le_mono_pos_r with (p := 2 ^ c); [exact Pc|].
    replace (Z.pos mx * 2 ^ s * 2 ^ c) with (Z.pos mx * (2 ^ s * 2 ^ c)) by ring.
    replace (Z.pos my * (Z.pos pv * 2 ^ (ev - e')) * 2 ^ c)
      with (Z.pos pv * (2 ^ (ev - e') * 2 ^ c) * Z.pos my) by ring.
    rewrite <- E1, <- E2.
    replace (Z.pos mx * (2 ^ (ex + OFS) * 2 ^ OFS))
      with (Z.pos mx * 2 ^ (ex + OFS) * 2 ^ OFS) by ring.
    replace (Z.pos pv * (2 ^ (ev + OFS) * 2 ^ (ey + OFS)) * Z.pos my)
      with (Z.pos pv * 2 ^ (ev + OFS) * (Z.pos my * 2 ^ (ey + OFS))) by ring.
    exact Hle. }
  assert (HV1 : V (Z.pos pv) ev = V N e').
  { unfold N. apply V_shift; assumption. }
  pose proof (pow2_pos (ev - e') ltac:(lia)) as P2.
  destruct (new_location_exact (Z.pos my) r) as [Hloc0 Hloc1].
  apply bra_upper; try assumption; try lia.
  - (* the quotient is wide enough *)
    destruct (Z_le_gt_dec e' (-1074)) as [Hlow|Hhigh]; [unfold fexp64; lia|].
    assert (Hf : fexp64 t = t - 53) by (unfold e', fexp64 in *; lia).
    assert (Hs53 : 53 - dg (Z.pos mx) + dg (Z.pos my) <= s) by (unfold s, e', t in *; lia).
    destruct (dg_pos_bounds (Z.pos mx)) as (Hd1 & Hlo1 & _); [lia|].
    destruct (dg_pos_bounds (Z.pos my)) as (Hd2 & _ & Hhi2); [lia|].
    assert (Hq52 : 2 ^ 52 <= q).
    { assert (Hbig : 2 ^ 52 * 2 ^ dg (Z.pos my) <= Z.pos mx * 2 ^ s).
      { apply Z.le_trans with (2 ^ (dg (Z.pos mx) - 1) * 2 ^ s).
        - rewrite <- !Z.pow_add_r by lia. apply Z.pow_le_mono_r; lia.
        - pose proof (pow2_pos s Hs). nia. }
      destruct (Z_lt_le_dec q (2 ^ 52)) as [Hlt|]; [|assumption].
      exfalso. nia. }
    apply dg_ge_pow in Hq52; [|lia]. unfold fexp64. lia.
  - intros Hl. rewrite HV1. apply V_le; [assumption|].
    destruct (Z.eq_dec r 0) as [->|Hr0]; [|exfalso; apply (Hloc1 Hr0); exact Hl]. nia.
  - intros Hl. rewrite HV1. apply V_le; [assumption|].
    destruct (Z.eq_dec r 0) as [->|Hr0]; [exfalso; apply Hl; apply Hloc0; reflexivity|]. nia.
Qed.

(** [float(n)] is exact for an [int] below [2^53]. *)
Lemma float_of_int_exact (n : Z) :
  0 <= n < 2 ^ 53 ->
  exists f, float_of_int n = Ok f /\ fgood f /\ fval f = V n 0.
Proof.
  intros Hn.
  set (f := PrimFloat.of_uint63 (Uint63.of_Z n)).
  assert (Hspec : Prim2SF f = binary_normalize prec emax n 0 false).
  { unfold f. rewrite of_uint63_spec, Uint63.of_Z_spec.
    rewrite Z.mod_small; [reflexivity|].
    change Uint63.wB with (2 ^ 63). split; [lia|].
    apply Z.lt_trans with (2 ^ 53); [lia | reflexivity]. }
  assert (Hf : SF2Prim (binary_normalize prec emax n 0 false) = f).
  { rewrite <- Hspec. apply SF2Prim_Prim2SF. }
  assert (Hgv : fgood f /\ fval f = V n 0).
  { unfold fgood, fval. rewrite Hspec.
    destruct n as [|p|p]; [| |lia].
    - cbn [binary_normalize nnf val]. split; [exact I|]. reflexivity.
    - cbn [binary_normalize].
      assert (HL : lower_ok (binary_round prec emax false p 0) (Z.pos p) 0).
      { apply binary_round_lower; try (unfold OFS; lia). }
      assert (HU : upper_ok (binary_round prec emax false p 0) (Z.pos p) 0).
      { apply binary_round_upper; try (unfold OFS; lia).
        apply Z.lt_trans with (V (2 ^ 53) 0).
        - apply V_lt; [unfold OFS; lia | lia].
        - rewrite (V_shift 1 0 1024) by (unfold OFS; lia).
          apply V_lt; [unfold OFS; lia|]. rewrite Z.mul_1_l.
          apply Z.pow_lt_mono_r; lia. }
      destruct (binary_round prec emax false p 0) as [[|]|[|]| |[|] m e];
        cbn [lower_ok upper_ok nnf val] in *; try contradiction; try lia. }
  exists f. split; [|exact Hgv].
  unfold float_of_int. cbn zeta. rewrite Hf.
  assert (Hinf : PrimFloat.is_infinity f = false).
  { unfold PrimFloat.is_infinity. rewrite eqb_spec, abs_spec, Prim2SF_infinity.
    destruct Hgv as [Hg _]. unfold fgood in Hg.
    destruct (Prim2SF f) as [[|]|[|]| |[|] m e]; try contradiction; reflexivity. }
  rewrite Hinf. reflexivity.
Qed.

Lemma Prim2SF_100 : Prim2SF 100%float = S754_finite false 7036874417766400 (-46).
Proof. vm_compute. reflexivity. Qed.

Lemma fval_100 : fgood 100%float /\ fval 100%float = V 100 0.
Proof.
  unfold fgood, fval. rewrite Prim2SF_100. split; [exact I|]. cbn [val].
  rewrite (V_shift 100 (-46) 0) by (unfold OFS; lia). reflexivity.
Qed.

Lemma V_lt_inf (m : Z) : 0 <= m <= 2 ^ 53 -> V m 0 < V 1 1024.
Proof.
  intros Hm. rewrite (V_shift 1 0 1024) by (unfold OFS; lia).
  apply V_lt; [unfold OFS; lia|]. rewrite Z.mul_1_l.
  apply Z.le_lt_trans with (2 ^ 53); [lia|]. apply Z.pow_lt_mono_r; lia.
Qed.

(** [h * 100] is exact while the product is below [2^53]. *)
Lemma fmul_100_exact (h : float) (n : Z) :
  fgood h -> fval h = V n 0 -> 0 <= 100 * n < 2 ^ 53 ->
  fgood (h * 100)%float /\ fval (h * 100)%float = V (100 * n) 0.
Proof.
  intros Hg Hv Hn. destruct fval_100 as [G100 V100].
  pose proof (fgood_good _ Hg) as Gh. pose proof (fgood_good _ G100) as Gc.
  assert (Hprod : V (100 * n) 0 * 2 ^ OFS = val (Prim2SF h) * val (Prim2SF 100%float)).
  { unfold fval in Hv, V100. rewrite Hv, V100.
    replace (100 * n) with (n * 100) by ring.
    assert (HO : - OFS <= 0) by (unfold OFS; lia).
    exact (V_mul n 100 0 0 HO HO HO). }
  assert (HU : upper_ok (Prim2SF (h * 100)%float) (100 * n) 0).
  { rewrite mul_spec. apply SFmul_upper; try assumption; try lia.
    apply V_lt_inf. lia. }
  assert (HL : lower_ok (Prim2SF (h * 100)%float) (100 * n) 0).
  { rewrite mul_spec. apply SFmul_lower; try assumption; try lia. }
  destruct (upper_ok_good _ _ _ HU) as [G Hle]; [lia|].
  split; [exact G|]. pose proof (lower_ok_fval _ _ _ HL G). lia.
Qed.

(** The quotient of two doubles, the first at most [100] times the second,
    is a double of [0, 100]. *)
Lemma fdiv_percent (num a : float) (h n : Z) :
  fgood num -> fval num = V (100 * h) 0 ->
  fgood a -> fval a = V n 0 -> 0 <= h <= n -> 0 < n ->
  PrimFloat.eqb a 0%float = false /\
  PrimFloat.leb 0 (num / a)%float = true /\
  PrimFloat.leb (num / a)%float 100 = true.
Proof.
  intros Gn Vn Ga Va Hh Hpos. destruct fval_100 as [G100 V100].
  pose proof (fgood_good _ Gn) as Gn'. pose proof (fgood_good _ Ga) as Ga'.
  assert (Hapos : 0 < fval a).
  { rewrite Va. unfold V. pose proof (pow2_pos (0 + OFS) ltac:(unfold OFS; lia)). nia. }
  assert (HU : upper_ok (Prim2SF (num / a)%float) 100 0).
  { rewrite div_spec. apply SFdiv_upper; try assumption; try lia.
    - apply V_lt_inf. lia.
    - unfold fval in Vn, Va. rewrite Vn, Va.
      assert (HO : - OFS <= 0) by (unfold OFS; lia).
      pose proof (V_mul 100 h 0 0 HO HO HO) as HM. change (0 + 0) with 0 in HM.
      rewrite HM. apply Z.mul_le_mono_nonneg_l; [apply V_nonneg; lia|].
      apply V_le; [exact HO | lia]. }
  destruct (upper_ok_good _ _ _ HU) as [G Hle]; [lia|].
  pose proof (fgood_good _ G) as G'.
  split; [|split].
  - rewrite eqb_spec. unfold SFeqb.
    rewrite (SFcompare_good _ _ Ga' (fgood_good _ fgood_zero)).
    pose proof fval_zero as Hz. unfold fval in Hz, Hapos. rewrite Hz.
    destruct (Z.compare_spec (val (Prim2SF a)) 0); try reflexivity; lia.
  - rewrite leb_spec. apply SFleb_good; [apply fgood_good; exact fgood_zero | exact G' |].
    pose proof fval_zero as Hz. unfold fval in Hz. rewrite Hz. apply val_nonneg. exact G'.
  - rewrite leb_spec. apply SFleb_good; [exact G' | apply fgood_good; exact G100 |].
    unfold fval in V100, Hle. rewrite V100. exact Hle.
Qed.

End Binary64_division.

(** The hit rate of a policy that has been accessed, with counters in the
    range where [hits * 100] is exact. *)
Lemma hitrate_percentage (self : CachePolicy) :
  0 <= hits self <= accesses self ->
  0 < accesses self < 2 ^ 46 ->
  exists x,
    hitrate self = Ok x /\
    PrimFloat.leb 0 x = true /\ PrimFloat.leb x 100 = true.
Proof.
  intros Hh Ha.
  assert (H46 : 100 * 2 ^ 46 < 2 ^ 53) by reflexivity.
  destruct (Binary64_division.float_of_int_exact (hits self)) as (h & Hfh & Gh & Vh); [lia|].
  destruct (Binary64_division.float_of_int_exact (accesses self)) as (a & Hfa & Ga & Va); [lia|].
  destruct (Binary64_division.fmul_100_exact h (hits self) Gh Vh) as [Gn Vn]; [lia|].
  destruct (Binary64_division.fdiv_percent _ a (hits self) (accesses self) Gn Vn Ga Va)
    as (Hne & H0 & H100); [lia | lia |].
  unfold hitrate. rewrite Hfh. cbn [bind]. rewrite Hfa. cbn [bind]. rewrite Hne.
  eexists. split; [reflexivity|]. split; assumption.
Qed.

(** X15.  Once a policy has been accessed, [hitrate] returns a percentage:
    after any non-empty trace of fewer than [2^46] accesses on a fresh LFU,
    LRU or LCR of positive budget, [hitrate] raises nothing and returns a
    double between 0.0 and 100.0.  For LCR the C library's [exp(0.45)] is
    taken to be a positive finite double. *)
Theorem hitrate_is_a_percentage (b : Z) :
  0 < b ->
  (forall trace, trace <> [] -> len trace < 2 ^ 46 ->
     exists self outs x,
       LFU_session b trace = Ok (self, outs) /\
       LFU_hitrate self = Ok x /\
       PrimFloat.leb 0 x = true /\ PrimFloat.leb x 100 = true) /\
  (forall trace, trace <> [] -> len trace < 2 ^ 46 ->
     exists self outs x,
       LRU_session b trace = Ok (self, outs) /\
       LRU_hitrate self = Ok x /\
       PrimFloat.leb 0 x = true /\ PrimFloat.leb x 100 = true) /\
  (forall math_exp trace,
     Binary64.exp_ok (math_exp learning_rate) ->
     trace <> [] -> len trace < 2 ^ 46 ->
     exists self outs x,
       LCR_session math_exp b trace = Ok (self, outs) /\
       LCR_hitrate self = Ok x /\
       PrimFloat.leb 0 x = true /\ PrimFloat.leb x 100 = true).
Proof.
  intros Hb.
  assert (Hpos : forall (A : Type) (t : list A), t <> [] -> 0 < len t).
  { intros A [|x t] H; [congruence|]. rewrite len_cons. pose proof (len_nonneg t). lia. }
  split; [|split].
  - intros trace Hne Hlt.
    destruct (LFU_session_spec b trace Hb) as (self & outs & Hs & Hwf & _ & Hacc).
    destruct (hitrate_percentage (LFU_base self)) as (x & Hx & H0 & H100).
    + apply (LFU_wf_hits _ Hwf).
    + rewrite Hacc. split; [apply Hpos; exact Hne | exact Hlt].
    + exists self, outs, x. repeat split; assumption.
  - intros trace Hne Hlt.
    destruct (LRU_session_spec b trace Hb) as (self & outs & Hs & Hwf & _ & Hacc).
    destruct (hitrate_percentage (LRU_base self)) as (x & Hx & H0 & H100).
    + apply (LRU_wf_hits _ Hwf).
    + rewrite Hacc. split; [apply Hpos; exact Hne | exact Hlt].
    + exists self, outs, x. repeat split; assumption.
  - intros math_exp trace Hexp Hne Hlt.
    destruct (LCR_session_spec math_exp Hexp b trace Hb)
      as (self & outs & Hs & Hwf & _ & Hacc & _).
    destruct (hitrate_percentage (LCR_base self)) as (x & Hx & H0 & H100).
    + apply (LCR_wf_hits _ Hwf).
    + rewrite Hacc. split; [apply Hpos; exact Hne | exact Hlt].
    + exists self, outs, x. repeat split; assumption.
Qed.

Lemma hitrate_is_a_percentage_witness :
  (exists self outs x,
     LFU_session 2 ["a"; "b"; "a"] = Ok (self, outs) /\
     LFU_hitrate self = Ok x /\
     PrimFloat.leb 0 x = true /\ PrimFloat.leb x 100 = true) /\
  (exists self outs x,
     LCR_session exp_045 2 [("a", true); ("a", false)] = Ok (self, outs) /\
     LCR_hitrate self = Ok x /\
     PrimFloat.leb 0 x = true /\ PrimFloat.leb x 100 = true).
Proof.
  destruct (hitrate_is_a_percentage 2) as (Hlfu & _ & Hlcr); [lia|].
  split.
  - apply Hlfu; [discriminate | vm_compute; reflexivity].
  - apply Hlcr; [exact exp_045_ok | discriminate | vm_compute; reflexivity].
Defined.

(** ** The selection compares [w_lru] with 0.5 *)

Module Binary64_half.
Import Binary64.
Import Binary64_facts.

Lemma fval_half : fval 0.5%float = V 1 (-1).
Proof.
  unfold fval. rewrite Prim2SF_half. cbn [val].
  rewrite (V_shift 1 (-53) (-1)) by (unfold OFS; lia). reflexivity.
Qed.

Lemma ONE_half : ONE = 2 * V 1 (-1).
Proof.
  unfold ONE. rewrite (V_shift 1 (-1) 0) by (unfold OFS; lia).
  unfold V. change (1 * 2 ^ (0 - -1)) with 2. lia.
Qed.

(** [1 - q] against [q], for a double [q] of [0, 1]: rounding the difference
    never crosses 0.5. *)
Lemma complement_order (q : float) :
  unit_interval q ->
  fgood (1 - q)%float /\
  (V 1 (-1) <= fval q -> fval (1 - q)%float <= V 1 (-1)) /\
  (fval q <= V 1 (-1) -> V 1 (-1) <= fval (1 - q)%float).
Proof.
  intros [Hg Hle].
  pose proof (fgood_good _ fgood_one) as G1. pose proof (fgood_good _ Hg) as Gq.
  pose proof fval_one as H1. unfold fval in H1.
  pose proof ONE_half as HOH.
  destruct (fsub_one q Hg Hle) as (Hgr & _).
  assert (Hyx : val (Prim2SF q) <= val (Prim2SF 1%float)) by (rewrite H1; exact Hle).
  split; [exact Hgr|]. split; intros Hq.
  - apply (upper_ok_good (1 - q)%float 1 (-1)); [|lia].
    rewrite sub_spec. apply SFsub_upper; try assumption; try lia.
    + apply Z.le_lt_trans with ONE; [lia | exact ONE_lt_inf].
    + rewrite H1. unfold fval in Hq. lia.
  - apply lower_ok_fval; [|exact Hgr].
    rewrite sub_spec. apply SFsub_lower; try assumption; try lia.
    rewrite H1. unfold fval in Hq. lia.
Qed.

Lemma ltb_fval (x y : float) :
  fgood x -> fgood y -> PrimFloat.ltb x y = true <-> fval x < fval y.
Proof.
  intros Hx Hy. rewrite ltb_spec. apply SFltb_good; apply fgood_good; assumption.
Qed.

Lemma ltb_fval_false (x y : float) :
  fgood x -> fgood y -> PrimFloat.ltb x y = false <-> fval y <= fval x.
Proof.
  intros Hx Hy. pose proof (ltb_fval x y Hx Hy) as H.
  destruct (PrimFloat.ltb x y).
  - split; [discriminate|]. intros Hle. apply proj1 in H. specialize (H eq_refl). lia.
  - split; [|reflexivity]. intros _.
    destruct (Z_lt_le_dec (fval x) (fval y)) as [Hlt|Hge]; [|exact Hge].
    apply H in Hlt. discriminate.
Qed.

End Binary64_half.

(** X16.  With weights as [update_weight] leaves them ([w_lru] in [0, 1] and
    [w_lfu = 1 - w_lru]), [select_policy_and_history] compares [w_lru] with
    0.5: above it the recency arm is returned, below it the frequency arm, and
    [random.choice] decides only when [w_lru] is 0.5. *)
Theorem selection_compares_w_lru_with_half (self : LCR) (rnd : bool) :
  weights_wf self ->
  select_policy_and_history self rnd =
    if PrimFloat.ltb 0.5 (w_lru self) then PolicyType.LRU
    else if PrimFloat.ltb (w_lru self) 0.5 then PolicyType.LFU
    else if rnd then PolicyType.LFU else PolicyType.LRU.
Proof.
  intros [Hu Hf]. unfold select_policy_and_history. rewrite Hf.
  destruct (Binary64_half.complement_order _ Hu) as (Hgc & Hhi & Hlo).
  destruct Hu as [Hg _].
  pose proof Binary64_facts.unit_interval_half as [Hgh _].
  pose proof Binary64_half.fval_half as Hh.
  destruct (PrimFloat.ltb 0.5 (w_lru self)) eqn:E1.
  - apply Binary64_half.ltb_fval in E1; try assumption.
    assert (E : PrimFloat.ltb (1 - w_lru self) (w_lru self) = true).
    { apply Binary64_half.ltb_fval; try assumption. rewrite Hh in E1.
      specialize (Hhi ltac:(lia)). lia. }
    rewrite E. reflexivity.
  - apply Binary64_half.ltb_fval_false in E1; try assumption.
    rewrite Hh in E1. specialize (Hlo E1).
    assert (E : PrimFloat.ltb (1 - w_lru self) (w_lru self) = false).
    { apply Binary64_half.ltb_fval_false; try assumption. lia. }
    rewrite E.
    destruct (PrimFloat.ltb (w_lru self) 0.5) eqn:E2.
    + apply Binary64_half.ltb_fval in E2; try assumption. rewrite Hh in E2.
      assert (E' : PrimFloat.ltb (w_lru self) (1 - w_lru self) = true).
      { apply Binary64_half.ltb_fval; try assumption. lia. }
      rewrite E'. reflexivity.
    + apply Binary64_half.ltb_fval_false in E2; try assumption. rewrite Hh in E2.
      specialize (Hhi E2).
      assert (E' : PrimFloat.ltb (w_lru self) (1 - w_lru self) = false).
      { apply Binary64_half.ltb_fval_false; try assumption. lia. }
      rewrite E'. reflexivity.
Qed.

Lemma selection_compares_w_lru_with_half_witness :
  let base := {| budget := 1; hits := 0; accesses := 0 |} in
  let self := {| LCR_base := base;
                 history_lfu := []; history_lru := [];
                 lfu_policy := {| LFU_base := base; frequency_counter := [] |};
                 lru_policy := {| LRU_base := base; recency_list := [] |};
                 w_lfu := 0.25%float; w_lru := 0.75%float |} in
  select_policy_and_history self true = PolicyType.LRU.
Proof.
  apply (selection_compares_w_lru_with_half
           {| LCR_base := {| budget := 1; hits := 0; accesses := 0 |};
              history_lfu := []; history_lru := [];
              lfu_policy := {| LFU_base := {| budget := 1; hits := 0; accesses := 0 |};
                               frequency_counter := [] |};
              lru_policy := {| LRU_base := {| budget := 1; hits := 0; accesses := 0 |};
                               recency_list := [] |};
              w_lfu := 0.25%float; w_lru := 0.75%float |} true).
  split.
  - split; [vm_compute; exact I|]. vm_compute. discriminate.
  - vm_compute. reflexivity.
Defined.

(** ** The tests of LCR and the draws of [random.choice] *)

Lemma update_weight_ext (math_exp math_exp' : float -> float) (self : LCR) (key : CacheKey) :
  math_exp learning_rate = math_exp' learning_rate ->
  update_weight math_exp self key = update_weight math_exp' self key.
Proof. intros H. unfold update_weight. rewrite H. reflexivity. Qed.

Lemma LCR_access_ext (math_exp math_exp' : float -> float) (self : LCR) (rnd : bool)
    (key : CacheKey) :
  math_exp learning_rate = math_exp' learning_rate ->
  LCR_access math_exp self rnd key = LCR_access math_exp' self rnd key.
Proof.
  intros H. unfold LCR_access.
  rewrite (update_weight_ext math_exp math_exp' _ key H). reflexivity.
Qed.

Lemma run_lru_lcr_ext (math_exp math_exp' : float -> float) (trace : list (CacheKey * bool)) :
  math_exp learning_rate = math_exp' learning_rate ->
  forall lru lcr,
    run_lru_lcr math_exp lru lcr trace = run_lru_lcr math_exp' lru lcr trace.
Proof.
  intros H. induction trace as [|[val rnd] rest IH]; intros lru lcr; [reflexivity|].
  cbn [run_lru_lcr]. destruct (LRU_access lru val) as [[lru' r]|e]; [|reflexivity].
  cbn [bind]. rewrite (LCR_access_ext math_exp math_exp' lcr rnd val H).
  destruct (LCR_access math_exp' lcr rnd val) as [[lcr' r']|e]; [|reflexivity].
  cbn [bind]. apply IH.
Qed.


(** Where [random.choice] is not asked, the draw changes nothing. *)
Lemma LCR_access_draw_unused (math_exp : float -> float) (self : LCR) (key : CacheKey)
    (rnd : bool) :
  draw_matters math_exp self key = false ->
  LCR_access math_exp self rnd key = LCR_access math_exp self false key.
Proof.
  unfold draw_matters, LCR_access.
  change (LCR_contains (set_base self (incr_accesses (LCR_base self))) key)
    with (LCR_contains self key).
  destruct (LCR_contains self key); [reflexivity|]. cbn [negb andb].
  destruct (update_weight math_exp _ key) as [self1|e]; [|reflexivity].
  cbn [bind]. unfold select_policy_and_history.
  destruct (PrimFloat.ltb (w_lfu self1) (w_lru self1)); [reflexivity|].
  destruct (PrimFloat.ltb (w_lru self1) (w_lfu self1)); [reflexivity|].
  discriminate.
Qed.

(** Every run is one of the outcomes. *)
Lemma LCR_outcomes_complete (math_exp : float -> float) (keys : list CacheKey) :
  forall (draws : list bool) (self : LCR),
    List.length draws = List.length keys ->
    In (match LCR_run math_exp self (combine keys draws) with
        | Ok (self', _) => Ok self'
        | Raise e => Raise e
        end)
       (LCR_outcomes math_exp self keys).
Proof.
  induction keys as [|key rest IH]; intros draws self Hlen.
  - simpl. auto.
  - destruct draws as [|rnd draws]; [discriminate|]. simpl in Hlen.
    cbn [combine LCR_run LCR_outcomes].
    assert (Hgo : forall d,
               LCR_access math_exp self rnd key = LCR_access math_exp self d key ->
               In (match ('(self', r) <- LCR_access math_exp self rnd key ;;
                         '(self'', rs) <- LCR_run math_exp self' (combine rest draws) ;;
                         Ok (self'', r :: rs)) with
                   | Ok (self', _) => Ok self'
                   | Raise e => Raise e
                   end)
                  (match LCR_access math_exp self d key with
                   | Ok (self', _) => LCR_outcomes math_exp self' rest
                   | Raise e => [Raise e]
                   end)).
    { intros d Hd. rewrite Hd.
      destruct (LCR_access math_exp self d key) as [[s1 r]|e]; [|simpl; auto].
      cbn [bind]. specialize (IH draws s1 ltac:(lia)).
      destruct (LCR_run math_exp s1 (combine rest draws)) as [[s2 rs]|e]; exact IH. }
    destruct (draw_matters math_exp self key) eqn:Hm.
    + apply in_or_app. destruct rnd; [right | left]; apply Hgo; reflexivity.
    + apply Hgo. apply LCR_access_draw_unused. exact Hm.
Qed.

Lemma with_draws_length (draw : nat -> bool) (v : list CacheKey) :
  List.length (map draw (seq 0 (List.length v))) = List.length v.
Proof. rewrite length_map, length_seq. reflexivity. Qed.

Lemma with_draws_keys (draw : nat -> bool) (v : list CacheKey) :
  map fst (with_draws draw v) = v.
Proof.
  unfold with_draws.
  generalize (with_draws_length draw v). generalize (map draw (seq 0 (List.length v))).
  induction v as [|k v IH]; intros [|d ds] H; try discriminate; [reflexivity|].
  simpl. f_equal. apply IH. simpl in H. lia.
Qed.

Lemma LCR_outcomes_with_draws (math_exp : float -> float) (draw : nat -> bool)
    (keys : list CacheKey) (self : LCR) :
  In (match LCR_run math_exp self (with_draws draw keys) with
      | Ok (self', _) => Ok self'
      | Raise e => Raise e
      end)
     (LCR_outcomes math_exp self keys).
Proof.
  unfold with_draws. apply LCR_outcomes_complete. apply with_draws_length.
Qed.

(** The loop over both policies is the two loops. *)
Lemma run_lru_lcr_split (math_exp : float -> float) (trace : list (CacheKey * bool)) :
  forall lru lcr lru' outs lcr' outs',
    LRU_run lru (map fst trace) = Ok (lru', outs) ->
    LCR_run math_exp lcr trace = Ok (lcr', outs') ->
    run_lru_lcr math_exp lru lcr trace = Ok (lru', lcr').
Proof.
  induction trace as [|[val rnd] rest IH]; intros lru lcr lru' outs lcr' outs' H1 H2.
  - simpl in *. inversion H1; inversion H2; subst. reflexivity.
  - cbn [map fst LRU_run LCR_run run_lru_lcr] in *.
    destruct (LRU_access lru val) as [[lru1 r1]|e]; [|discriminate]. cbn [bind] in *.
    destruct (LCR_access math_exp lcr rnd val) as [[lcr1 r2]|e]; [|discriminate].
    cbn [bind] in *.
    destruct (LRU_run lru1 (map fst rest)) as [[lru2 o1]|e] eqn:E1; [|discriminate].
    destruct (LCR_run math_exp lcr1 rest) as [[lcr2 o2]|e] eqn:E2; [|discriminate].
    cbn [bind] in *. inversion H1; inversion H2; subst.
    eapply IH; eassumption.
Qed.

(** A check that holds of every outcome holds of the run with any draws. *)
Lemma run_lru_lcr_checked (math_exp : float -> float) (draw : nat -> bool)
    (keys : list CacheKey) (lru0 : LRU) (lcr0 : LCR) (check : LRU -> LCR -> bool) :
  match LRU_run lru0 keys with
  | Ok (lru1, _) =>
      forallb (fun res => match res with Ok lcr1 => check lru1 lcr1 | Raise _ => false end)
        (LCR_outcomes math_exp lcr0 keys)
  | Raise _ => false
  end = true ->
  exists lru1 lcr1,
    run_lru_lcr math_exp lru0 lcr0 (with_draws draw keys) = Ok (lru1, lcr1) /\
    check lru1 lcr1 = true.
Proof.
  destruct (LRU_run lru0 keys) as [[lru1 outs]|e] eqn:Hrun; [|discriminate].
  intros Hall. rewrite forallb_forall in Hall.
  specialize (Hall _ (LCR_outcomes_with_draws math_exp draw keys lcr0)).
  destruct (LCR_run math_exp lcr0 (with_draws draw keys)) as [[lcr1 outs']|e] eqn:Hlcr;
    [|discriminate].
  exists lru1, lcr1. split; [|exact Hall].
  apply (run_lru_lcr_split math_exp _ lru0 lcr0 lru1 outs lcr1 outs');
    [rewrite with_draws_keys; exact Hrun | exact Hlcr].
Qed.

(** X17.  [test_lcr_on_worst_case_lru] does not depend on chance: whatever
    [random.choice] returns at each access, the LCR ends with a higher hit
    rate than the LRU and the test passes.  [math.exp(0.45)] is taken to be
    the double nearest to e^0.45. *)
Theorem test_lcr_on_worst_case_lru_passes_for_all_draws
    (math_exp : float -> float) (draw : nat -> bool) :
  math_exp learning_rate = exp_045 learning_rate ->
  test_lcr_on_worst_case_lru math_exp draw = Ok tt.
Proof.
  intros Hexp. unfold test_lcr_on_worst_case_lru.
  set (test_vector := list_mul ["a"] 10 ++ ["b"; "c"; "d"] ++ list_mul ["a"] 3 ++ ["b"; "c"; "d"]).
  change (LRU_init 3) with (Ok (fresh_LRU 3)).
  change (LCR_init 3) with (Ok (fresh_LCR 3)).
  cbn [bind]. cbv zeta.
  rewrite (run_lru_lcr_ext math_exp exp_045 _ Hexp).
  destruct (run_lru_lcr_checked exp_045 draw test_vector (fresh_LRU 3) (fresh_LCR 3)
              (fun lru1 lcr1 =>
                 match (a <- LCR_hitrate lcr1 ;; b <- LRU_hitrate lru1 ;;
                        assertGreater a b) with
                 | Ok _ => true
                 | Raise _ => false
                 end))
    as (lru1 & lcr1 & Hrun & Hcheck).
  { vm_compute. reflexivity. }
  rewrite Hrun. cbn [bind].
  destruct (a <- LCR_hitrate lcr1 ;; b <- LRU_hitrate lru1 ;; assertGreater a b)
    as [[]|e]; [reflexivity | discriminate].
Qed.

Lemma test_lcr_on_worst_case_lru_passes_for_all_draws_witness :
  test_lcr_on_worst_case_lru exp_045 (fun _ => true) = Ok tt.
Proof.
  apply (test_lcr_on_worst_case_lru_passes_for_all_draws exp_045 (fun _ => true)).
  reflexivity.
Defined.







(** ** The worst case of LFU, for any number of rounds *)

Lemma LFU_run_app (t1 t2 : list CacheKey) :
  forall self : LFU,
    LFU_run self (t1 ++ t2) =
      ('(s1, o1) <- LFU_run self t1 ;;
       '(s2, o2) <- LFU_run s1 t2 ;;
       Ok (s2, o1 ++ o2)).
Proof.
  induction t1 as [|k t1 IH]; intros self.
  - simpl. destruct (LFU_run self t2) as [[s2 o2]|e]; reflexivity.
  - cbn [app LFU_run]. destruct (LFU_access self k) as [[s r]|e]; [|reflexivity].
    cbn [bind]. rewrite IH.
    destruct (LFU_run s t1) as [[s1 o1]|e]; [|reflexivity]. cbn [bind].
    destruct (LFU_run s1 t2) as [[s2 o2]|e]; reflexivity.
Qed.

Lemma list_mul_succ {A : Type} (l : list A) (n : nat) :
  list_mul l (S n) = l ++ list_mul l n.
Proof. reflexivity. Qed.

(** Once "b" and "c" sit beside the three-times-used "1", a round of "a",
    "b", "c" on an LFU of budget 3 evicts each of them in turn and hits
    nothing. *)
Lemma LFU_thrash_rounds (n : nat) :
  forall h a : Z,
    exists outs,
      LFU_run {| LFU_base := {| budget := 3; hits := h; accesses := a |};
                 frequency_counter := [("1", 3); ("b", 1); ("c", 1)] |}
        (list_mul ["a"; "b"; "c"] n)
      = Ok ({| LFU_base := {| budget := 3; hits := h; accesses := a + 3 * Z.of_nat n |};
               frequency_counter := [("1", 3); ("b", 1); ("c", 1)] |}, outs).
Proof.
  induction n as [|n IH]; intros h a.
  - exists []. cbn [list_mul repeat List.concat LFU_run].
    replace (a + 3 * Z.of_nat 0) with a by lia. reflexivity.
  - rewrite list_mul_succ, LFU_run_app.
    change (LFU_run {| LFU_base := {| budget := 3; hits := h; accesses := a |};
                       frequency_counter := [("1", 3); ("b", 1); ("c", 1)] |}
              ["a"; "b"; "c"])
      with (Ok ({| LFU_base := {| budget := 3; hits := h; accesses := a + 1 + 1 + 1 |};
                   frequency_counter := [("1", 3); ("b", 1); ("c", 1)] |},
                [Some "b"; Some "c"; Some "a"])).
    cbn [bind]. destruct (IH h (a + 1 + 1 + 1)) as (outs & ->). cbn [bind].
    replace (a + 3 * Z.of_nat (S n)) with (a + 1 + 1 + 1 + 3 * Z.of_nat n) by lia.
    eexists. reflexivity.
Qed.

(** The same rounds on an LRU of budget 3 that holds "c", "b", "a": every
    access is a hit. *)
Lemma LRU_steady_rounds (n : nat) :
  forall h a : Z,
    exists outs,
      LRU_run {| LRU_base := {| budget := 3; hits := h; accesses := a |};
                 recency_list := ["c"; "b"; "a"] |}
        (list_mul ["a"; "b"; "c"] n)
      = Ok ({| LRU_base := {| budget := 3; hits := h + 3 * Z.of_nat n;
                              accesses := a + 3 * Z.of_nat n |};
               recency_list := ["c"; "b"; "a"] |}, outs).
Proof.
  induction n as [|n IH]; intros h a.
  - exists []. cbn [list_mul repeat List.concat LRU_run].
    replace (a + 3 * Z.of_nat 0) with a by lia.
    replace (h + 3 * Z.of_nat 0) with h by lia. reflexivity.
  - rewrite list_mul_succ, LRU_run_app.
    change (LRU_run {| LRU_base := {| budget := 3; hits := h; accesses := a |};
                       recency_list := ["c"; "b"; "a"] |}
              ["a"; "b"; "c"])
      with (Ok ({| LRU_base := {| budget := 3; hits := h + 1 + 1 + 1;
                                  accesses := a + 1 + 1 + 1 |};
                   recency_list := ["c"; "b"; "a"] |},
                [@None CacheKey; None; None])).
    cbn [bind]. destruct (IH (h + 1 + 1 + 1) (a + 1 + 1 + 1)) as (outs & ->). cbn [bind].
    replace (a + 3 * Z.of_nat (S n)) with (a + 1 + 1 + 1 + 3 * Z.of_nat n) by lia.
    replace (h + 3 * Z.of_nat (S n)) with (h + 1 + 1 + 1 + 3 * Z.of_nat n) by lia.
    eexists. reflexivity.
Qed.

(** X20.  The trace of [test_worst_case_lfu] and
    [test_lru_on_worst_case_lfu] with any number [n + 1] of rounds in place
    of 50: "1" three times, then "a", "b", "c" over and over, on budget 3.
    The LFU never hits again after the two repeats of "1": it ends with 2
    hits in [3 * n + 6] accesses, while the LRU misses each key once and ends
    with [3 * n + 2] hits. *)
Theorem LFU_thrashes_where_LRU_settles (n : nat) :
  let test_vector := list_mul ["1"] 3 ++ list_mul ["a"; "b"; "c"] (S n) in
  exists lfu outs lru outs',
    LFU_session 3 test_vector = Ok (lfu, outs) /\
    hits (LFU_base lfu) = 2 /\
    accesses (LFU_base lfu) = 3 * Z.of_nat n + 6 /\
    LRU_session 3 test_vector = Ok (lru, outs') /\
    hits (LRU_base lru) = 3 * Z.of_nat n + 2 /\
    accesses (LRU_base lru) = 3 * Z.of_nat n + 6.
Proof.
  cbv zeta. unfold LFU_session, LRU_session.
  change (LFU_init 3) with (Ok (fresh_LFU 3)).
  change (LRU_init 3) with (Ok (fresh_LRU 3)).
  cbn [bind]. rewrite (list_mul_succ ["a"; "b"; "c"] n).
  rewrite (app_assoc (list_mul ["1"] 3) ["a"; "b"; "c"]).
  rewrite LFU_run_app, LRU_run_app.
  change (LFU_run (fresh_LFU 3) (list_mul ["1"] 3 ++ ["a"; "b"; "c"]))
    with (Ok ({| LFU_base := {| budget := 3; hits := 2; accesses := 6 |};
                 frequency_counter := [("1", 3); ("b", 1); ("c", 1)] |},
              [@None CacheKey; None; None; None; None; Some "a"])).
  change (LRU_run (fresh_LRU 3) (list_mul ["1"] 3 ++ ["a"; "b"; "c"]))
    with (Ok ({| LRU_base := {| budget := 3; hits := 2; accesses := 6 |};
                 recency_list := ["c"; "b"; "a"] |},
              [@None CacheKey; None; None; None; None; Some "1"])).
  cbn [bind].
  destruct (LFU_thrash_rounds n 2 6) as (o1 & ->).
  destruct (LRU_steady_rounds n 2 6) as (o2 & ->).
  cbn [bind]. do 4 eexists.
  split; [reflexivity|]. split; [reflexivity|].
  split; [cbn [accesses LFU_base]; lia|].
  split; [reflexivity|]. split; cbn [hits accesses LRU_base]; lia.
Qed.

(** ** The histories are logs of the last evictions *)

Lemma record_eviction_logged (b : Z) (h h' : list CacheKey) (m : option CacheKey) :
  0 < b -> len h <= b ->
  record_eviction b h m = Ok h' -> h' = logged b h m.
Proof.
  intros Hb Hlen. unfold record_eviction, logged.
  destruct m as [k|]; [|intros H; inversion H; reflexivity].
  unfold truthy. destruct (String.eqb k ""); cbn [negb];
    [intros H; inversion H; reflexivity|].
  destruct (budget_succ b Hb) as (n & Hbn & Hn). rewrite Hn. cbn [firstn].
  destruct (Z.geb_spec (len h) b) as [Hge|Hlt].
  - destruct (list_pop h) as [[r y]|e] eqn:Hpop; [|discriminate].
    cbn [bind]. intros H. inversion H; subst h'. unfold list_insert0. f_equal.
    apply list_pop_inv in Hpop. subst h. symmetry. apply firstn_prefix.
    + rewrite len_app in Hlen, Hge. unfold len in *. simpl in *. lia.
    + left. rewrite len_app in Hlen, Hge. unfold len in *. simpl in *. lia.
  - cbn [bind]. intros H. inversion H; subst h'. unfold list_insert0. f_equal.
    symmetry. apply firstn_all2. unfold len in Hlt. lia.
Qed.

(** X21.  The two histories of an LCR are logs of what its arms evicted on
    misses.  A hit leaves both as they were.  A miss accesses one arm only
    and leaves the other arm and its history untouched; if the accessed arm
    evicted a key other than the empty string, that key goes to the front of
    the arm's own history, which keeps its [budget] most recent entries. *)
Theorem LCR_histories_log_the_evictions
    (math_exp : float -> float) (self self' : LCR) (rnd : bool) (key : CacheKey)
    (r : option CacheKey) :
  LCR_wf self ->
  LCR_access math_exp self rnd key = Ok (self', r) ->
  (LCR_contains self key = true ->
     history_lfu self' = history_lfu self /\ history_lru self' = history_lru self) /\
  (LCR_contains self key = false ->
     (exists p m,
         LFU_access (lfu_policy self) key = Ok (p, m) /\
         lfu_policy self' = p /\
         history_lfu self' = logged (budget (LCR_base self)) (history_lfu self) m /\
         lru_policy self' = lru_policy self /\
         history_lru self' = history_lru self) \/
     (exists p m,
         LRU_access (lru_policy self) key = Ok (p, m) /\
         lru_policy self' = p /\
         history_lru self' = logged (budget (LCR_base self)) (history_lru self) m /\
         lfu_policy self' = lfu_policy self /\
         history_lfu self' = history_lfu self)).
Proof.
  intros Hwf Hacc.
  pose proof (LCR_wf_budget _ Hwf) as Hb.
  destruct (LCR_access_cases _ _ _ _ _ _ Hacc)
    as [p Hf Hp ->|p Hf Hr Hp ->|self1 p m h Hc Hup Hsel Hp Hrec -> _
       |self1 p m h Hc Hup Hsel Hp Hrec -> _].
  - split; [intros _; split; reflexivity|].
    unfold LCR_contains. rewrite Hf. discriminate.
  - split; [intros _; split; reflexivity|].
    unfold LCR_contains. rewrite Hf, Hr. discriminate.
  - split; [congruence|]. intros _. left.
    destruct (update_weight_fields _ _ _ _ Hup) as (_ & _ & Hhr & _ & Hpr).
    exists p, m. split; [exact Hp|]. split; [reflexivity|].
    cbn [set_arm_lfu history_lfu history_lru lru_policy].
    split; [|split; [exact Hpr | exact Hhr]].
    apply record_eviction_logged; [exact Hb | apply (LCR_wf_history_lfu _ Hwf) | exact Hrec].
  - split; [congruence|]. intros _. right.
    destruct (update_weight_fields _ _ _ _ Hup) as (_ & Hhf & _ & Hpf & _).
    exists p, m. split; [exact Hp|]. split; [reflexivity|].
    cbn [set_arm_lru history_lfu history_lru lfu_policy].
    split; [|split; [exact Hpf | exact Hhf]].
    apply record_eviction_logged; [exact Hb | apply (LCR_wf_history_lru _ Hwf) | exact Hrec].
Qed.

(** An LCR of budget 1 whose frequency arm holds "a" is asked for "b" with
    the frequency arm drawn: "a" is evicted and logged in [history_lfu]. *)
Lemma LCR_histories_log_the_evictions_witness :
  let base := {| budget := 1; hits := 0; accesses := 1 |} in
  let self := {| LCR_base := base;
                 history_lfu := []; history_lru := [];
                 lfu_policy := {| LFU_base := base; frequency_counter := [("a", 1)] |};
                 lru_policy := fresh_LRU 1;
                 w_lfu := 0.5%float; w_lru := 0.5%float |} in
  exists self',
    LCR_access exp_045 self true "b" = Ok (self', None) /\
    history_lfu self' = ["a"] /\ history_lru self' = [].
Proof.
  intros base self.
  assert (Hwf : LCR_wf self).
  { constructor; unfold self, base; cbn.
    - lia.
    - split; [exact Binary64_facts.unit_interval_half | reflexivity].
    - constructor; cbn.
      + lia.
      + repeat constructor. intros [].
      + unfold len. simpl. lia.
      + repeat constructor.
      + lia.
    - constructor; cbn; [lia | constructor | unfold len; simpl; lia | lia].
    - reflexivity.
    - reflexivity.
    - unfold len. simpl. lia.
    - unfold len. simpl. lia.
    - lia.
    - intros k _ []. }
  eexists. split; [vm_compute; reflexivity|].
  refine (match proj2 (LCR_histories_log_the_evictions exp_045 self _ true "b" None Hwf _)
                  eq_refl with
          | or_introl (ex_intro _ p (ex_intro _ m (conj Ha (conj _ (conj Hh (conj _ Hr)))))) => _
          | or_intror (ex_intro _ p (ex_intro _ m (conj Ha _))) => _
          end).
  - vm_compute. reflexivity.
  - split; [|exact Hr]. rewrite Hh.
    revert Ha. vm_compute. intros Ha. inversion Ha. reflexivity.
  - revert Ha. vm_compute. intros Ha. split; reflexivity.
Defined.
